(** * tsping: a shallow embedding of the Tailscale peer-latency reporter

    The repository holds four iterations of one Go program.  [src/main.go]
    is the last one (directory reader, concurrent probes with ISP lookup,
    NAT grouping, ranking); the earlier iterations differ in how probe
    outcomes are gathered.  The embedding follows [src/main.go] function by
    function; the iteration that waits on a channel with a global timeout is
    embedded separately in [Module Collector].

    Go values are modelled as the code has them: a [string] is a byte
    sequence, an [int] is a 64-bit two's-complement integer carried in [Z]
    with its wrap-around written out, a [float64] is a binary64 value of the
    [SpecFloat] library, a [map[string]int] is a [gmap string Z], a slice
    updated in place is a list with stdpp's lookup and insert. *)

From Stdlib Require Import ZArith Ascii String List Bool Lia Permutation Sorted.
From Stdlib Require Import Floats.SpecFloat QArith DecimalString.
From Stdlib Require DecimalPos DecimalZ.
From stdpp Require Import base option list gmap strings sorting.

Local Open Scope string_scope.
Local Open Scope list_scope.
Local Open Scope Z_scope.

(** ** Bytes and strings *)

Definition byte_of (c : ascii) : Z := Z.of_N (N_of_ascii c).

Definition isDigit (c : ascii) : bool :=
  (48 <=? byte_of c) && (byte_of c <=? 57).

Definition digitVal (c : ascii) : Z := byte_of c - 48.

(** [strings.HasPrefix(s, p)]. *)
Fixpoint HasPrefix (s p : string) : bool :=
  match p, s with
  | EmptyString, _ => true
  | String _ _, EmptyString => false
  | String b p', String a s' => Ascii.eqb a b && HasPrefix s' p'
  end.

(** [strings.Contains(s, sub)]: [sub] occurs at some offset of [s]. *)
Fixpoint Contains (s sub : string) : bool :=
  HasPrefix s sub ||
  match s with
  | EmptyString => false
  | String _ s' => Contains s' sub
  end.

(** [strings.Split(s, sep)] for a one-byte separator: every separator ends a
    piece, so the result always has one more piece than separators. *)
Fixpoint Split (s : string) (sep : ascii) : list string :=
  match s with
  | EmptyString => [EmptyString]
  | String c s' =>
      if Ascii.eqb c sep then EmptyString :: Split s' sep
      else match Split s' sep with
           | [] => [String c EmptyString]
           | piece :: pieces => String c piece :: pieces
           end
  end.

(** [strings.Join(elems, sep)]. *)
Fixpoint Join (elems : list string) (sep : string) : string :=
  match elems with
  | [] => EmptyString
  | [e] => e
  | e :: rest => e +:+ sep +:+ Join rest sep
  end.

(** ** Machine integers *)

(** Go's [int] on the supported platforms: 64 bits, two's complement. *)
Definition wrap64 (z : Z) : Z := (z + 2 ^ 63) mod 2 ^ 64 - 2 ^ 63.

(** [int32], as used by the atomic completion counter. *)
Definition wrap32 (z : Z) : Z := (z + 2 ^ 31) mod 2 ^ 32 - 2 ^ 31.

Definition maxInt64 : Z := 2 ^ 63 - 1.
Definition minInt64 : Z := - 2 ^ 63.

(** A [float64] is a binary64 value. *)
Abbreviation float64 := spec_float.

Section Tsping.

(** ** Go's [net] package, as far as [isPublicIP] uses it

    [net.ParseIP] hands dotted-decimal text to the IPv4 parser and text with
    a colon to the IPv6 parser.  The IPv4 parser is written out below (octets
    0..255, exactly four fields, no leading zero, as the library has had it
    since Go 1.17).  The IPv6 text parser is not part of this repository and
    no probe output reaches it (the egress pattern captures digits and dots
    only), so it is left as a parameter that yields the 128-bit address. *)

Variable parseIPv6 : string -> option Z.

(** A [net.IP] is a byte slice of length 4 or 16. *)
Abbreviation IP := (list Z).

Definition v4InV6Prefix : IP := [0; 0; 0; 0; 0; 0; 0; 0; 0; 0; 255; 255].

(** Big-endian bytes of a 128-bit address. *)
Definition bytes16 (n : Z) : IP :=
  map (fun i => (n / 2 ^ (8 * (15 - Z.of_nat i))) mod 256) (seq 0 16).

Fixpoint parseIPv4Fields (s : string) (prev : option ascii)
    (fields : list Z) (val digLen : Z) : option (list Z) :=
  match s with
  | EmptyString =>
      if Z.of_nat (length fields) <? 3 then None else Some (fields ++ [val])
  | String c rest =>
      if isDigit c then
        if (digLen =? 1) && (val =? 0) then None
        else
          let val' := val * 10 + digitVal c in
          if 255 <? val' then None
          else parseIPv4Fields rest (Some c) fields val' (digLen + 1)
      else if Ascii.eqb c "." then
        match prev, rest with
        | None, _ => None
        | _, EmptyString => None
        | Some p, _ =>
            if Ascii.eqb p "." then None
            else if Z.of_nat (length fields) =? 3 then None
            else parseIPv4Fields rest (Some c) (fields ++ [val]) 0 0
        end
      else None
  end.

Definition parseIPv4 (s : string) : option IP :=
  match parseIPv4Fields s None [] 0 0 with
  | Some fields => Some (v4InV6Prefix ++ fields)
  | None => None
  end.

(** The dispatch loop of [ParseIP]: the first of '.', ':' and '%' decides. *)
Fixpoint parseDispatch (whole s : string) : option IP :=
  match s with
  | EmptyString => None
  | String c rest =>
      if Ascii.eqb c "." then parseIPv4 whole
      else if Ascii.eqb c ":" then
        match parseIPv6 whole with
        | Some n => Some (bytes16 n)
        | None => None
        end
      else if Ascii.eqb c "%" then None
      else parseDispatch whole rest
  end.

Definition ParseIP (s : string) : option IP := parseDispatch s s.

(** [IP.To4]: the four-byte form of an IPv4 or IPv4-mapped address. *)
Definition To4 (ip : IP) : option IP :=
  if Nat.eqb (length ip) 4 then Some ip
  else if Nat.eqb (length ip) 16 &&
          forallb (Z.eqb 0) (firstn 10 ip) &&
          (nth 10 ip 0 =? 255) && (nth 11 ip 0 =? 255)
       then Some (skipn 12 ip)
  else None.

(** [net.CIDRMask(ones, bits)] with [bits = 8 * l]. *)
Fixpoint CIDRMask (ones : Z) (l : nat) : list Z :=
  match l with
  | O => []
  | S l' =>
      if 8 <=? ones then 255 :: CIDRMask (ones - 8) l'
      else (255 - Z.shiftr 255 ones) :: CIDRMask 0 l'
  end.

(** [IP.Mask]: byte-wise conjunction, after bringing both to one length. *)
Definition Mask (ip mask : list Z) : option IP :=
  let mask :=
    if Nat.eqb (length mask) 16 && Nat.eqb (length ip) 4 &&
       forallb (Z.eqb 255) (firstn 12 mask)
    then skipn 12 mask else mask in
  let ip :=
    if Nat.eqb (length mask) 4 && Nat.eqb (length ip) 16 &&
       bool_decide (firstn 12 ip = v4InV6Prefix)
    then skipn 12 ip else ip in
  if Nat.eqb (length ip) (length mask)
  then Some (zip_with Z.land ip mask) else None.

Record IPNet := { net_IP : IP; net_Mask : list Z }.

(** [dtoi]: the decimal number at the head of a string, how many bytes it
    takes, and whether there was one below the library's bound. *)
Fixpoint dtoi_loop (s : string) (n : Z) (i : nat) : Z * nat * bool :=
  match s with
  | String c rest =>
      if isDigit c then
        let n' := n * 10 + digitVal c in
        if 16777215 <=? n' then (16777215, i, false)
        else dtoi_loop rest n' (S i)
      else (n, i, negb (Nat.eqb i 0))
  | EmptyString => (n, i, negb (Nat.eqb i 0))
  end.

Definition dtoi (s : string) : Z * nat * bool :=
  match dtoi_loop s 0 0 with
  | (n, i, ok) => if Nat.eqb i 0 then (0, O, false) else (n, i, ok)
  end.

(** The parts of a string before and after its first '/'. *)
Fixpoint cutSlash (s : string) : option (string * string) :=
  match s with
  | EmptyString => None
  | String c rest =>
      if Ascii.eqb c "/" then Some (EmptyString, rest)
      else match cutSlash rest with
           | Some (a, m) => Some (String c a, m)
           | None => None
           end
  end.

(** [net.ParseCIDR], returning the network only. *)
Definition ParseCIDR (s : string) : option IPNet :=
  match cutSlash s with
  | None => None
  | Some (addr, mask) =>
      match ParseIP addr with
      | None => None
      | Some ip16 =>
          let bitLen := match To4 ip16 with Some _ => 32 | None => 128 end in
          match dtoi mask with
          | (n, i, ok) =>
              if ok && Nat.eqb i (String.length mask) &&
                 (0 <=? n) && (n <=? bitLen)
              then
                let m := CIDRMask n (Z.to_nat (bitLen / 8)) in
                match Mask ip16 m with
                | Some nip => Some {| net_IP := nip; net_Mask := m |}
                | None => None
                end
              else None
          end
      end
  end.

Definition networkNumberAndMask (n : IPNet) : option (IP * list Z) :=
  let ip :=
    match To4 (net_IP n) with
    | Some ip4 => Some ip4
    | None => if Nat.eqb (length (net_IP n)) 16 then Some (net_IP n) else None
    end in
  match ip with
  | None => None
  | Some ip =>
      if Nat.eqb (length (net_Mask n)) 4 then
        if Nat.eqb (length ip) 4 then Some (ip, net_Mask n) else None
      else if Nat.eqb (length (net_Mask n)) 16 then
        if Nat.eqb (length ip) 4 then Some (ip, skipn 12 (net_Mask n))
        else Some (ip, net_Mask n)
      else None
  end.

(** The comparison loop of [IPNet.Contains]. *)
Fixpoint sameNetwork (nn m ip : list Z) : bool :=
  match nn, m, ip with
  | n :: nn', k :: m', b :: ip' =>
      if negb (Z.land n k =? Z.land b k) then false else sameNetwork nn' m' ip'
  | _, _, _ => true
  end.

Definition IPNet_Contains (n : IPNet) (ip : IP) : bool :=
  match networkNumberAndMask n with
  | None => false
  | Some (nn, m) =>
      let ip := match To4 ip with Some x => x | None => ip end in
      if negb (Nat.eqb (length ip) (length nn)) then false
      else sameNetwork nn m ip
  end.

(** ** [isPublicIP] *)

Definition privateBlocks : list string :=
  ["10.0.0.0/8"; "127.0.0.0/8"; "172.16.0.0/12";
   "192.168.0.0/16"; "169.254.0.0/16"; "100.64.0.0/10"].

(** The loop over the blocks.  A block that did not parse would leave a nil
    [*IPNet] whose [Contains] panics; [None] stands for that panic, which
    [privateBlocks_parse] below shows is never reached. *)
Fixpoint isPublicIP_loop (blocks : list string) (parsedIP : IP) : option bool :=
  match blocks with
  | [] => Some true
  | cidr :: rest =>
      match ParseCIDR cidr with
      | None => None
      | Some block =>
          if IPNet_Contains block parsedIP then Some false
          else isPublicIP_loop rest parsedIP
      end
  end.

Definition isPublicIP (ip : string) : bool :=
  match ParseIP ip with
  | None => false
  | Some parsedIP =>
      match isPublicIP_loop privateBlocks parsedIP with
      | Some b => b
      | None => false
      end
  end.

(** ** [strconv.Atoi] and [float64] *)

Fixpoint digitsValue (s : string) (acc : Z) : option Z :=
  match s with
  | EmptyString => Some acc
  | String c rest =>
      if isDigit c then digitsValue rest (acc * 10 + digitVal c) else None
  end.

(** [strconv.Atoi]: the value and whether [err == nil].  A syntax error
    yields 0; a value outside [int] yields the nearest bound with a range
    error. *)
Definition Atoi (s : string) : Z * bool :=
  let '(neg, body) :=
    match s with
    | String c rest =>
        if Ascii.eqb c "-" then (true, rest)
        else if Ascii.eqb c "+" then (false, rest)
        else (false, s)
    | EmptyString => (false, s)
    end in
  match body with
  | EmptyString => (0, false)
  | _ =>
      match digitsValue body 0 with
      | None => (0, false)
      | Some un =>
          if neg then
            if 2 ^ 63 <? un then (minInt64, false) else (- un, true)
          else
            if 2 ^ 63 <=? un then (maxInt64, false) else (un, true)
      end
  end.

(** binary64. *)
Definition prec : Z := 53.
Definition emax : Z := 1024.

(** The conversion [float64(n)] of an integer: round to nearest, ties to
    even. *)
Definition float64_of_int (n : Z) : float64 := binary_normalize prec emax n 0 false.

Definition fdiv (x y : float64) : float64 := SFdiv prec emax x y.
Definition fltb (x y : float64) : bool := SFltb x y.

(** The real number a finite binary64 value stands for. *)
Definition float64_to_Q (x : float64) : Q :=
  match x with
  | S754_finite s m e =>
      let v := if s then Zneg m else Zpos m in
      if 0 <=? e then inject_Z (v * 2 ^ e) else Qmake v (Z.to_pos (2 ^ (- e)))
  | _ => 0%Q
  end.

(** ** [calculateAverage] *)

(** The accumulation loop: a sample is added when it parses. *)
Definition addSample (sum : Z) (p : string) : Z :=
  match Atoi p with
  | (val, true) => wrap64 (sum + val)
  | (_, false) => sum
  end.

Definition calculateAverage (pings : list string) : float64 :=
  let sum := fold_left addSample pings 0 in
  if Nat.eqb (length pings) 0 then S754_zero false
  else fdiv (float64_of_int sum) (float64_of_int (Z.of_nat (length pings))).

(** ** The two probe patterns

    Both regular expressions are sequences of literals and greedy digit runs
    each followed by a literal that is not a digit (or by nothing), so a
    match at a given offset takes the maximal digit runs; the leftmost
    offset that matches is the one [FindStringSubmatch] reports. *)

(** The rest of [s] after the literal [lit], when [s] starts with it. *)
Fixpoint expect (lit s : string) : option string :=
  match lit, s with
  | EmptyString, _ => Some s
  | String b lit', String a s' =>
      if Ascii.eqb a b then expect lit' s' else None
  | String _ _, EmptyString => None
  end.

(** The maximal run of digits at the head of [s], and what follows it. *)
Fixpoint spanDigits (s : string) : string * string :=
  match s with
  | String c rest =>
      if isDigit c then
        let '(ds, tl) := spanDigits rest in (String c ds, tl)
      else (EmptyString, s)
  | EmptyString => (EmptyString, EmptyString)
  end.

(** [\d+]: a non-empty digit run. *)
Definition digits1 (s : string) : option (string * string) :=
  match spanDigits s with
  | (EmptyString, _) => None
  | (ds, tl) => Some (ds, tl)
  end.

(** [in (\d+)ms] anchored at the head of [s]: the captured digits. *)
Definition pingPatternAt (s : string) : option string :=
  match expect "in " s with
  | None => None
  | Some s1 =>
      match digits1 s1 with
      | None => None
      | Some (n, s2) =>
          match expect "ms" s2 with
          | Some _ => Some n
          | None => None
          end
      end
  end.

(** [via (\d+\.\d+\.\d+\.\d+):(\d+)] anchored at the head of [s]: the
    captured address and port. *)
Definition publicIPPatternAt (s : string) : option (string * string) :=
  match expect "via " s with
  | None => None
  | Some s0 =>
      match digits1 s0 with
      | None => None
      | Some (a, s1) =>
      match expect "." s1 with
      | None => None
      | Some s1 =>
      match digits1 s1 with
      | None => None
      | Some (b, s2) =>
      match expect "." s2 with
      | None => None
      | Some s2 =>
      match digits1 s2 with
      | None => None
      | Some (c, s3) =>
      match expect "." s3 with
      | None => None
      | Some s3 =>
      match digits1 s3 with
      | None => None
      | Some (d, s4) =>
      match expect ":" s4 with
      | None => None
      | Some s4 =>
      match digits1 s4 with
      | None => None
      | Some (prt, _) =>
          Some (a +:+ "." +:+ b +:+ "." +:+ c +:+ "." +:+ d, prt)
      end end end end end end end end end
  end.

(** [FindStringSubmatch]: the match at the leftmost offset. *)
Fixpoint findFirst {A} (at_head : string -> option A) (s : string) : option A :=
  match at_head s with
  | Some m => Some m
  | None =>
      match s with
      | EmptyString => None
      | String _ rest => findFirst at_head rest
      end
  end.

Definition pingPattern : string -> option string := findFirst pingPatternAt.
Definition publicIPPattern : string -> option (string * string) :=
  findFirst publicIPPatternAt.

(** ** Peers and the outside world *)

Record PingResult := {
  ip : string;
  hostname : string;
  user : string;
  os : string;
  externalIP : string;
  port : string;
  pings : list string;
  group : string;
  isp : string
}.

(** What the run observes of its environment: the platform, whether the
    [tailscale version] and [tailscale status] commands succeed and what the
    latter prints, the combined output of [tailscale ping] per mesh address
    ([None] when the command fails or cannot be spawned), and the ISP field
    of the lookup service's answer per queried address ([None] when the
    request, the read or the JSON decoding fails). *)
Record World := {
  GOOS : string;
  tailscale_version : bool;
  tailscale_status : option string;
  tailscale_ping : string -> option string;
  ip_api : string -> option string
}.

Definition supportedOS (goos : string) : bool :=
  String.eqb goos "windows" || String.eqb goos "linux" || String.eqb goos "darwin".

(** ** [getIPInfo]

    Returns the ISP, whether [err == nil], and the URLs it requested. *)
Definition getIPInfo (w : World) (addr : string) : string * bool * list string :=
  if String.eqb addr "" then ("", true, [])
  else
    let url := "http://ip-api.com/json/" +:+ addr in
    match ip_api w addr with
    | Some info_ISP => (info_ISP, true, [url])
    | None => ("", false, [url])
    end.

(** ** [pingIP] *)

Definition set_egress (r : PingResult) (e p : string) : PingResult :=
  {| ip := ip r; hostname := hostname r; user := user r; os := os r;
     externalIP := e; port := p; pings := pings r; group := group r;
     isp := isp r |}.

Definition set_isp (r : PingResult) (i : string) : PingResult :=
  {| ip := ip r; hostname := hostname r; user := user r; os := os r;
     externalIP := externalIP r; port := port r; pings := pings r;
     group := group r; isp := i |}.

Definition add_ping (r : PingResult) (p : string) : PingResult :=
  {| ip := ip r; hostname := hostname r; user := user r; os := os r;
     externalIP := externalIP r; port := port r; pings := pings r ++ [p];
     group := group r; isp := isp r |}.

Definition set_group (r : PingResult) (g : string) : PingResult :=
  {| ip := ip r; hostname := hostname r; user := user r; os := os r;
     externalIP := externalIP r; port := port r; pings := pings r;
     group := g; isp := isp r |}.

(** The body of the loop over the output lines; the second component
    collects the lookup requests made so far. *)
Definition scanLine (w : World) (st : PingResult * list string) (line : string)
    : PingResult * list string :=
  let '(result, reqs) := st in
  let '(result, reqs) :=
    match publicIPPattern line with
    | Some (m1, m2) =>
        let result := set_egress result m1 m2 in
        match getIPInfo w (externalIP result) with
        | (i, true, q) => (set_isp result i, reqs ++ q)
        | (_, false, q) => (result, reqs ++ q)
        end
    | None => (result, reqs)
    end in
  match pingPattern line with
  | Some m1 => (add_ping result m1, reqs)
  | None => (result, reqs)
  end.

(** [atomic.AddInt32(completed, delta)]. *)
Definition atomic_AddInt32 (completed delta : Z) : Z := wrap32 (completed + delta).

(** One probe executor, as a function of the record it owns and of the
    shared counter: the updated record, the counter after the call, and the
    lookup requests made. *)
Definition pingIP (w : World) (result : PingResult) (completed : Z)
    : PingResult * Z * list string :=
  if supportedOS (GOOS w) then
    match tailscale_ping w (ip result) with
    | None => (result, atomic_AddInt32 completed 1, [])
    | Some output =>
        let lines := Split output "010" in
        let '(result, reqs) := fold_left (scanLine w) lines (result, []) in
        (result, atomic_AddInt32 completed 1, reqs)
    end
  else (result, atomic_AddInt32 completed 1, []).

(** ** The fan-out of [main]

    Every peer gets one goroutine that runs [pingIP] on a pointer to its own
    element of [resultsList]; the goroutines share only the atomic counter.
    A slot is [Pending] until its goroutine has run and [Done] afterwards;
    a step runs any one pending goroutine, so the steps from an initial
    state are the schedules of the fan-out.

    A step is a goroutine that returns.  [World] records what a probe
    command and a lookup answer when they return; the code sets no timeout
    on either, and a goroutine whose command or request never returns is a
    slot that stays [Pending].  Nothing below says that a pending goroutine
    will run: [wg.Wait()] returns in the states where none is pending, and
    only there. *)

Inductive Slot :=
  | Pending (r : PingResult)
  | Done (r : PingResult).

Definition slot_result (s : Slot) : PingResult :=
  match s with Pending r => r | Done r => r end.

Definition is_pending (s : Slot) : bool :=
  match s with Pending _ => true | Done _ => false end.

Record Sched := { slots : list Slot; completed : Z }.

Definition dispatch (resultsList : list PingResult) : Sched :=
  {| slots := map Pending resultsList; completed := 0 |}.

Inductive step (w : World) : Sched -> Sched -> Prop :=
  | step_run (st : Sched) (i : nat) (r : PingResult) :
      slots st !! i = Some (Pending r) ->
      step w st
        {| slots := <[i := Done (pingIP w r (completed st)).1.1]> (slots st);
           completed := (pingIP w r (completed st)).1.2 |}.

Inductive steps (w : World) : Sched -> Sched -> Prop :=
  | steps_refl st : steps w st st
  | steps_cons st1 st2 st3 : step w st1 st2 -> steps w st2 st3 -> steps w st1 st3.

(** [wg.Wait()] returns once no goroutine is pending. *)
Definition all_done (st : Sched) : bool := forallb (fun s => negb (is_pending s)) (slots st).

(** The schedule in dispatch order, as a function. *)
Definition probeAll (w : World) (resultsList : list PingResult) : list PingResult :=
  map (fun r => (pingIP w r 0).1.1) resultsList.

(** ** Grouping *)

(** [string(rune(c))]: the UTF-8 encoding, U+FFFD for an invalid code
    point. *)
Definition byte_string (bs : list Z) : string :=
  fold_right (fun b s => String (ascii_of_N (Z.to_N b)) s) EmptyString bs.

Definition utf8_bytes (c : Z) : list Z :=
  if (c <? 0) || (1114111 <? c) || ((55296 <=? c) && (c <=? 57343))
  then [239; 191; 189]
  else if c <? 128 then [c]
  else if c <? 2048 then [Z.lor 192 (Z.shiftr c 6); Z.lor 128 (Z.land c 63)]
  else if c <? 65536 then
    [Z.lor 224 (Z.shiftr c 12); Z.lor 128 (Z.land (Z.shiftr c 6) 63);
     Z.lor 128 (Z.land c 63)]
  else
    [Z.lor 240 (Z.shiftr c 18); Z.lor 128 (Z.land (Z.shiftr c 12) 63);
     Z.lor 128 (Z.land (Z.shiftr c 6) 63); Z.lor 128 (Z.land c 63)].

Definition string_of_rune (c : Z) : string := byte_string (utf8_bytes c).

(** [%d]. *)
Definition Itoa (n : Z) : string := NilZero.string_of_int (Z.to_int n).

Definition numberToLetterWithCount (n count : Z) : string :=
  if n <=? 0 then ""
  else string_of_rune (wrap32 (wrap64 (65 + wrap64 (n - 1))))
       +:+ " (" +:+ Itoa count +:+ ")".

(** The guard both passes share. *)
Definition grouped (r : PingResult) : bool :=
  negb (String.eqb (externalIP r) "") && isPublicIP (externalIP r).

(** A missing key reads as zero. *)
Definition map_get (m : gmap string Z) (k : string) : Z := default 0 (m !! k).

(** First pass: devices per external IP. *)
Definition countPass (resultsList : list PingResult) : gmap string Z :=
  fold_left
    (fun groupCounts result =>
       if grouped result
       then <[externalIP result := wrap64 (map_get groupCounts (externalIP result) + 1)]> groupCounts
       else groupCounts)
    resultsList ∅.

(** Second pass.  The state is the map, the counter and the elements
    already visited (each element is written once, at its own index). *)
Definition assignStep (groupCounts : gmap string Z)
    (st : gmap string Z * Z * list PingResult) (r : PingResult)
    : gmap string Z * Z * list PingResult :=
  let '(groupMap, groupCounter, visited) := st in
  if negb (grouped r) then (groupMap, groupCounter, visited ++ [r])
  else
    let '(groupMap, groupCounter) :=
      match groupMap !! externalIP r with
      | Some _ => (groupMap, groupCounter)
      | None => (<[externalIP r := groupCounter]> groupMap, wrap64 (groupCounter + 1))
      end in
    let count := map_get groupCounts (externalIP r) in
    (groupMap, groupCounter,
     visited ++ [set_group r (numberToLetterWithCount (map_get groupMap (externalIP r)) count)]).

Definition assignPass (resultsList : list PingResult)
    : gmap string Z * Z * list PingResult :=
  fold_left (assignStep (countPass resultsList)) resultsList (∅, 1, []).

Definition assignGroups (resultsList : list PingResult) : list PingResult :=
  (assignPass resultsList).2.

Definition groupMap_of (resultsList : list PingResult) : gmap string Z :=
  (assignPass resultsList).1.1.

(** ** Ranking *)

(** The comparison handed to [sort.Slice]; Go compares strings byte-wise. *)
Definition less (a b : PingResult) : bool :=
  if negb (String.eqb (group a) (group b)) then String.ltb (group a) (group b)
  else fltb (calculateAverage (pings a)) (calculateAverage (pings b)).

End Tsping.

(** [sort.SliceIsSorted]: no element is less than its predecessor. *)
Fixpoint SliceIsSorted {A} (lt : A -> A -> bool) (l : list A) : bool :=
  match l with
  | a :: (b :: _) as tl => negb (lt b a) && SliceIsSorted lt tl
  | _ => true
  end.

(** What [sort.Slice] needs of its comparison to sort: a strict weak
    ordering. *)
Record StrictWeak {A} (lt : A -> A -> bool) : Prop := {
  sw_irrefl : forall a, lt a a = false;
  sw_trans : forall a b c, lt a b = true -> lt b c = true -> lt a c = true;
  sw_incomp : forall a b c, lt a b = false -> lt b a = false ->
                            lt b c = false -> lt c b = false ->
                            lt a c = false /\ lt c a = false
}.

(** The contract of [sort.Slice]: it only swaps elements, and given a
    strict weak ordering it leaves the slice sorted.  The algorithm itself
    belongs to Go's library and is not fixed here. *)
Definition SortSliceContract (sortSlice : forall A, (A -> A -> bool) -> list A -> list A) : Prop :=
  forall A (lt : A -> A -> bool) (l : list A),
    Permutation l (sortSlice A lt l) /\
    (StrictWeak lt -> SliceIsSorted lt (sortSlice A lt l) = true).

(** The insertion sort that [sort.Slice] runs on short slices: each element
    moves left while it is less than its left neighbour. *)
Fixpoint insertLeft {A} (lt : A -> A -> bool) (sorted_rev : list A) (x : A) : list A :=
  match sorted_rev with
  | [] => [x]
  | y :: rest => if lt x y then y :: insertLeft lt rest x else x :: sorted_rev
  end.

Definition insertionSort (A : Type) (lt : A -> A -> bool) (l : list A) : list A :=
  rev (fold_left (insertLeft lt) l []).

(** ** The directory reader

    [strings.TrimSpace] and [strings.Fields] work on Unicode white space.
    The white-space code points are six ASCII bytes, two two-byte and
    fifteen three-byte UTF-8 sequences; since each of the latter starts with
    a lead byte, scanning for these byte sequences finds the same runes as
    decoding does. *)

Definition asciiSpace (c : ascii) : bool :=
  ((9 <=? byte_of c) && (byte_of c <=? 13)) || (byte_of c =? 32).

(** U+0085 and U+00A0. *)
Definition space2 (a b : ascii) : bool :=
  (byte_of a =? 194) && ((byte_of b =? 133) || (byte_of b =? 160)).

(** U+1680, U+2000..U+200A, U+2028, U+2029, U+202F, U+205F, U+3000. *)
Definition space3 (a b c : ascii) : bool :=
  ((byte_of a =? 225) && (byte_of b =? 154) && (byte_of c =? 128))
  || ((byte_of a =? 226) && (byte_of b =? 128) &&
      (((128 <=? byte_of c) && (byte_of c <=? 138)) || (byte_of c =? 168)
       || (byte_of c =? 169) || (byte_of c =? 175)))
  || ((byte_of a =? 226) && (byte_of b =? 129) && (byte_of c =? 159))
  || ((byte_of a =? 227) && (byte_of b =? 128) && (byte_of c =? 128)).

(** The width in bytes of the white-space rune at the head of [s], or 0. *)
Definition spaceWidth (s : string) : nat :=
  match s with
  | String a r1 =>
      if asciiSpace a then 1%nat
      else match r1 with
           | String b r2 =>
               if space2 a b then 2%nat
               else match r2 with
                    | String c _ => if space3 a b c then 3%nat else 0%nat
                    | EmptyString => 0%nat
                    end
           | EmptyString => 0%nat
           end
  | EmptyString => 0%nat
  end.

Fixpoint trimLeft (s : string) : string :=
  match s with
  | String a r1 =>
      if asciiSpace a then trimLeft r1
      else match r1 with
           | String b r2 =>
               if space2 a b then trimLeft r2
               else match r2 with
                    | String c r3 => if space3 a b c then trimLeft r3 else s
                    | EmptyString => s
                    end
           | EmptyString => s
           end
  | EmptyString => s
  end.

(** The same from the right end, on the reversed string. *)
Fixpoint trimLeftRev (s : string) : string :=
  match s with
  | String a r1 =>
      if asciiSpace a then trimLeftRev r1
      else match r1 with
           | String b r2 =>
               if space2 b a then trimLeftRev r2
               else match r2 with
                    | String c r3 => if space3 c b a then trimLeftRev r3 else s
                    | EmptyString => s
                    end
           | EmptyString => s
           end
  | EmptyString => s
  end.

Definition trimRight (s : string) : string := String.rev (trimLeftRev (String.rev s)).

Definition TrimSpace (s : string) : string := trimRight (trimLeft s).

Definition flushField (cur : string) : list string :=
  match cur with EmptyString => [] | _ => [cur] end.

(** [strings.Fields]: the maximal runs of bytes outside white space.
    [skip] counts the bytes of a white-space rune still to pass over. *)
Fixpoint Fields_go (s : string) (skip : nat) (cur : string) : list string :=
  match s with
  | EmptyString => flushField cur
  | String c rest =>
      match skip with
      | S k => Fields_go rest k cur
      | O =>
          match spaceWidth s with
          | O => Fields_go rest O (cur +:+ String c EmptyString)
          | S k => flushField cur ++ Fields_go rest k EmptyString
          end
      end
  end.

Definition Fields (s : string) : list string := Fields_go s O EmptyString.

(** The tokens of a [bufio.Scanner] with the default line splitter: the
    pieces between newlines, without a final empty piece, each without one
    trailing carriage return, up to the first line that does not fit the
    scanner's buffer. *)
Definition dropCR (s : string) : string :=
  match String.rev s with
  | String c r => if Ascii.eqb c "013" then String.rev r else s
  | EmptyString => s
  end.

Fixpoint dropLastEmpty (pieces : list string) : list string :=
  match pieces with
  | [] => []
  | [p] => if String.eqb p "" then [] else [p]
  | p :: rest => p :: dropLastEmpty rest
  end.

(** [bufio.MaxScanTokenSize]: the scanner's buffer does not grow beyond
    64 KiB.  A line must fit in it together with its newline, and a last
    line without newline must leave the buffer short of full; so a line of
    65536 bytes or more ends the scan with [ErrTooLong].  The readers never
    look at [scanner.Err()]: that line and every later one are lost. *)
Definition maxScanTokenSize : Z := 65536.

Fixpoint scannable (pieces : list string) : list string :=
  match pieces with
  | [] => []
  | p :: rest =>
      if Z.of_nat (String.length p) <? maxScanTokenSize then p :: scannable rest
      else []
  end.

Definition scanLines (output : string) : list string :=
  map dropCR (scannable (dropLastEmpty (Split output "010"))).

(** The body of the scanning loop: the record a line contributes, if any. *)
Definition statusLine (text : string) : option PingResult :=
  let line := TrimSpace text in
  if String.eqb line "" || HasPrefix line "#" || Contains line "Self" then None
  else
    let fields := Fields line in
    if (length fields <? 4)%nat then None
    else
      let status := Join (skipn 4 fields) " " in
      if Contains status "offline" then None
      else Some {| ip := nth 0 fields ""; hostname := nth 1 fields "";
                   user := nth 2 fields ""; os := nth 3 fields "";
                   externalIP := ""; port := ""; pings := []; group := "";
                   isp := "" |}.

Definition scanStatus (output : string) : list PingResult :=
  fold_left
    (fun results text =>
       match statusLine text with
       | Some result => results ++ [result]
       | None => results
       end)
    (scanLines output) [].

(** [getTailscaleStatus]; [None] is the error return. *)
Definition getTailscaleStatus (w : World) : option (list PingResult) :=
  if supportedOS (GOOS w) then
    match tailscale_status w with
    | Some output => Some (scanStatus output)
    | None => None
    end
  else None.

(** [checkTailscale]: whether it returns nil. *)
Definition checkTailscale (w : World) : bool :=
  supportedOS (GOOS w) && tailscale_version w.

(** ** [main] *)

Inductive Outcome :=
  | Fatal (msg : string)
  | NoPeers
  | Report (rows : list PingResult).

Section Main.

Variable parseIPv6 : string -> option Z.
Variable sortSlice : forall A, (A -> A -> bool) -> list A -> list A.

(** Grouping and ranking of the probed list. *)
Definition rank (resultsList : list PingResult) : list PingResult :=
  sortSlice PingResult less (assignGroups parseIPv6 resultsList).

Definition main (w : World) : Outcome :=
  if negb (checkTailscale w) then Fatal "Error"
  else
    match getTailscaleStatus w with
    | None => Fatal "Error getting Tailscale status"
    | Some resultsList =>
        if Nat.eqb (length resultsList) 0 then NoPeers
        else Report (rank (probeAll w resultsList))
    end.

End Main.

(** ** The iteration with a result channel and a global timeout

    [src/unnamed/part_001]: executors send their outcome on a buffered
    channel, one collector goroutine appends what arrives to [resultsList],
    and [main] waits in a [select] for the collector's signal or for a
    ten-second timer, whichever comes first. *)

Module Collector.

Record PingResult := {
  host : string;
  externalIP : string;
  port : string;
  pings : list string
}.

(** This iteration adds every sample, whatever [Atoi] reports, and divides
    without looking at the length. *)
Definition calculateAverage (pings : list string) : float64 :=
  let sum := fold_left (fun sum p => wrap64 (sum + (Atoi p).1)) pings 0 in
  fdiv (float64_of_int sum) (float64_of_int (Z.of_nat (length pings))).

Definition less (a b : PingResult) : bool :=
  fltb (calculateAverage (pings a)) (calculateAverage (pings b)).

(** [via (\d+\.\d+\.\d+\.\d+):(\d+) in (\d+)ms] anchored at the head. *)
Definition publicIPPatternAt (s : string) : option (string * string) :=
  match expect "via " s with
  | None => None
  | Some s0 =>
      match digits1 s0 with
      | None => None
      | Some (a, s1) =>
      match expect "." s1 with
      | None => None
      | Some s1 =>
      match digits1 s1 with
      | None => None
      | Some (b, s2) =>
      match expect "." s2 with
      | None => None
      | Some s2 =>
      match digits1 s2 with
      | None => None
      | Some (c, s3) =>
      match expect "." s3 with
      | None => None
      | Some s3 =>
      match digits1 s3 with
      | None => None
      | Some (d, s4) =>
      match expect ":" s4 with
      | None => None
      | Some s4 =>
      match digits1 s4 with
      | None => None
      | Some (prt, s5) =>
      match expect " in " s5 with
      | None => None
      | Some s5 =>
      match digits1 s5 with
      | None => None
      | Some (_, s6) =>
      match expect "ms" s6 with
      | None => None
      | Some _ => Some (a +:+ "." +:+ b +:+ "." +:+ c +:+ "." +:+ d, prt)
      end end end end end end end end end end end end
  end.

Definition publicIPPattern : string -> option (string * string) :=
  findFirst publicIPPatternAt.

Definition scanLine (result : PingResult) (line : string) : PingResult :=
  let result :=
    match publicIPPattern line with
    | Some (m1, m2) =>
        {| host := host result; externalIP := m1; port := m2; pings := pings result |}
    | None => result
    end in
  match pingPattern line with
  | Some m1 =>
      {| host := host result; externalIP := externalIP result;
         port := port result; pings := pings result ++ [m1] |}
  | None => result
  end.

(** [getTailscaleIPs].  A line without "offline" whose first field contains
    a dot contributes its second field; the index expression [fields[1]] is
    evaluated whenever the first field passes the test, so a line with that
    single field panics.  On an unsupported platform [cmd] stays nil and
    [cmd.Output()] dereferences it. *)
Inductive Listing :=
  | Panics
  | StatusError
  | Listed (ips : list string).

(** What a line appends; [None] is the index-out-of-range panic. *)
Definition listedLine (line : string) : option (list string) :=
  if Contains line "offline" then Some []
  else
    match Fields line with
    | [] => Some []
    | f0 :: rest =>
        if Contains f0 "." then
          match rest with
          | f1 :: _ => Some [f1]
          | [] => None
          end
        else Some []
    end.

Definition listLines (lines : list string) : option (list string) :=
  fold_left
    (fun ips line =>
       match ips with
       | None => None
       | Some ips =>
           match listedLine line with
           | Some more => Some (ips ++ more)
           | None => None
           end
       end)
    lines (Some []).

Definition getTailscaleIPs (w : World) : Listing :=
  if supportedOS (GOOS w) then
    match tailscale_status w with
    | None => StatusError
    | Some output =>
        match listLines (scanLines output) with
        | Some ips => Listed ips
        | None => Panics
        end
    end
  else Panics.

(** How an executor ends: it sends an outcome, returns without one, or
    dereferences the nil command of an unsupported platform. *)
Inductive Exit :=
  | Sent (r : PingResult)
  | Failed
  | Crashed.

(** [pingIP]: how it ends, and the counter afterwards. *)
Definition pingIP (w : World) (addr : string) (completed : Z) : Exit * Z :=
  if supportedOS (GOOS w) then
    match tailscale_ping w addr with
    | None => (Failed, atomic_AddInt32 completed 1)
    | Some output =>
        let result := {| host := addr; externalIP := ""; port := ""; pings := [] |} in
        let result := fold_left scanLine (Split output "010") result in
        let result :=
          if String.eqb (externalIP result) ""
          then {| host := host result; externalIP := "N/A"; port := port result;
                  pings := pings result |}
          else result in
        let result :=
          if String.eqb (port result) ""
          then {| host := host result; externalIP := externalIP result;
                  port := "N/A"; pings := pings result |}
          else result in
        (Sent result, atomic_AddInt32 completed 1)
    end
  else (Crashed, completed).

(** Where an executor stands: it has not reached the counter yet, it has
    counted itself and holds the outcome it is about to send, or it has
    returned (and its deferred [wg.Done] has run). *)
Inductive Exec :=
  | Running
  | Sending (r : PingResult)
  | Returned.

(** The state of the run between the start of the goroutines and the
    decision of the [select]: where each executor stands, the content of
    the buffered channel, what the collector has appended, the counter,
    whether the channel is closed, whether the collector stands ready to
    signal, and whether a goroutine has panicked. *)
Record State := {
  execs : list Exec;
  chan : list PingResult;
  resultsList : list PingResult;
  completed : Z;
  closed : bool;
  resultsDone : bool;
  crashed : bool
}.

Definition start (ips : list string) : State :=
  {| execs := map (fun _ => Running) ips; chan := []; resultsList := [];
     completed := 0; closed := false; resultsDone := false; crashed := false |}.

(** An executor has run up to and including its [atomic.AddInt32]. *)
Definition counted (st : State) (ex : Exit * Z) (i : nat) : State :=
  match ex with
  | (Sent r, c) =>
      {| execs := <[i := Sending r]> (execs st); chan := chan st;
         resultsList := resultsList st; completed := c; closed := closed st;
         resultsDone := resultsDone st; crashed := crashed st |}
  | (Failed, c) =>
      {| execs := <[i := Returned]> (execs st); chan := chan st;
         resultsList := resultsList st; completed := c; closed := closed st;
         resultsDone := resultsDone st; crashed := crashed st |}
  | (Crashed, c) =>
      {| execs := execs st; chan := chan st; resultsList := resultsList st;
         completed := c; closed := closed st; resultsDone := resultsDone st;
         crashed := true |}
  end.

Definition isReturned (e : Exec) : bool :=
  match e with Returned => true | _ => false end.

(** The moves of the goroutines.  The channel has room for one outcome per
    executor, so a send never waits; [wg.Wait] returns once every executor
    has returned; the collector leaves its loop when the channel is closed
    and drained. *)
Inductive step (w : World) (ips : list string) : State -> State -> Prop :=
  | executor_counts st i addr :
      crashed st = false ->
      execs st !! i = Some Running -> ips !! i = Some addr ->
      step w ips st (counted st (pingIP w addr (completed st)) i)
  | executor_sends st i r :
      crashed st = false ->
      execs st !! i = Some (Sending r) ->
      step w ips st
        {| execs := <[i := Returned]> (execs st); chan := chan st ++ [r];
           resultsList := resultsList st; completed := completed st;
           closed := closed st; resultsDone := resultsDone st;
           crashed := crashed st |}
  | collector_receives st r q :
      crashed st = false ->
      chan st = r :: q ->
      step w ips st
        {| execs := execs st; chan := q; resultsList := resultsList st ++ [r];
           completed := completed st; closed := closed st;
           resultsDone := resultsDone st; crashed := crashed st |}
  | waiter_closes st :
      crashed st = false ->
      forallb isReturned (execs st) = true -> closed st = false ->
      step w ips st
        {| execs := execs st; chan := chan st; resultsList := resultsList st;
           completed := completed st; closed := true;
           resultsDone := resultsDone st; crashed := crashed st |}
  | collector_signals st :
      crashed st = false ->
      closed st = true -> chan st = [] ->
      step w ips st
        {| execs := execs st; chan := chan st; resultsList := resultsList st;
           completed := completed st; closed := closed st;
           resultsDone := true; crashed := crashed st |}.

Inductive reachable (w : World) (ips : list string) : State -> Prop :=
  | reach_start : reachable w ips (start ips)
  | reach_step st st' : reachable w ips st -> step w ips st st' -> reachable w ips st'.

(** The same moves as a function, for running a given schedule. *)
Inductive Move :=
  | Count (i : nat)
  | Send (i : nat)
  | Receive
  | Close
  | Signal.

Definition move (w : World) (ips : list string) (st : State) (m : Move) : option State :=
  if crashed st then None
  else
    match m with
    | Count i =>
        match execs st !! i, ips !! i with
        | Some Running, Some addr => Some (counted st (pingIP w addr (completed st)) i)
        | _, _ => None
        end
    | Send i =>
        match execs st !! i with
        | Some (Sending r) =>
            Some {| execs := <[i := Returned]> (execs st); chan := chan st ++ [r];
                    resultsList := resultsList st; completed := completed st;
                    closed := closed st; resultsDone := resultsDone st;
                    crashed := crashed st |}
        | _ => None
        end
    | Receive =>
        match chan st with
        | r :: q =>
            Some {| execs := execs st; chan := q; resultsList := resultsList st ++ [r];
                    completed := completed st; closed := closed st;
                    resultsDone := resultsDone st; crashed := crashed st |}
        | [] => None
        end
    | Close =>
        if forallb isReturned (execs st) && negb (closed st)
        then Some {| execs := execs st; chan := chan st; resultsList := resultsList st;
                     completed := completed st; closed := true;
                     resultsDone := resultsDone st; crashed := crashed st |}
        else None
    | Signal =>
        match closed st, chan st with
        | true, [] =>
            Some {| execs := execs st; chan := chan st; resultsList := resultsList st;
                    completed := completed st; closed := closed st;
                    resultsDone := true; crashed := crashed st |}
        | _, _ => None
        end
    end.

Fixpoint moves (w : World) (ips : list string) (st : State) (ms : list Move) : option State :=
  match ms with
  | [] => Some st
  | m :: ms =>
      match move w ips st m with
      | Some st' => moves w ips st' ms
      | None => None
      end
  end.

(** The states the goroutines can lead to from a given one. *)
Inductive later (w : World) (ips : list string) : State -> State -> Prop :=
  | later_now st : later w ips st st
  | later_step st1 st2 st3 :
      step w ips st1 st2 -> later w ips st2 st3 -> later w ips st1 st3.

(** What [main] prints at the [select] and the table it goes on to render. *)
Record Summary := {
  timed_out : bool;
  collected : Z;
  total : Z;
  message : string;
  rows : list PingResult
}.

Section Select.

Variable sortSlice : forall A, (A -> A -> bool) -> list A -> list A.

(** The timer case.  The counter is loaded when the line is printed, in the
    state [st] of the [select].  The slice is sorted and rendered
    afterwards, and nothing stops the executors and the collector in
    between: the rows are those of a later state [st'].  ([main] reads
    [resultsList] without synchronisation; the read is taken as one
    snapshot.) *)
Definition after_timeout (ips : list string) (st st' : State) : Summary :=
  {| timed_out := true;
     collected := completed st;
     total := wrap32 (Z.of_nat (length ips));
     message := "Timeout reached. Collected " +:+ Itoa (completed st) +:+ "/"
                +:+ Itoa (wrap32 (Z.of_nat (length ips))) +:+ " results.";
     rows := sortSlice PingResult less (resultsList st') |}.

(** The collector's case.  The collector has left its loop, so the slice is
    final. *)
Definition after_done (ips : list string) (st : State) : Summary :=
  {| timed_out := false;
     collected := completed st;
     total := wrap32 (Z.of_nat (length ips));
     message := "All results collected successfully.";
     rows := sortSlice PingResult less (resultsList st) |}.

(** The [select]: the timer may fire in any state; the other case needs the
    collector's signal. *)
Inductive decides (w : World) (ips : list string) (st : State) : Summary -> Prop :=
  | select_timeout st' :
      crashed st = false -> later w ips st st' -> crashed st' = false ->
      decides w ips st (after_timeout ips st st')
  | select_resultsDone :
      crashed st = false -> resultsDone st = true ->
      decides w ips st (after_done ips st).

End Select.

End Collector.

(** ** The first iteration

    The second program of [src/main.go]: its reader takes the second field
    of a status line, and only when that field contains a dot.  Any platform
    but Windows runs the plain [tailscale] command, so no command is nil. *)

Module First.

(** What a line appends to [ips]. *)
Definition listedLine (line : string) : list string :=
  if Contains line "offline" then []
  else
    match Fields line with
    | _ :: f1 :: _ => if Contains f1 "." then [f1] else []
    | _ => []
    end.

(** [getTailscaleIPs]; [None] is the error return. *)
Definition getTailscaleIPs (w : World) : option (list string) :=
  match tailscale_status w with
  | None => None
  | Some output =>
      Some (fold_left (fun ips line => ips ++ listedLine line) (scanLines output) [])
  end.

End First.

(** ** The iteration with numbered groups

    [src/unnamed/part_000] is [src/main.go] without the ISP lookup and the
    labels: a peer's group is the integer from [groupMap] itself, and a
    peer outside every group keeps the zero value. *)

Module Numbered.

Record PingResult := {
  ip : string;
  hostname : string;
  user : string;
  os : string;
  externalIP : string;
  port : string;
  pings : list string;
  group : Z
}.

Definition set_group (r : PingResult) (g : Z) : PingResult :=
  {| ip := ip r; hostname := hostname r; user := user r; os := os r;
     externalIP := externalIP r; port := port r; pings := pings r; group := g |}.

Section Grouping.

Variable parseIPv6 : string -> option Z.

(** The guard of the loop. *)
Definition grouped (r : PingResult) : bool :=
  negb (String.eqb (externalIP r) "") && isPublicIP parseIPv6 (externalIP r).

(** The body of the loop.  The state is the map, the counter and the
    elements already visited (each element is written once, at its own
    index). *)
Definition assignStep (st : gmap string Z * Z * list PingResult) (r : PingResult)
    : gmap string Z * Z * list PingResult :=
  let '(groupMap, groupCounter, visited) := st in
  if negb (grouped r) then (groupMap, groupCounter, visited ++ [r])
  else
    let '(groupMap, groupCounter) :=
      match groupMap !! externalIP r with
      | Some _ => (groupMap, groupCounter)
      | None => (<[externalIP r := groupCounter]> groupMap, wrap64 (groupCounter + 1))
      end in
    (groupMap, groupCounter, visited ++ [set_group r (map_get groupMap (externalIP r))]).

Definition assignPass (resultsList : list PingResult)
    : gmap string Z * Z * list PingResult :=
  fold_left assignStep resultsList (∅, 1, []).

Definition assignGroups (resultsList : list PingResult) : list PingResult :=
  (assignPass resultsList).2.

End Grouping.

End Numbered.

(** The instance of the IPv6 parameter used in concrete runs: their
    addresses are all dotted-decimal. *)
Definition noIPv6 : string -> option Z := fun _ => None.

(** * Classification of addresses *)

(** The reserved ranges of the specification: network number and prefix
    length. *)
Definition reservedRanges : list (Z * Z) :=
  [(10 * 2 ^ 24, 8); (127 * 2 ^ 24, 8); (172 * 2 ^ 24 + 16 * 2 ^ 16, 12);
   (192 * 2 ^ 24 + 168 * 2 ^ 16, 16); (169 * 2 ^ 24 + 254 * 2 ^ 16, 16);
   (100 * 2 ^ 24 + 64 * 2 ^ 16, 10)].

(** The 32-bit number of a four-byte address. *)
Definition addr32 (b4 : list Z) : Z := fold_left (fun acc x => acc * 256 + x) b4 0.

(** An address lies in a range when it is an IPv4 (or IPv4-mapped) address
    whose leading [bits] bits are those of the network number. *)
Definition in_range (ip : list Z) (r : Z * Z) : Prop :=
  exists b4, To4 ip = Some b4 /\ addr32 b4 / 2 ^ (32 - r.2) = r.1 / 2 ^ (32 - r.2).

Definition is_byte (b : Z) : Prop := 0 <= b < 256.

Section NetFacts.

Variable parseIPv6 : string -> option Z.

Lemma isDigit_digitVal c : isDigit c = true -> 0 <= digitVal c <= 9.
Proof. unfold isDigit, digitVal. lia. Qed.

Lemma parseIPv4Fields_wf s : forall prev fields val digLen out,
  (length fields <= 3)%nat -> Forall is_byte fields -> is_byte val ->
  parseIPv4Fields s prev fields val digLen = Some out ->
  length out = 4%nat /\ Forall is_byte out.
Proof.
  induction s as [|c rest IH]; intros prev fields val digLen out Hlen Hf Hv; simpl.
  - destruct (Z.ltb_spec (Z.of_nat (length fields)) 3); [discriminate|].
    intros [= <-]. rewrite length_app. simpl. split; [lia|].
    apply Forall_app. split; [done|]. by constructor.
  - destruct (isDigit c) eqn:Hd.
    + destruct ((digLen =? 1) && (val =? 0)); [discriminate|].
      destruct (Z.ltb_spec 255 (val * 10 + digitVal c)); [discriminate|].
      apply IH; try done. apply isDigit_digitVal in Hd. unfold is_byte in *. lia.
    + destruct (Ascii.eqb c "."); [|discriminate].
      destruct prev as [p|]; [|discriminate].
      destruct rest as [|c' rest']; [discriminate|].
      destruct (Ascii.eqb p "."); [discriminate|].
      destruct (Z.eqb_spec (Z.of_nat (length fields)) 3); [discriminate|].
      apply IH.
      * rewrite length_app. simpl. lia.
      * apply Forall_app. split; [done|]. by constructor.
      * unfold is_byte. lia.
Qed.

Lemma bytes16_wf n : length (bytes16 n) = 16%nat /\ Forall is_byte (bytes16 n).
Proof.
  unfold bytes16. split; [by rewrite length_map, length_seq|].
  apply Forall_forall. intros b Hb. apply list_elem_of_In, in_map_iff in Hb as (i & <- & _).
  unfold is_byte. apply Z.mod_pos_bound. lia.
Qed.

Lemma ParseIP_wf s ip :
  ParseIP parseIPv6 s = Some ip -> length ip = 16%nat /\ Forall is_byte ip.
Proof.
  unfold ParseIP. generalize s at 1. intros whole. induction s as [|c rest IH]; simpl; [discriminate|].
  destruct (Ascii.eqb c ".").
  { unfold parseIPv4. destruct (parseIPv4Fields whole None [] 0 0) as [f|] eqn:E; [|discriminate].
    intros [= <-]. apply parseIPv4Fields_wf in E as [Hl Hf]; [| simpl; lia | constructor | unfold is_byte; lia].
    simpl. rewrite Hl. split; [reflexivity|].
    repeat (constructor; [unfold is_byte; lia|]). done. }
  destruct (Ascii.eqb c ":").
  { destruct (parseIPv6 whole); [|discriminate]. intros [= <-]. apply bytes16_wf. }
  destruct (Ascii.eqb c "%"); [discriminate|]. exact IH.
Qed.


(** The six blocks as [ParseCIDR] returns them. *)
Definition privateNets : list IPNet :=
  [ {| net_IP := [10; 0; 0; 0]; net_Mask := [255; 0; 0; 0] |};
    {| net_IP := [127; 0; 0; 0]; net_Mask := [255; 0; 0; 0] |};
    {| net_IP := [172; 16; 0; 0]; net_Mask := [255; 240; 0; 0] |};
    {| net_IP := [192; 168; 0; 0]; net_Mask := [255; 255; 0; 0] |};
    {| net_IP := [169; 254; 0; 0]; net_Mask := [255; 255; 0; 0] |};
    {| net_IP := [100; 64; 0; 0]; net_Mask := [255; 192; 0; 0] |} ].

(** No block fails to parse, so the nil dereference is never reached. *)
Lemma privateBlocks_parse :
  map (ParseCIDR parseIPv6) privateBlocks = map Some privateNets.
Proof. vm_compute. reflexivity. Qed.

Lemma isPublicIP_loop_nets blocks : forall nets ip,
  map (ParseCIDR parseIPv6) blocks = map Some nets ->
  isPublicIP_loop parseIPv6 blocks ip =
  Some (negb (existsb (fun n => IPNet_Contains n ip) nets)).
Proof.
  induction blocks as [|cidr rest IH]; intros [|n nets] ip; simpl; try discriminate.
  - reflexivity.
  - intros [= Hc Hr]. rewrite Hc. destruct (IPNet_Contains n ip); [reflexivity|].
    simpl. by apply IH.
Qed.

Lemma isPublicIP_unfold s :
  isPublicIP parseIPv6 s =
  match ParseIP parseIPv6 s with
  | Some ip => negb (existsb (fun n => IPNet_Contains n ip) privateNets)
  | None => false
  end.
Proof.
  unfold isPublicIP. destruct (ParseIP parseIPv6 s) as [ip|]; [|reflexivity].
  by rewrite (isPublicIP_loop_nets _ _ _ privateBlocks_parse).
Qed.

End NetFacts.

Lemma byte_cases (P : Z -> bool) :
  forallb P (map Z.of_nat (seq 0 256)) = true ->
  forall b, is_byte b -> P b = true.
Proof.
  intros H b Hb. rewrite forallb_forall in H. apply H.
  apply in_map_iff. exists (Z.to_nat b). split; [unfold is_byte in Hb; lia|].
  apply in_seq. unfold is_byte in Hb. lia.
Qed.

Lemma byte_masks b : is_byte b ->
  Z.land b 255 = b /\ Z.land b 240 = 16 * (b / 16) /\
  Z.land b 192 = 64 * (b / 64) /\ Z.land b 0 = 0.
Proof.
  intros Hb.
  pose proof (byte_cases
    (fun b => (Z.land b 255 =? b) && (Z.land b 240 =? 16 * (b / 16)) &&
              (Z.land b 192 =? 64 * (b / 64)) && (Z.land b 0 =? 0))
    eq_refl b Hb) as H.
  simpl in H. lia.
Qed.

Lemma To4_cases ip :
  length ip = 16%nat -> Forall is_byte ip ->
  To4 ip = None \/
  exists a b c d, To4 ip = Some [a; b; c; d] /\
                  is_byte a /\ is_byte b /\ is_byte c /\ is_byte d.
Proof.
  intros Hl Hf. unfold To4. rewrite Hl. simpl.
  match goal with |- context [if ?c then Some (skipn _ _) else _] => destruct c end;
    [|by left]. right.
  do 16 (destruct ip as [|? ip]; [discriminate|]). destruct ip; [|discriminate].
  simpl. do 12 (apply Forall_cons in Hf as [_ Hf]).
  repeat (apply Forall_cons in Hf as [? Hf]). eauto 10.
Qed.

(** On a parsed address, [Contains] of an IPv4 network is the mask
    comparison on the four-byte form. *)
Lemma Contains_v4 n0 n1 n2 n3 m ip :
  length m = 4%nat -> length ip = 16%nat ->
  IPNet_Contains {| net_IP := [n0; n1; n2; n3]; net_Mask := m |} ip =
  match To4 ip with
  | Some b4 => sameNetwork [n0; n1; n2; n3] m b4
  | None => false
  end.
Proof.
  intros Hm Hl. unfold IPNet_Contains, networkNumberAndMask. simpl. rewrite Hm. simpl.
  unfold To4. rewrite Hl. simpl.
  match goal with |- context [if ?c then Some (skipn _ _) else _] => destruct c end.
  - rewrite length_skipn, Hl. reflexivity.
  - rewrite Hl. reflexivity.
Qed.

Definition in_rangeb (b4 : list Z) (r : Z * Z) : bool :=
  addr32 b4 / 2 ^ (32 - r.2) =? r.1 / 2 ^ (32 - r.2).

Lemma sameNetwork_ranges a b c d :
  is_byte a -> is_byte b -> is_byte c -> is_byte d ->
  map (fun n => sameNetwork (net_IP n) (net_Mask n) [a; b; c; d]) privateNets =
  map (in_rangeb [a; b; c; d]) reservedRanges.
Proof.
  intros Ha Hb Hc Hd.
  destruct (byte_masks a Ha) as (Ea & _ & _ & Za).
  destruct (byte_masks b Hb) as (Eb & Eb16 & Eb64 & Zb).
  destruct (byte_masks c Hc) as (_ & _ & _ & Zc).
  destruct (byte_masks d Hd) as (_ & _ & _ & Zd).
  unfold privateNets, reservedRanges, in_rangeb, addr32.
  cbn [map sameNetwork net_IP net_Mask fold_left fst snd].
  rewrite ?Ea, ?Eb, ?Eb16, ?Eb64, ?Za, ?Zb, ?Zc, ?Zd.
  repeat match goal with
         | |- context [Z.land ?x ?y] =>
             let v := eval vm_compute in (Z.land x y) in
             change (Z.land x y) with v
         end.
  rewrite !Z.eqb_refl. cbn [negb].
  unfold is_byte in *.
  repeat match goal with
         | |- context [Z.div ?x (2 ^ ?k)] =>
             let v := eval vm_compute in (2 ^ k) in change (2 ^ k) with v
         end.
  repeat match goal with
         | |- context [_ =? ?x / ?y] =>
             let v := eval vm_compute in (x / y) in change (x / y) with v
         end.
  repeat f_equal;
    repeat match goal with |- context [negb (?x =? ?y)] => destruct (Z.eqb_spec x y) end;
    cbn [negb]; symmetry;
    solve [ apply Z.eqb_eq; Z.div_mod_to_equations; lia
          | apply Z.eqb_neq; Z.div_mod_to_equations; lia ].
Qed.

Lemma existsb_via_map {A B} (f : A -> bool) (g : B -> bool) l1 l2 :
  map f l1 = map g l2 -> existsb f l1 = existsb g l2.
Proof.
  revert l2. induction l1 as [|x l1 IH]; intros [|y l2]; simpl; try discriminate; [done|].
  intros [= -> H]. f_equal. by apply IH.
Qed.

Lemma Contains_privateNets ip :
  length ip = 16%nat -> Forall is_byte ip ->
  existsb (fun n => IPNet_Contains n ip) privateNets = true <->
  exists r, In r reservedRanges /\ in_range ip r.
Proof.
  intros Hl Hf.
  assert (Hc : existsb (fun n => IPNet_Contains n ip) privateNets =
               match To4 ip with
               | Some b4 => existsb (fun n => sameNetwork (net_IP n) (net_Mask n) b4) privateNets
               | None => false
               end).
  { unfold privateNets. cbn [existsb]. rewrite !Contains_v4 by done.
    cbn [net_IP net_Mask]. destruct (To4 ip); reflexivity. }
  rewrite Hc. destruct (To4_cases ip Hl Hf) as [E | (a & b & c & d & E & Ha & Hb & Hcc & Hd)];
    rewrite E.
  - split; [discriminate|]. intros (r & _ & b4 & Hb4 & _). rewrite E in Hb4. discriminate.
  - rewrite (existsb_via_map _ _ _ _ (sameNetwork_ranges a b c d Ha Hb Hcc Hd)).
    rewrite existsb_exists. split.
    + intros (r & Hr & Hin). exists r. split; [done|]. exists [a; b; c; d]. split; [done|].
      by apply Z.eqb_eq.
    + intros (r & Hr & b4 & Hb4 & Hin). exists r. split; [done|].
      rewrite E in Hb4. injection Hb4 as <-. by apply Z.eqb_eq.
Qed.

(** C3.  An address string is classified public exactly when it parses as an
    address that lies in none of 10/8, 127/8, 172.16/12, 192.168/16,
    169.254/16 and 100.64/10; 10.1.2.3, 192.168.0.5 and 100.72.0.1 are
    private, 203.0.113.5 and 8.8.8.8 are public. *)
Theorem isPublicIP_classification (parseIPv6 : string -> option Z) :
  (forall s,
     isPublicIP parseIPv6 s = true <->
     exists ip, ParseIP parseIPv6 s = Some ip /\
                forall r, In r reservedRanges -> ~ in_range ip r) /\
  isPublicIP parseIPv6 "10.1.2.3" = false /\
  isPublicIP parseIPv6 "192.168.0.5" = false /\
  isPublicIP parseIPv6 "100.72.0.1" = false /\
  isPublicIP parseIPv6 "203.0.113.5" = true /\
  isPublicIP parseIPv6 "8.8.8.8" = true.
Proof.
  split; [|by vm_compute].
  intros s. rewrite isPublicIP_unfold.
  destruct (ParseIP parseIPv6 s) as [ip|] eqn:E.
  - destruct (ParseIP_wf _ _ _ E) as [Hl Hf].
    pose proof (Contains_privateNets ip Hl Hf) as Hc.
    destruct (existsb _ privateNets); simpl; split.
    + discriminate.
    + intros (ip' & [= <-] & Hno). destruct Hc as [Hc _].
      destruct (Hc eq_refl) as (r & Hr & Hin). destruct (Hno r Hr Hin).
    + intros _. exists ip. split; [done|]. intros r Hr Hin.
      destruct Hc as [_ Hc]. assert (false = true) by (apply Hc; exists r; split; assumption). discriminate.
    + done.
  - split; [discriminate|]. intros (ip & Hip & _). discriminate.
Qed.

(** * The mean latency *)

(** The samples that parse, in order. *)
Fixpoint parsedSamples (pings : list string) : list Z :=
  match pings with
  | [] => []
  | p :: rest =>
      match Atoi p with
      | (v, true) => v :: parsedSamples rest
      | (_, false) => parsedSamples rest
      end
  end.

Definition sumZ (vs : list Z) : Z := fold_right Z.add 0 vs.

(** The mean as the specification words it: the arithmetic mean of the
    samples that parse, and 0 for an empty sample list. *)
Definition specMean (pings : list string) : float64 :=
  if Nat.eqb (length pings) 0 then S754_zero false
  else fdiv (float64_of_int (sumZ (parsedSamples pings)))
            (float64_of_int (Z.of_nat (length (parsedSamples pings)))).

Lemma wrap64_add_l a b : wrap64 (wrap64 a + b) = wrap64 (a + b).
Proof.
  unfold wrap64.
  replace ((a + 2 ^ 63) mod 2 ^ 64 - 2 ^ 63 + b + 2 ^ 63)
    with ((a + 2 ^ 63) mod 2 ^ 64 + b) by lia.
  rewrite Zplus_mod_idemp_l. f_equal. f_equal. lia.
Qed.

Lemma wrap64_small z : - 2 ^ 63 <= z < 2 ^ 63 -> wrap64 z = z.
Proof. intros H. unfold wrap64. rewrite Z.mod_small; lia. Qed.

Lemma sum_loop pings : forall acc,
  fold_left addSample pings (wrap64 acc) = wrap64 (acc + sumZ (parsedSamples pings)).
Proof.
  induction pings as [|p pings IH]; intros acc; simpl.
  - f_equal. lia.
  - unfold addSample at 2.
    destruct (Atoi p) as [v [|]]; simpl.
    + rewrite wrap64_add_l, IH. f_equal. lia.
    + apply IH.
Qed.

(** What [calculateAverage] computes, for every sample list. *)
Lemma calculateAverage_value pings :
  calculateAverage pings =
  if Nat.eqb (length pings) 0 then S754_zero false
  else fdiv (float64_of_int (wrap64 (sumZ (parsedSamples pings))))
            (float64_of_int (Z.of_nat (length pings))).
Proof.
  unfold calculateAverage. change 0 with (wrap64 0) at 1. by rewrite sum_loop.
Qed.

Lemma parsedSamples_all pings :
  Forall (fun p => (Atoi p).2 = true) pings ->
  length (parsedSamples pings) = length pings.
Proof.
  induction 1 as [|p pings Hp _ IH]; [reflexivity|].
  simpl. destruct (Atoi p) as [v ok]. simpl in Hp. subst ok.
  simpl. by rewrite IH.
Qed.

(** Where every sample parses and the sum fits an [int], the code computes
    the specified mean. *)
Lemma calculateAverage_specMean pings :
  Forall (fun p => (Atoi p).2 = true) pings ->
  - 2 ^ 63 <= sumZ (parsedSamples pings) < 2 ^ 63 ->
  calculateAverage pings = specMean pings.
Proof.
  intros Hall Hsum. rewrite calculateAverage_value. unfold specMean.
  by rewrite parsedSamples_all, wrap64_small.
Qed.

(** C4.  [calculateAverage] divides the sum of the samples that parse by the
    number of all samples: on the samples "10" and "99999999999999999999"
    (the second exceeds an [int]) it returns 5, where the mean of the parsed
    samples is 10.  The mean of no samples is 0. *)
Theorem calculateAverage_counts_unparsed_samples :
  calculateAverage ["10"; "99999999999999999999"] = float64_of_int 5 /\
  specMean ["10"; "99999999999999999999"] = float64_of_int 10 /\
  float64_of_int 5 <> float64_of_int 10 /\
  calculateAverage [] = S754_zero false.
Proof. vm_compute. repeat split; discriminate. Qed.

(** * binary64 facts *)

Lemma iter_pos_nat {A} (f : A -> A) n : forall x,
  SpecFloat.iter_pos f n x = @Nat.iter (Pos.to_nat n) A f x.
Proof.
  assert (Hsw : forall k x, @Nat.iter k A f (f x) = f (@Nat.iter k A f x)).
  { induction k as [|k IH]; intros x; simpl; [done|]. by rewrite IH. }
  assert (Hadd : forall a b x, @Nat.iter (a + b) A f x = @Nat.iter a A f (@Nat.iter b A f x)).
  { induction a as [|a IH]; intros b x; simpl; [done|]. by rewrite IH. }
  induction n as [n IH|n IH|]; intros x.
  - rewrite Pos2Nat.inj_xI. cbn [SpecFloat.iter_pos Nat.iter Nat.mul].
    rewrite !IH, Nat.add_0_r, Nat.iter_succ, Hadd, !Hsw. done.
  - rewrite Pos2Nat.inj_xO. cbn [SpecFloat.iter_pos Nat.iter Nat.mul].
    by rewrite !IH, Nat.add_0_r, Hadd.
  - done.
Qed.

Lemma shr_1_m mrs : 0 <= shr_m mrs -> shr_m (shr_1 mrs) = shr_m mrs / 2.
Proof.
  destruct mrs as [m r s]. cbn [shr_m]. intros Hm.
  destruct m as [|[p|p|]|p]; cbn [shr_1 shr_m]; try lia;
    rewrite <- Z.div2_div; reflexivity.
Qed.

Lemma shr_iter_m k : forall mrs, 0 <= shr_m mrs ->
  shr_m (@Nat.iter k shr_record shr_1 mrs) = shr_m mrs / 2 ^ Z.of_nat k.
Proof.
  induction k as [|k IH]; intros mrs Hm.
  - simpl. by rewrite Z.div_1_r.
  - rewrite Nat.iter_succ, shr_1_m.
    + rewrite IH by done. rewrite Nat2Z.inj_succ, Z.pow_succ_r by lia.
      rewrite Z.div_div by lia. f_equal. lia.
    + rewrite IH by done. apply Z.div_pos; lia.
Qed.

Lemma shr_record_of_loc_m m l : shr_m (shr_record_of_loc m l) = m.
Proof. by destruct l as [|[]]. Qed.

(** A right shift by [n] (when positive) divides the mantissa. *)
Lemma shr_spec mrs e n : 0 <= shr_m mrs ->
  shr_m (shr mrs e n).1 = shr_m mrs / 2 ^ Z.max 0 n /\
  (shr mrs e n).2 = e + Z.max 0 n.
Proof.
  intros Hm. destruct n as [|p|p]; simpl.
  - rewrite Z.div_1_r. split; [done|lia].
  - rewrite iter_pos_nat, shr_iter_m by done. rewrite positive_nat_Z. split; [done|lia].
  - rewrite Z.div_1_r. split; [done|lia].
Qed.

Lemma round_nearest_even_bounds m l :
  m <= round_nearest_even m l <= m + 1.
Proof. destruct l as [|[]]; simpl; try lia. destruct (Z.even m); lia. Qed.

Lemma digits2_log2 p : Z.pos (digits2_pos p) = Z.log2 (Z.pos p) + 1.
Proof.
  assert (H : forall q, digits2_pos q = Pos.size q).
  { induction q; simpl; congruence. }
  destruct p; simpl; rewrite ?H; lia.
Qed.

Lemma Zdigits2_bounds m : 0 < m -> 2 ^ (Zdigits2 m - 1) <= m < 2 ^ Zdigits2 m.
Proof.
  intros Hm. destruct m as [|p|p]; try lia. unfold Zdigits2. rewrite digits2_log2.
  replace (Z.log2 (Z.pos p) + 1 - 1) with (Z.log2 (Z.pos p)) by lia.
  pose proof (Z.log2_spec (Z.pos p) Hm). unfold Z.succ in *. lia.
Qed.

Lemma Zdigits2_unique m d : 0 < d -> 2 ^ (d - 1) <= m < 2 ^ d -> Zdigits2 m = d.
Proof.
  intros Hd Hm. assert (0 < m) by (pose proof (Z.pow_pos_nonneg 2 (d - 1)); lia).
  destruct m as [|p|p]; try lia. unfold Zdigits2. rewrite digits2_log2.
  rewrite (Z.log2_unique (Z.pos p) (d - 1)); [lia|lia|].
  replace (Z.succ (d - 1)) with d by lia. done.
Qed.

Lemma fexp64 x : fexp prec emax x = Z.max (x - 53) (-1074).
Proof. reflexivity. Qed.

Lemma shr_fexp_spec m e l : 0 <= m ->
  shr_m (shr_fexp prec emax m e l).1 =
    m / 2 ^ Z.max 0 (fexp prec emax (Zdigits2 m + e) - e) /\
  (shr_fexp prec emax m e l).2 = e + Z.max 0 (fexp prec emax (Zdigits2 m + e) - e).
Proof.
  intros Hm. unfold shr_fexp.
  destruct (shr_spec (shr_record_of_loc m l) e (fexp prec emax (Zdigits2 m + e) - e))
    as [H1 H2]; rewrite shr_record_of_loc_m in *; done.
Qed.

Definition not_nan (x : float64) : Prop := x <> S754_nan.

(** Rounding a non-negative mantissa never yields NaN. *)
Lemma binary_round_aux_not_nan sx m e l : 0 <= m ->
  not_nan (binary_round_aux prec emax sx m e l).
Proof.
  intros Hm. unfold binary_round_aux.
  destruct (shr_fexp_spec m e l Hm) as [H1 _].
  destruct (shr_fexp prec emax m e l) as [mrs1 e1]. cbn [fst snd] in H1.
  set (m1 := round_nearest_even (shr_m mrs1) (loc_of_shr_record mrs1)).
  assert (Hm1 : 0 <= m1).
  { pose proof (round_nearest_even_bounds (shr_m mrs1) (loc_of_shr_record mrs1)).
    assert (0 <= shr_m mrs1) by (rewrite H1; apply Z.div_pos; lia). unfold m1. lia. }
  destruct (shr_fexp_spec m1 e1 loc_Exact Hm1) as [H2 _].
  destruct (shr_fexp prec emax m1 e1 loc_Exact) as [mrs2 e2]. cbn [fst snd] in H2.
  assert (0 <= shr_m mrs2) by (rewrite H2; apply Z.div_pos; lia).
  destruct (shr_m mrs2); [discriminate| |lia].
  destruct (e2 <=? emax - prec); discriminate.
Qed.

(** Rounding a mantissa of at least 53 bits yields a finite value of the
    given sign, or the infinity of that sign when the exponent overflows. *)
Lemma binary_round_aux_finite sx m e l :
  0 < m -> 53 <= Zdigits2 m -> -1074 <= e ->
  exists m' e',
    binary_round_aux prec emax sx m e l =
      (if e' <=? 971 then S754_finite sx m' e' else S754_infinity sx) /\
    e' <= Zdigits2 m + e - 52.
Proof.
  intros Hm Hd He. unfold binary_round_aux.
  destruct (shr_fexp_spec m e l ltac:(lia)) as [H1 E1].
  destruct (shr_fexp prec emax m e l) as [mrs1 e1]. cbn [fst snd] in H1, E1.
  rewrite fexp64 in H1, E1.
  replace (Z.max 0 (Z.max (Zdigits2 m + e - 53) (-1074) - e)) with (Zdigits2 m - 53) in * by lia.
  pose proof (Zdigits2_bounds m Hm) as Hb.
  assert (Hm1 : 2 ^ 52 <= shr_m mrs1 < 2 ^ 53).
  { rewrite H1. split.
    - apply Z.div_le_lower_bound; [apply Z.pow_pos_nonneg; lia|].
      rewrite <- Z.pow_add_r by lia. replace (Zdigits2 m - 53 + 52) with (Zdigits2 m - 1) by lia. lia.
    - apply Z.div_lt_upper_bound; [apply Z.pow_pos_nonneg; lia|].
      rewrite <- Z.pow_add_r by lia. replace (Zdigits2 m - 53 + 53) with (Zdigits2 m) by lia. lia. }
  set (m1 := round_nearest_even (shr_m mrs1) (loc_of_shr_record mrs1)).
  pose proof (round_nearest_even_bounds (shr_m mrs1) (loc_of_shr_record mrs1)) as Hr.
  fold m1 in Hr.
  assert (Hm1' : 2 ^ 52 <= m1 <= 2 ^ 53) by lia.
  destruct (shr_fexp_spec m1 e1 loc_Exact ltac:(lia)) as [H2 E2].
  destruct (shr_fexp prec emax m1 e1 loc_Exact) as [mrs2 e2]. cbn [fst snd] in H2, E2.
  rewrite fexp64 in H2, E2.
  assert (Hcase : m1 < 2 ^ 53 \/ m1 = 2 ^ 53) by lia.
  assert (Hpos : 0 < shr_m mrs2 /\ e2 <= e1 + 1).
  { destruct Hcase as [Hlt | Heq].
    - rewrite (Zdigits2_unique m1 53) in H2, E2 by lia.
      replace (Z.max 0 (Z.max (53 + e1 - 53) (-1074) - e1)) with 0 in * by lia.
      rewrite Z.div_1_r in H2. lia.
    - rewrite (Zdigits2_unique m1 54) in H2, E2 by lia.
      replace (Z.max 0 (Z.max (54 + e1 - 53) (-1074) - e1)) with 1 in * by lia.
      rewrite Heq in H2. change (2 ^ 53 / 2 ^ 1) with (2 ^ 52) in H2. lia. }
  destruct Hpos as [Hpos He2].
  destruct (shr_m mrs2) as [|q|q]; try lia.
  exists q, e2. split; [reflexivity|lia].
Qed.

Lemma Zpos_iter_xO p k : Z.pos (Pos.iter xO p k) = Z.pos p * 2 ^ Z.pos k.
Proof.
  rewrite (Pos.iter_swap_gen _ _ Z.pos xO (Z.mul 2)) by reflexivity.
  change (Pos.iter (Z.mul 2) (Z.pos p) k) with (Z.shiftl (Z.pos p) (Z.pos k)).
  apply Z.shiftl_mul_pow2. lia.
Qed.

(** [binary_round] of a positive integer. *)
Lemma binary_round_int sx p :
  exists m e,
    binary_round prec emax sx p 0 =
      (if e <=? 971 then S754_finite sx m e else S754_infinity sx) /\
    e <= Z.pos (digits2_pos p) - 52.
Proof.
  unfold binary_round. rewrite Z.add_0_r, fexp64.
  set (d := Z.pos (digits2_pos p)).
  assert (Hd : 1 <= d) by (unfold d; lia).
  replace (Z.max (d - 53) (-1074)) with (d - 53) by lia.
  unfold shl_align. rewrite Z.sub_0_r.
  pose proof (Zdigits2_bounds (Z.pos p) ltac:(lia)) as Hb. cbn [Zdigits2] in Hb. fold d in Hb.
  destruct (d - 53) as [|k|k] eqn:Ek.
  - destruct (binary_round_aux_finite sx (Z.pos p) 0 loc_Exact) as (m & e & Hr & He);
      cbn [Zdigits2]; fold d; try lia.
    exists m, e. split; [done|]. cbn [Zdigits2] in He. fold d in He. lia.
  - destruct (binary_round_aux_finite sx (Z.pos p) 0 loc_Exact) as (m & e & Hr & He);
      cbn [Zdigits2]; fold d; try lia.
    exists m, e. split; [done|]. cbn [Zdigits2] in He. fold d in He. lia.
  - assert (Hdg : Zdigits2 (Z.pos (Pos.iter xO p k)) = 53).
    { apply Zdigits2_unique; [lia|]. rewrite Zpos_iter_xO.
      replace (Z.pos k) with (53 - d) by lia.
      replace (2 ^ (53 - 1)) with (2 ^ (d - 1) * 2 ^ (53 - d))
        by (rewrite <- Z.pow_add_r by lia; f_equal; lia).
      replace (2 ^ 53) with (2 ^ d * 2 ^ (53 - d))
        by (rewrite <- Z.pow_add_r by lia; f_equal; lia).
      assert (0 < 2 ^ (53 - d)) by (apply Z.pow_pos_nonneg; lia). nia. }
    destruct (binary_round_aux_finite sx (Z.pos (Pos.iter xO p k)) (Z.neg k) loc_Exact)
      as (m & e & Hr & He); try lia.
    exists m, e. split; [done|]. rewrite Hdg in He. lia.
Qed.

Definition is_finite (x : float64) : Prop := exists s m e, x = S754_finite s m e.
Definition is_zero (x : float64) : Prop := exists s, x = S754_zero s.
Definition is_inf (x : float64) : Prop := exists s, x = S754_infinity s.

(** The conversion of an [int] is zero or finite. *)
Lemma float64_of_int_int64 z : - 2 ^ 63 <= z <= 2 ^ 63 ->
  is_zero (float64_of_int z) \/ is_finite (float64_of_int z).
Proof.
  intros Hz. unfold float64_of_int, binary_normalize.
  destruct z as [|p|p]; [left; by eexists| |];
    right;
    [destruct (binary_round_int false p) as (m & e & Hr & He)
    |destruct (binary_round_int true p) as (m & e & Hr & He)];
    rewrite Hr;
    (assert (Hd : Z.pos (digits2_pos p) <= 64);
     [ pose proof (Zdigits2_bounds (Z.pos p) ltac:(lia)) as Hb; cbn [Zdigits2] in Hb;
       destruct (Z.le_gt_cases (Z.pos (digits2_pos p)) 64) as [|Hgt]; [done|];
       assert (2 ^ 64 <= 2 ^ (Z.pos (digits2_pos p) - 1)) by (apply Z.pow_le_mono_r; lia);
       lia
     | destruct (Z.leb_spec e 971); [by do 3 eexists | lia] ]).
Qed.

(** The conversion of a positive integer is finite or infinite, never zero. *)
Lemma float64_of_int_positive z : 0 < z ->
  is_finite (float64_of_int z) \/ is_inf (float64_of_int z).
Proof.
  intros Hz. destruct z as [|p|p]; try lia.
  unfold float64_of_int, binary_normalize.
  destruct (binary_round_int false p) as (m & e & Hr & _). rewrite Hr.
  destruct (e <=? 971); [left; by do 3 eexists | right; by eexists].
Qed.

Lemma float64_of_int_not_nan z : not_nan (float64_of_int z).
Proof.
  unfold not_nan, float64_of_int, binary_normalize.
  destruct z as [|p|p]; [discriminate| |];
    [destruct (binary_round_int false p) as (m & e & Hr & _)
    |destruct (binary_round_int true p) as (m & e & Hr & _)];
    rewrite Hr; destruct (e <=? 971); discriminate.
Qed.

(** A quotient is NaN only for NaN operands, 0/0 and inf/inf. *)
Lemma fdiv_not_nan x y :
  is_zero x \/ is_finite x -> is_finite y \/ is_inf y -> not_nan (fdiv x y).
Proof.
  intros [[sx ->] | (sx & mx & ex & ->)] [(sy & my & ey & ->) | [sy ->]];
    unfold fdiv, SFdiv; try discriminate.
  destruct (SFdiv_core_binary prec emax (Z.pos mx) ex (Z.pos my) ey) as [[mz ez] lz] eqn:E.
  apply binary_round_aux_not_nan.
  unfold SFdiv_core_binary in E.
  set (m' := match _ - _ - _ with Z0 => _ | Z.pos _ => _ | Z.neg _ => _ end) in E.
  assert (Hm' : 0 <= m').
  { unfold m'. destruct (_ - _ - _); try lia. apply Z.shiftl_nonneg. lia. }
  pose proof (Z_div_mod m' (Z.pos my) ltac:(lia)) as Hdm.
  destruct (Z.div_eucl m' (Z.pos my)) as [q r]. injection E as <- _ _. nia.
Qed.

(** [calculateAverage] never returns NaN. *)
Lemma calculateAverage_not_nan pings : not_nan (calculateAverage pings).
Proof.
  unfold calculateAverage.
  destruct (Nat.eqb_spec (length pings) 0); [discriminate|].
  apply fdiv_not_nan.
  - apply float64_of_int_int64.
    assert (H : forall ps acc, - 2 ^ 63 <= acc <= 2 ^ 63 ->
                - 2 ^ 63 <= fold_left addSample ps acc <= 2 ^ 63).
    { induction ps as [|p ps IH]; intros acc Hacc; simpl; [done|].
      apply IH. unfold addSample. destruct (Atoi p) as [v [|]]; [|done].
      unfold wrap64. pose proof (Z.mod_pos_bound (acc + v + 2 ^ 63) (2 ^ 64) ltac:(lia)). lia. }
    apply H. lia.
  - apply float64_of_int_positive. lia.
Qed.

(** * The order of the comparison *)

(** A key whose lexicographic order is the order of non-NaN binary64
    values. *)
Definition fkey (x : float64) : Z * Z * Z :=
  match x with
  | S754_infinity true => (-2, 0, 0)
  | S754_finite true m e => (-1, - e, - Z.pos m)
  | S754_zero _ => (0, 0, 0)
  | S754_nan => (0, 0, 0)
  | S754_finite false m e => (1, e, Z.pos m)
  | S754_infinity false => (2, 0, 0)
  end.

Definition lexlt (a b : Z * Z * Z) : Prop :=
  a.1.1 < b.1.1 \/
  (a.1.1 = b.1.1 /\ (a.1.2 < b.1.2 \/ (a.1.2 = b.1.2 /\ a.2 < b.2))).

Lemma fltb_key x y : not_nan x -> not_nan y ->
  (fltb x y = true <-> lexlt (fkey x) (fkey y)).
Proof.
  intros Hx Hy. unfold fltb, SFltb, lexlt.
  destruct x as [[|]|[|]| |[|] m1 e1], y as [[|]|[|]| |[|] m2 e2];
    try (by destruct Hx); try (by destruct Hy); cbn [SFcompare fkey fst snd];
    try (split; [discriminate | lia]); try (split; [lia | done]); try (split; [intros _; lia | done]).
  - change (Pos.compare_cont Eq m1 m2) with (Pos.compare m1 m2).
    destruct (Z.compare_spec e1 e2); [destruct (Pos.compare_spec m1 m2)| |]; cbn [CompOpp];
      split; try discriminate; try lia; done.
  - change (Pos.compare_cont Eq m1 m2) with (Pos.compare m1 m2).
    destruct (Z.compare_spec e1 e2); [destruct (Pos.compare_spec m1 m2)| |];
      split; try discriminate; try lia; done.
Qed.

(** Byte-wise string order. *)
Lemma ascii_compare_eq a b : Ascii.compare a b = Eq -> a = b.
Proof.
  unfold Ascii.compare. intros H. apply N.compare_eq in H.
  rewrite <- (ascii_N_embedding a), <- (ascii_N_embedding b). by rewrite H.
Qed.

Lemma string_compare_refl s : String.compare s s = Eq.
Proof.
  induction s as [|c s IH]; simpl; [done|].
  unfold Ascii.compare. by rewrite N.compare_refl.
Qed.

Lemma string_ltb_irrefl s : String.ltb s s = false.
Proof. unfold String.ltb. by rewrite string_compare_refl. Qed.

Lemma string_compare_lt_trans a : forall b c,
  String.compare a b = Lt -> String.compare b c = Lt -> String.compare a c = Lt.
Proof.
  induction a as [|x a IH]; intros [|y b] [|z c]; simpl; try done.
  unfold Ascii.compare.
  destruct (N.compare_spec (N_of_ascii x) (N_of_ascii y)) as [Hxy|Hxy|Hxy]; try done;
    destruct (N.compare_spec (N_of_ascii y) (N_of_ascii z)) as [Hyz|Hyz|Hyz]; try done;
    destruct (N.compare_spec (N_of_ascii x) (N_of_ascii z)) as [Hxz|Hxz|Hxz]; try done;
    try lia.
  intros. by eapply IH.
Qed.

Lemma string_ltb_trans a b c :
  String.ltb a b = true -> String.ltb b c = true -> String.ltb a c = true.
Proof.
  unfold String.ltb. intros H1 H2.
  rewrite (string_compare_lt_trans a b c); [done| |].
  - by destruct (String.compare a b).
  - by destruct (String.compare b c).
Qed.

Lemma string_ltb_total a b :
  String.ltb a b = false -> String.ltb b a = false -> a = b.
Proof.
  unfold String.ltb. rewrite (String.compare_antisym b a).
  destruct (String.compare a b) eqn:E; simpl; try discriminate.
  intros _ _. by apply String.compare_eq_iff.
Qed.

(** The comparison, by cases. *)
Lemma less_iff a b :
  less a b = true <->
  String.ltb (group a) (group b) = true \/
  (group a = group b /\
   lexlt (fkey (calculateAverage (pings a))) (fkey (calculateAverage (pings b)))).
Proof.
  unfold less. destruct (String.eqb_spec (group a) (group b)) as [E|E]; cbn [negb].
  - rewrite fltb_key by apply calculateAverage_not_nan. rewrite E, string_ltb_irrefl.
    split; [by right | intros [|[_ ?]]; done].
  - split; [by left | intros [|[? _]]; done].
Qed.

Lemma less_false_iff a b :
  less a b = false <->
  String.ltb (group a) (group b) = false /\
  (group a = group b ->
   ~ lexlt (fkey (calculateAverage (pings a))) (fkey (calculateAverage (pings b)))).
Proof.
  pose proof (less_iff a b) as H. destruct (less a b).
  - split; [intros Hd; discriminate Hd|]. intros [Hs Hk].
    destruct H as [H _]. destruct (H eq_refl) as [Hl|[E Hl]].
    + congruence.
    + by destruct (Hk E).
  - split; [|done]. intros _. split.
    + destruct (String.ltb (group a) (group b)); [|done]. symmetry. apply H. by left.
    + intros E Hl. assert (false = true) by (apply H; by right). done.
Qed.

(** The comparison of [main] is a strict weak ordering: [sort.Slice] can
    sort by it. *)
Lemma less_strict_weak : StrictWeak less.
Proof.
  split.
  - intros a. apply less_false_iff. split; [apply string_ltb_irrefl|].
    intros _. unfold lexlt. lia.
  - intros a b c H1 H2. apply less_iff in H1, H2. apply less_iff.
    destruct H1 as [H1|[E1 H1]], H2 as [H2|[E2 H2]].
    + left. by eapply string_ltb_trans.
    + left. by rewrite <- E2.
    + left. by rewrite E1.
    + right. split; [congruence|]. unfold lexlt in *. lia.
  - intros a b c Hab Hba Hbc Hcb.
    apply less_false_iff in Hab as [Sab Kab], Hba as [Sba Kba],
                            Hbc as [Sbc Kbc], Hcb as [Scb Kcb].
    pose proof (string_ltb_total _ _ Sab Sba) as Eab.
    pose proof (string_ltb_total _ _ Sbc Scb) as Ebc.
    specialize (Kab Eab). specialize (Kba (eq_sym Eab)).
    specialize (Kbc Ebc). specialize (Kcb (eq_sym Ebc)).
    split; apply less_false_iff; (split; [|intros _; unfold lexlt in *; lia]).
    + rewrite Eab, Ebc. apply string_ltb_irrefl.
    + rewrite Eab, Ebc. apply string_ltb_irrefl.
Qed.

(** * Sorting *)

Lemma sw_asym {A} (lt : A -> A -> bool) : StrictWeak lt ->
  forall a b, lt a b = true -> lt b a = false.
Proof.
  intros [Hi Ht _] a b Hab. destruct (lt b a) eqn:Hba; [|done].
  by rewrite <- (Hi a), (Ht a b a).
Qed.

(** Not being less is transitive. *)
Lemma sw_not_less_trans {A} (lt : A -> A -> bool) : StrictWeak lt ->
  forall a b c, lt b a = false -> lt c b = false -> lt c a = false.
Proof.
  intros Hsw a b c Hba Hcb. destruct (lt c a) eqn:Hca; [|done].
  destruct (lt a b) eqn:Hab.
  { by rewrite <- Hcb, (sw_trans lt Hsw c a b). }
  destruct (lt b c) eqn:Hbc.
  { by rewrite <- Hba, (sw_trans lt Hsw b c a). }
  destruct (sw_incomp lt Hsw a b c Hab Hba Hbc Hcb) as [_ H]. congruence.
Qed.

(** In a sorted slice no later element is less than an earlier one. *)
Lemma SliceIsSorted_pairwise {A} (lt : A -> A -> bool) : StrictWeak lt ->
  forall l, SliceIsSorted lt l = true ->
  forall i j a b, (i < j)%nat -> l !! i = Some a -> l !! j = Some b -> lt b a = false.
Proof.
  intros Hsw l. induction l as [|x l IH]; intros Hs i j a b Hij Ha Hb; [done|].
  assert (Htl : SliceIsSorted lt l = true).
  { destruct l; [done|]. simpl in Hs. by apply andb_prop in Hs as [_ ?]. }
  assert (Hhd : forall k c, l !! k = Some c -> lt c x = false).
  { clear i j a b Hij Ha Hb. intros k. revert IH Hs Htl. revert x.
    induction k as [|k IHk]; intros x IH Hs Htl c Hc.
    - destruct l as [|y l]; [done|]. simpl in Hc. injection Hc as <-.
      simpl in Hs. apply andb_prop in Hs as [Hs _]. by destruct (lt y x).
    - destruct l as [|y l]; [done|]. simpl in Hc.
      assert (Hyx : lt y x = false).
      { simpl in Hs. apply andb_prop in Hs as [Hs _]. by destruct (lt y x). }
      apply (sw_not_less_trans lt Hsw x y c Hyx).
      apply (IH Htl O (S k) y c); [lia|done|done]. }
  destruct i as [|i].
  - simpl in Ha. injection Ha as <-. destruct j as [|j]; [lia|]. by eapply Hhd.
  - destruct j as [|j]; [lia|]. simpl in Ha, Hb. apply (IH Htl i j); [lia|done|done].
Qed.

(** ** The insertion sort meets the contract *)

(** The sorted prefix is kept last element first. *)
Fixpoint Desc {A} (lt : A -> A -> bool) (acc : list A) : bool :=
  match acc with
  | y :: (y' :: _) as tl => negb (lt y y') && Desc lt tl
  | _ => true
  end.

Lemma SliceIsSorted_snoc {A} (lt : A -> A -> bool) l : forall y,
  SliceIsSorted lt (l ++ [y]) =
  SliceIsSorted lt l && match last l with Some z => negb (lt y z) | None => true end.
Proof.
  induction l as [|a l IH]; intros y; [done|].
  destruct l as [|b l]; [simpl; by rewrite andb_true_r|].
  change (SliceIsSorted lt ((a :: b :: l) ++ [y]))
    with (negb (lt b a) && SliceIsSorted lt ((b :: l) ++ [y])).
  rewrite IH. change (last (a :: b :: l)) with (last (b :: l)).
  change (SliceIsSorted lt (a :: b :: l)) with (negb (lt b a) && SliceIsSorted lt (b :: l)).
  by rewrite andb_assoc.
Qed.

Lemma SliceIsSorted_rev {A} (lt : A -> A -> bool) acc :
  SliceIsSorted lt (rev acc) = Desc lt acc.
Proof.
  induction acc as [|y acc IH]; [done|].
  cbn [rev]. rewrite SliceIsSorted_snoc, IH.
  destruct acc as [|y' acc]; [done|].
  cbn [rev Desc]. rewrite last_snoc. apply andb_comm.
Qed.

Lemma insertLeft_perm {A} (lt : A -> A -> bool) acc : forall x,
  Permutation (x :: acc) (insertLeft lt acc x).
Proof.
  induction acc as [|y acc IH]; intros x; simpl; [done|].
  destruct (lt x y); [|done]. rewrite <- IH. apply perm_swap.
Qed.

Lemma Desc_cons2 {A} (lt : A -> A -> bool) y y' t :
  Desc lt (y :: y' :: t) = negb (lt y y') && Desc lt (y' :: t).
Proof. reflexivity. Qed.

Lemma insertLeft_Desc {A} (lt : A -> A -> bool) : StrictWeak lt ->
  forall acc x, Desc lt acc = true -> Desc lt (insertLeft lt acc x) = true.
Proof.
  intros Hsw. induction acc as [|y acc IH]; intros x Hd; [done|].
  cbn [insertLeft]. destruct (lt x y) eqn:Hxy.
  - assert (Hacc : Desc lt acc = true).
    { destruct acc; [done|]. rewrite Desc_cons2 in Hd. by apply andb_prop in Hd as [_ ?]. }
    specialize (IH x Hacc).
    destruct acc as [|y' acc].
    + simpl. by rewrite (sw_asym lt Hsw x y Hxy).
    + cbn [insertLeft] in IH |- *. destruct (lt x y') eqn:Hxy'.
      * rewrite Desc_cons2 in Hd |- *. apply andb_prop in Hd as [Hyy' _].
        by rewrite Hyy', IH.
      * rewrite Desc_cons2. by rewrite (sw_asym lt Hsw x y Hxy), IH.
  - rewrite Desc_cons2. by rewrite Hxy, Hd.
Qed.

Lemma insertionSort_contract : SortSliceContract insertionSort.
Proof.
  intros A lt l. unfold insertionSort.
  assert (Hp : forall l acc, Permutation (l ++ acc) (fold_left (insertLeft lt) l acc)).
  { clear l. induction l as [|x l IH]; intros acc; [done|]. cbn [fold_left].
    rewrite <- IH, <- insertLeft_perm. simpl. by rewrite Permutation_middle. }
  split.
  - rewrite <- Permutation_rev, <- Hp. by rewrite app_nil_r.
  - intros Hsw. rewrite SliceIsSorted_rev.
    assert (Hd : forall l acc, Desc lt acc = true ->
                   Desc lt (fold_left (insertLeft lt) l acc) = true).
    { clear l Hp. induction l as [|x l IH]; intros acc Hacc; [done|].
      cbn [fold_left]. apply IH. by apply insertLeft_Desc. }
    by apply Hd.
Qed.

(** * Grouping *)

(** The distinct elements of a list in the order of their first
    occurrence. *)
Definition firstSeen (l : list string) : list string :=
  fold_left (fun acc x => if decide (x ∈ acc) then acc else acc ++ [x]) l [].

Lemma firstSeen_snoc l x :
  firstSeen (l ++ [x]) =
  if decide (x ∈ firstSeen l) then firstSeen l else firstSeen l ++ [x].
Proof. unfold firstSeen. by rewrite fold_left_app. Qed.

Lemma firstSeen_elem l x : x ∈ firstSeen l <-> x ∈ l.
Proof.
  revert x. induction l as [|y l IH] using rev_ind; intros x; [reflexivity|].
  rewrite firstSeen_snoc. destruct (decide (y ∈ firstSeen l)) as [Hy|Hy].
  - rewrite IH. split; [set_solver|]. intros [?|H]%elem_of_app; [done|].
    apply list_elem_of_singleton in H as ->. by apply IH.
  - rewrite !elem_of_app, IH. done.
Qed.

Lemma firstSeen_NoDup l : NoDup (firstSeen l).
Proof.
  induction l as [|y l IH] using rev_ind; [constructor|].
  rewrite firstSeen_snoc. destruct (decide (y ∈ firstSeen l)) as [Hy|Hy]; [done|].
  apply NoDup_app. split; [done|]. split; [|apply NoDup_singleton].
  intros x Hx ->%list_elem_of_singleton. done.
Qed.

Lemma firstSeen_length l : (length (firstSeen l) <= length l)%nat.
Proof.
  induction l as [|y l IH] using rev_ind; [done|].
  rewrite firstSeen_snoc, length_app. simpl.
  destruct (decide (y ∈ firstSeen l)); rewrite ?length_app; simpl; lia.
Qed.

Section Grouping.

Variable parseIPv6 : string -> option Z.

(** The egress addresses of the peers that are grouped, in list order. *)
Definition publicIPs (rs : list PingResult) : list string :=
  map externalIP (filter (fun r => grouped parseIPv6 r = true) rs).

(** How many peers share the public egress address [e]. *)
Definition sharing (rs : list PingResult) (e : string) : Z :=
  Z.of_nat (length (filter (fun x => x = e) (publicIPs rs))).

Lemma publicIPs_snoc rs r :
  publicIPs (rs ++ [r]) =
  if grouped parseIPv6 r then publicIPs rs ++ [externalIP r] else publicIPs rs.
Proof.
  unfold publicIPs. rewrite filter_app, map_app. cbn [filter list_filter].
  destruct (decide (grouped parseIPv6 r = true)) as [E|E].
  - by rewrite E.
  - destruct (grouped parseIPv6 r); [done|]. simpl. by rewrite app_nil_r.
Qed.

Lemma publicIPs_length rs : (length (publicIPs rs) <= length rs)%nat.
Proof. unfold publicIPs. rewrite length_map. apply length_filter. Qed.

Lemma sharing_bound rs e : 0 <= sharing rs e <= Z.of_nat (length rs).
Proof.
  unfold sharing. pose proof (length_filter (fun x => x = e) (publicIPs rs)).
  pose proof (publicIPs_length rs). lia.
Qed.

Lemma sharing_snoc rs r e :
  sharing (rs ++ [r]) e =
  sharing rs e + (if grouped parseIPv6 r && String.eqb (externalIP r) e then 1 else 0).
Proof.
  unfold sharing. rewrite publicIPs_snoc. destruct (grouped parseIPv6 r); simpl; [|lia].
  rewrite filter_app, length_app. cbn [filter list_filter].
  destruct (String.eqb_spec (externalIP r) e) as [E|E].
  - rewrite decide_True by done. simpl. lia.
  - rewrite decide_False by done. simpl. lia.
Qed.

(** The first pass counts the sharers of every public egress address. *)
Lemma countPass_spec rs : Z.of_nat (length rs) < 2 ^ 63 ->
  forall e, map_get (countPass parseIPv6 rs) e = sharing rs e.
Proof.
  unfold countPass. induction rs as [|r rs IH] using rev_ind; intros Hlen e.
  - done.
  - rewrite length_app in Hlen. simpl in Hlen.
    rewrite fold_left_app. cbn [fold_left]. rewrite sharing_snoc.
    specialize (IH ltac:(lia)).
    fold (grouped parseIPv6 r). destruct (grouped parseIPv6 r); simpl.
    + unfold map_get at 1. destruct (String.eqb_spec (externalIP r) e) as [E|E].
      * subst e. rewrite lookup_insert_eq. simpl. rewrite IH.
        pose proof (sharing_bound rs (externalIP r)). apply wrap64_small. lia.
      * rewrite lookup_insert_ne by done. rewrite <- IH. unfold map_get. lia.
    + rewrite IH. lia.
Qed.


(** What the second pass writes at a peer, given the final map. *)
Definition labelled (groupMap : gmap string Z) (rs : list PingResult) (r : PingResult)
    : PingResult :=
  if grouped parseIPv6 r
  then set_group r (numberToLetterWithCount (map_get groupMap (externalIP r))
                                            (sharing rs (externalIP r)))
  else r.

(** The state of the second pass after a prefix of the list. *)
Record AssignInv (counts : gmap string Z) (pre : list PingResult)
    (st : gmap string Z * Z * list PingResult) : Prop := {
  inv_counter : st.1.2 = wrap64 (Z.of_nat (length (firstSeen (publicIPs pre))) + 1);
  inv_map : forall e n,
    st.1.1 !! e = Some n <->
    firstSeen (publicIPs pre) !! Z.to_nat (n - 1) = Some e /\ 1 <= n;
  inv_visited :
    st.2 = map (fun r => if grouped parseIPv6 r
                         then set_group r (numberToLetterWithCount
                                (map_get st.1.1 (externalIP r))
                                (map_get counts (externalIP r)))
                         else r) pre
}.

Lemma assignStep_inv counts pre r st :
  Z.of_nat (length pre) + 1 < 2 ^ 63 ->
  AssignInv counts pre st ->
  AssignInv counts (pre ++ [r]) (assignStep parseIPv6 counts st r).
Proof.
  intros Hlen [Hc Hm Hv]. destruct st as [[gm gc] vis]. cbn [fst snd] in *.
  unfold assignStep. fold (grouped parseIPv6 r).
  destruct (grouped parseIPv6 r) eqn:Hg; cbn [negb].
  2:{ split; cbn [fst snd]; rewrite ?publicIPs_snoc, ?Hg; [done|done|].
      rewrite map_app. cbn [map]. by rewrite Hg, Hv. }
  set (seen := firstSeen (publicIPs pre)) in *.
  assert (Hsn : firstSeen (publicIPs (pre ++ [r])) =
                if decide (externalIP r ∈ seen) then seen else seen ++ [externalIP r]).
  { by rewrite publicIPs_snoc, Hg, firstSeen_snoc. }
  assert (Hseen : (length seen <= length pre)%nat).
  { unfold seen. pose proof (firstSeen_length (publicIPs pre)).
    pose proof (publicIPs_length pre). lia. }
  destruct (gm !! externalIP r) as [n|] eqn:Hl.
  - (* the address has its identifier already *)
    assert (Hin : externalIP r ∈ seen).
    { apply Hm in Hl as [Hl _]. by eapply list_elem_of_lookup_2. }
    rewrite decide_True in Hsn by done.
    split; cbn [fst snd]; rewrite ?Hsn; [done|done|].
    rewrite map_app. cbn [map]. by rewrite Hg, Hv.
  - (* a new address takes the next identifier *)
    assert (Hnin : externalIP r ∉ seen).
    { intros [i Hi]%list_elem_of_lookup_1.
      assert (gm !! externalIP r = Some (Z.of_nat i + 1)) as Hs; [|congruence].
      apply Hm. split; [|lia]. by replace (Z.to_nat (Z.of_nat i + 1 - 1)) with i by lia. }
    rewrite decide_False in Hsn by done.
    assert (Hgc : gc = Z.of_nat (length seen) + 1).
    { rewrite Hc. apply wrap64_small. lia. }
    split; cbn [fst snd]; rewrite ?Hsn.
    + rewrite length_app. simpl. f_equal. lia.
    + intros e n. destruct (decide (externalIP r = e)) as [<-|Hne].
      * rewrite lookup_insert_eq. split.
        -- intros [= <-]. split; [|lia]. rewrite Hgc.
           replace (Z.to_nat (Z.of_nat (length seen) + 1 - 1)) with (length seen) by lia.
           by rewrite list_lookup_middle.
        -- intros [Hlk Hn]. f_equal. rewrite Hgc.
           destruct (decide (Z.to_nat (n - 1) < length seen)%nat) as [Hlt|Hge].
           ++ rewrite lookup_app_l in Hlk by done.
              destruct Hnin. by eapply list_elem_of_lookup_2.
           ++ apply lookup_lt_Some in Hlk. rewrite length_app in Hlk. simpl in Hlk. lia.
      * rewrite lookup_insert_ne by done. rewrite Hm. split.
        -- intros [Hlk Hn]. split; [|done]. apply lookup_app_l_Some. done.
        -- intros [Hlk Hn]. split; [|done].
           apply lookup_app_Some in Hlk as [Hlk|[Hge Hlk]]; [done|].
           apply list_lookup_singleton_Some in Hlk as [_ Heq]. by destruct Hne.
    + rewrite map_app. cbn [map]. rewrite Hg. f_equal.
      rewrite Hv. apply map_ext_in. intros r' Hr'.
      destruct (grouped parseIPv6 r') eqn:Hg'; [|done].
      do 2 f_equal. unfold map_get.
      destruct (decide (externalIP r = externalIP r')) as [E|E]; [|by rewrite lookup_insert_ne].
      destruct Hnin. apply firstSeen_elem. unfold publicIPs. rewrite E.
      apply list_elem_of_In, in_map, list_elem_of_In, list_elem_of_filter.
      split; [done|]. by apply list_elem_of_In.
Qed.

Lemma assignPass_inv counts pre :
  Z.of_nat (length pre) < 2 ^ 63 ->
  AssignInv counts pre (fold_left (assignStep parseIPv6 counts) pre (∅, 1, [])).
Proof.
  induction pre as [|r pre IH] using rev_ind; intros Hlen.
  - split; cbn [fold_left fst snd]; [done| |done].
    intros e n. split; [by intros ?%lookup_empty_Some|]. intros [H _]. done.
  - rewrite length_app in Hlen. simpl in Hlen. rewrite fold_left_app. cbn [fold_left].
    apply assignStep_inv; [lia|]. apply IH. lia.
Qed.


Lemma assignGroups_map rs : Z.of_nat (length rs) < 2 ^ 63 ->
  assignGroups parseIPv6 rs = map (labelled (groupMap_of parseIPv6 rs) rs) rs.
Proof.
  intros Hlen. unfold assignGroups, groupMap_of, assignPass.
  destruct (assignPass_inv (countPass parseIPv6 rs) rs Hlen) as [_ _ Hv].
  rewrite Hv. apply map_ext. intros r. unfold labelled.
  by rewrite countPass_spec.
Qed.

Lemma groupMap_ids rs : Z.of_nat (length rs) < 2 ^ 63 ->
  forall e n,
    groupMap_of parseIPv6 rs !! e = Some n <->
    firstSeen (publicIPs rs) !! Z.to_nat (n - 1) = Some e /\ 1 <= n.
Proof.
  intros Hlen. unfold groupMap_of, assignPass.
  by destruct (assignPass_inv (countPass parseIPv6 rs) rs Hlen) as [_ Hm _].
Qed.

Lemma grouped_has_id rs r : Z.of_nat (length rs) < 2 ^ 63 ->
  r ∈ rs -> grouped parseIPv6 r = true ->
  exists n, groupMap_of parseIPv6 rs !! externalIP r = Some n.
Proof.
  intros Hlen Hr Hg.
  assert (Hin : externalIP r ∈ firstSeen (publicIPs rs)).
  { apply firstSeen_elem. unfold publicIPs.
    apply list_elem_of_In, in_map, list_elem_of_In, list_elem_of_filter. done. }
  apply list_elem_of_lookup_1 in Hin as [i Hi].
  exists (Z.of_nat i + 1). apply groupMap_ids; [done|]. split; [|lia].
  by replace (Z.to_nat (Z.of_nat i + 1 - 1)) with i by lia.
Qed.

End Grouping.

(** The grouping passes in terms of [groupMap] (on any list a Go slice can
    hold): its identifiers are 1, 2, ... in the order in which the public
    egress addresses are first seen; a peer with a public egress address is
    written the label of the identifier of its address; any other peer is
    left as it was and its address has no identifier. *)
Lemma groupMap_facts (parseIPv6 : string -> option Z) (rs : list PingResult) :
  Z.of_nat (length rs) < 2 ^ 63 ->
  let groupMap := groupMap_of parseIPv6 rs in
  let seen := firstSeen (publicIPs parseIPv6 rs) in
  (forall e n, groupMap !! e = Some n <-> seen !! Z.to_nat (n - 1) = Some e /\ 1 <= n) /\
  NoDup seen /\
  (forall i r, rs !! i = Some r ->
     if grouped parseIPv6 r
     then exists n, groupMap !! externalIP r = Some n /\
            assignGroups parseIPv6 rs !! i =
              Some (set_group r (numberToLetterWithCount n
                                   (sharing parseIPv6 rs (externalIP r))))
     else assignGroups parseIPv6 rs !! i = Some r /\
          (externalIP r = "" \/ isPublicIP parseIPv6 (externalIP r) = false)) /\
  (forall e, is_Some (groupMap !! e) ->
     e <> "" /\ isPublicIP parseIPv6 e = true) /\
  (forall r1 r2 n1 n2,
     groupMap !! externalIP r1 = Some n1 -> groupMap !! externalIP r2 = Some n2 ->
     (externalIP r1 = externalIP r2 <-> n1 = n2)).
Proof.
  intros Hlen groupMap seen.
  pose proof (groupMap_ids parseIPv6 rs Hlen) as Hids. fold groupMap seen in Hids.
  split; [exact Hids|]. split; [apply firstSeen_NoDup|]. split; [|split].
  - intros i r Hi. rewrite (assignGroups_map parseIPv6 rs Hlen), list_lookup_fmap, Hi.
    cbn [fmap option_fmap option_map]. unfold labelled. fold groupMap.
    destruct (grouped parseIPv6 r) eqn:Hg.
    + destruct (grouped_has_id parseIPv6 rs r Hlen) as [n Hn]; [by eapply list_elem_of_lookup_2|done|].
      fold groupMap in Hn. exists n. split; [done|]. unfold map_get. by rewrite Hn.
    + split; [done|]. unfold grouped in Hg.
      destruct (String.eqb_spec (externalIP r) ""); [by left|]. right.
      by destruct (isPublicIP parseIPv6 (externalIP r)).
  - intros e [n Hn]. apply Hids in Hn as [Hn _].
    apply list_elem_of_lookup_2 in Hn. unfold seen in Hn.
    apply (proj1 (firstSeen_elem _ _)) in Hn. unfold publicIPs in Hn.
    apply list_elem_of_In, in_map_iff in Hn as (r & <- & Hr).
    apply list_elem_of_In, list_elem_of_filter in Hr as [Hg _]. unfold grouped in Hg.
    apply andb_prop in Hg as [Hne Hp]. split; [|done].
    destruct (String.eqb_spec (externalIP r) ""); done.
  - intros r1 r2 n1 n2 H1 H2. split; [intros E; rewrite E in H1; congruence|].
    intros <-. apply Hids in H1 as [H1 _], H2 as [H2 _]. congruence.
Qed.

Definition probed (a e : string) (ps : list string) : PingResult :=
  {| ip := a; hostname := "h"; user := "u"; os := "linux"; externalIP := e;
     port := "41641"; pings := ps; group := ""; isp := "" |}.

Definition sample_probed : list PingResult :=
  [probed "100.64.0.1" "203.0.113.5" ["17"; "22"; "19"];
   probed "100.64.0.2" "192.168.1.7" ["3"];
   probed "100.64.0.3" "8.8.8.8" ["40"];
   probed "100.64.0.4" "" [];
   probed "100.64.0.5" "203.0.113.5" ["9"]].

Example assignGroups_sample :
  map group (assignGroups noIPv6 sample_probed) = ["A (2)"; ""; "B (1)"; ""; "A (2)"].
Proof. vm_compute. reflexivity. Qed.

(** * Group labels *)

Lemma small_lor x : 0 <= x < 64 ->
  Z.lor 128 x = 128 + x /\ Z.lor 192 x = 192 + x /\ (x < 16 -> Z.lor 224 x = 224 + x).
Proof.
  intros Hx.
  pose proof (byte_cases
    (fun x => negb (x <? 64) ||
              ((Z.lor 128 x =? 128 + x) && (Z.lor 192 x =? 192 + x) &&
               (negb (x <? 16) || (Z.lor 224 x =? 224 + x))))
    eq_refl x ltac:(unfold is_byte; lia)) as H.
  cbv beta in H.
  destruct (Z.ltb_spec x 64); [|lia]. destruct (Z.ltb_spec x 16); cbn [negb orb] in H; lia.
Qed.

(** The encoding of the code points of one, two and three bytes outside
    the surrogates. *)
Lemma utf8_bytes_value c : 0 <= c < 55296 ->
  utf8_bytes c =
  if c <? 128 then [c]
  else if c <? 2048 then [192 + c / 64; 128 + c mod 64]
  else [224 + c / 4096; 128 + (c / 64) mod 64; 128 + c mod 64].
Proof.
  intros Hc. unfold utf8_bytes.
  replace ((c <? 0) || (1114111 <? c) || (55296 <=? c) && (c <=? 57343)) with false by lia.
  destruct (Z.ltb_spec c 128); [done|].
  change 63 with (Z.ones 6). rewrite !Z.land_ones by lia.
  rewrite !Z.shiftr_div_pow2 by lia. change (2 ^ 6) with 64. change (2 ^ 12) with 4096.
  destruct (Z.ltb_spec c 2048).
  - destruct (small_lor (c / 64)) as (_ & -> & _); [Z.div_mod_to_equations; lia|].
    destruct (small_lor (c mod 64)) as (-> & _ & _); [Z.div_mod_to_equations; lia|]. done.
  - replace (c <? 65536) with true by lia.
    destruct (small_lor (c / 4096)) as (_ & _ & H3); [Z.div_mod_to_equations; lia|].
    rewrite H3 by (Z.div_mod_to_equations; lia).
    destruct (small_lor ((c / 64) mod 64)) as (-> & _ & _); [Z.div_mod_to_equations; lia|].
    destruct (small_lor (c mod 64)) as (-> & _ & _); [Z.div_mod_to_equations; lia|]. done.
Qed.

(** Two byte sequences that differ first at a byte that is smaller in the
    first one. *)
Definition differs_below (u1 u2 : list Z) : Prop :=
  exists p a b s1 s2,
    u1 = p ++ a :: s1 /\ u2 = p ++ b :: s2 /\ 0 <= a < b /\ b < 256.

Lemma byte_string_app u v : byte_string (u ++ v) = byte_string u +:+ byte_string v.
Proof. induction u as [|x u IH]; [done|]. simpl. by rewrite IH. Qed.

Lemma compare_differs_below u1 u2 t1 t2 :
  differs_below u1 u2 ->
  String.compare (byte_string u1 +:+ t1) (byte_string u2 +:+ t2) = Lt.
Proof.
  intros (p & a & b & s1 & s2 & -> & -> & Hab & Hb).
  induction p as [|x p IH]; simpl.
  - unfold Ascii.compare. rewrite !N_ascii_embedding by lia.
    replace (Z.to_N a ?= Z.to_N b)%N with Lt; [done|].
    symmetry. apply N.compare_lt_iff. lia.
  - unfold Ascii.compare. by rewrite N.compare_refl.
Qed.

Lemma utf8_bytes_order c1 c2 : 0 <= c1 -> c1 < c2 -> c2 < 55296 ->
  differs_below (utf8_bytes c1) (utf8_bytes c2).
Proof.
  intros H0 H12 H2. rewrite !utf8_bytes_value by lia. unfold differs_below.
  destruct (Z.ltb_spec c1 128), (Z.ltb_spec c2 128); try lia;
    [| destruct (Z.ltb_spec c2 2048) | destruct (Z.ltb_spec c1 2048), (Z.ltb_spec c2 2048); try lia].
  - exists [], c1, c2, [], []. repeat split; try done; lia.
  - exists [], c1, (192 + c2 / 64), [], [128 + c2 mod 64].
    repeat split; try done; Z.div_mod_to_equations; lia.
  - exists [], c1, (224 + c2 / 4096), [], [128 + (c2 / 64) mod 64; 128 + c2 mod 64].
    repeat split; try done; Z.div_mod_to_equations; lia.
  - destruct (Z.eq_dec (c1 / 64) (c2 / 64)) as [E|E].
    + exists [192 + c1 / 64], (128 + c1 mod 64), (128 + c2 mod 64), [], [].
      rewrite E. repeat split; try done; Z.div_mod_to_equations; lia.
    + exists [], (192 + c1 / 64), (192 + c2 / 64), [128 + c1 mod 64], [128 + c2 mod 64].
      repeat split; try done; Z.div_mod_to_equations; lia.
  - exists [], (192 + c1 / 64), (224 + c2 / 4096), [128 + c1 mod 64],
      [128 + (c2 / 64) mod 64; 128 + c2 mod 64].
    repeat split; try done; Z.div_mod_to_equations; lia.
  - destruct (Z.eq_dec (c1 / 4096) (c2 / 4096)) as [E|E];
      [destruct (Z.eq_dec ((c1 / 64) mod 64) ((c2 / 64) mod 64)) as [E'|E']|].
    + exists [224 + c1 / 4096; 128 + (c1 / 64) mod 64], (128 + c1 mod 64), (128 + c2 mod 64), [], [].
      rewrite E, E'. repeat split; try done; Z.div_mod_to_equations; lia.
    + exists [224 + c1 / 4096], (128 + (c1 / 64) mod 64), (128 + (c2 / 64) mod 64),
        [128 + c1 mod 64], [128 + c2 mod 64].
      rewrite E. repeat split; try done; Z.div_mod_to_equations; lia.
    + exists [], (224 + c1 / 4096), (224 + c2 / 4096),
        [128 + (c1 / 64) mod 64; 128 + c1 mod 64], [128 + (c2 / 64) mod 64; 128 + c2 mod 64].
      repeat split; try done; Z.div_mod_to_equations; lia.
Qed.

(** Up to 55231 groups, the labels order as the identifiers do. *)
Lemma label_order n1 n2 c1 c2 : 1 <= n1 -> n1 < n2 -> n2 <= 55231 ->
  String.ltb (numberToLetterWithCount n1 c1) (numberToLetterWithCount n2 c2) = true.
Proof.
  intros H1 H12 H2. unfold numberToLetterWithCount.
  replace (n1 <=? 0) with false by lia. replace (n2 <=? 0) with false by lia.
  rewrite !(wrap64_small (_ - 1)) by lia. rewrite !(wrap64_small (65 + _)) by lia.
  assert (Hw : forall z, 0 <= z < 2 ^ 31 -> wrap32 z = z).
  { intros z Hz. unfold wrap32. rewrite Z.mod_small; lia. }
  rewrite !Hw by lia. unfold String.ltb, string_of_rune.
  by rewrite compare_differs_below by (apply utf8_bytes_order; lia).
Qed.

Lemma label_nonempty n c : 1 <= n -> numberToLetterWithCount n c <> "".
Proof.
  intros Hn. unfold numberToLetterWithCount. replace (n <=? 0) with false by lia.
  unfold string_of_rune, utf8_bytes.
  repeat match goal with |- context [if ?b then _ else _] => destruct b end; done.
Qed.

(** * The final order *)

Lemma scanLine_group w st line : group (scanLine w st line).1 = group st.1.
Proof.
  unfold scanLine. destruct st as [r reqs]. cbn [fst].
  destruct (publicIPPattern line) as [[m1 m2]|];
    [destruct (getIPInfo w _) as [[i [|]] q]|];
    destruct (pingPattern line); reflexivity.
Qed.

Lemma scanLines_group w lines : forall st,
  group (fold_left (scanLine w) lines st).1 = group st.1.
Proof.
  induction lines as [|l lines IH]; intros st; [done|].
  cbn [fold_left]. by rewrite IH, scanLine_group.
Qed.

Lemma pingIP_group w r c : group (pingIP w r c).1.1 = group r.
Proof.
  unfold pingIP. destruct (supportedOS (GOOS w)); [|done].
  destruct (tailscale_ping w (ip r)) as [output|]; [|done].
  pose proof (scanLines_group w (Split output "010") (r, [])) as H.
  by destruct (fold_left _ _ _).
Qed.

Lemma statusLine_group text r : statusLine text = Some r -> group r = "".
Proof.
  unfold statusLine.
  repeat match goal with |- context [if ?b then _ else _] => destruct b end;
    try discriminate. by intros [= <-].
Qed.

Lemma scanStatus_group output : Forall (fun r => group r = "") (scanStatus output).
Proof.
  unfold scanStatus. generalize (scanLines output). intros lines.
  assert (H : forall acc, Forall (fun r => group r = "") acc ->
     Forall (fun r => group r = "")
       (fold_left (fun results text =>
          match statusLine text with
          | Some result => results ++ [result]
          | None => results
          end) lines acc)).
  { induction lines as [|l lines IH]; intros acc Hacc; [done|]. cbn [fold_left].
    apply IH. destruct (statusLine l) as [r|] eqn:E; [|done].
    apply Forall_app. split; [done|]. constructor; [|constructor].
    by eapply statusLine_group. }
  apply H. constructor.
Qed.

(** The list [main] ranks: every record still has the empty group of the
    directory reader. *)
Lemma probeAll_group w rs :
  getTailscaleStatus w = Some rs -> Forall (fun r => group r = "") (probeAll w rs).
Proof.
  unfold getTailscaleStatus. destruct (supportedOS (GOOS w)); [|discriminate].
  destruct (tailscale_status w) as [output|]; [|discriminate]. intros [= <-].
  unfold probeAll. apply Forall_forall. intros r Hr.
  apply list_elem_of_In, in_map_iff in Hr as (r0 & <- & Hr0). rewrite pingIP_group.
  pose proof (scanStatus_group output) as H. rewrite Forall_forall in H. apply H.
  by apply list_elem_of_In.
Qed.

Lemma string_ltb_empty s : String.ltb "" s = false -> s = "".
Proof. by destruct s. Qed.

Section Order.

Variable parseIPv6 : string -> option Z.
Variable sortSlice : forall A, (A -> A -> bool) -> list A -> list A.
Hypothesis sortSlice_contract : SortSliceContract sortSlice.

Lemma rank_perm rs :
  Permutation (assignGroups parseIPv6 rs) (rank parseIPv6 sortSlice rs).
Proof. unfold rank. apply sortSlice_contract. Qed.

Lemma rank_sorted rs i j a b :
  (i < j)%nat ->
  rank parseIPv6 sortSlice rs !! i = Some a ->
  rank parseIPv6 sortSlice rs !! j = Some b ->
  less b a = false.
Proof.
  intros Hij Ha Hb.
  eapply (SliceIsSorted_pairwise less less_strict_weak); [|done|done|done].
  unfold rank. apply sortSlice_contract, less_strict_weak.
Qed.

(** Every row is the labelled form of a probed record. *)
Lemma rank_row rs a : Z.of_nat (length rs) < 2 ^ 63 ->
  a ∈ rank parseIPv6 sortSlice rs ->
  exists r, r ∈ rs /\ a = labelled parseIPv6 (groupMap_of parseIPv6 rs) rs r.
Proof.
  intros Hlen Ha. rewrite <- (rank_perm rs), assignGroups_map in Ha by done.
  apply list_elem_of_In, in_map_iff in Ha as (r & <- & Hr). exists r.
  split; [by apply list_elem_of_In|done].
Qed.

Lemma labelled_externalIP gm rs r : externalIP (labelled parseIPv6 gm rs r) = externalIP r.
Proof. unfold labelled. by destruct (grouped parseIPv6 r). Qed.

Lemma labelled_pings gm rs r : pings (labelled parseIPv6 gm rs r) = pings r.
Proof. unfold labelled. by destruct (grouped parseIPv6 r). Qed.

Lemma labelled_grouped gm rs r :
  grouped parseIPv6 (labelled parseIPv6 gm rs r) = grouped parseIPv6 r.
Proof. unfold grouped. by rewrite labelled_externalIP. Qed.


End Order.

(** The claim as the specification states it: no peer without a group
    identifier stands before a grouped peer. *)
Definition ungrouped_sort_last (parseIPv6 : string -> option Z) (rows : list PingResult) : Prop :=
  forall i j a b,
    rows !! i = Some a -> rows !! j = Some b ->
    grouped parseIPv6 a = false -> grouped parseIPv6 b = true -> (j < i)%nat.

Definition newline : string := String "010" "".

(** Two peers: the first is reached through a public egress address, the
    second through a relay. *)
Definition world_two_peers : World :=
  {| GOOS := "linux";
     tailscale_version := true;
     tailscale_status :=
       Some ("100.64.0.1  alpha  bob@  linux  -" +:+ newline +:+
             "100.64.0.2  beta   bob@  linux  -" +:+ newline);
     tailscale_ping := fun a =>
       if String.eqb a "100.64.0.1"
       then Some ("pong from alpha (100.64.0.1) via 203.0.113.5:41641 in 17ms" +:+ newline)
       else Some ("pong from beta (100.64.0.2) via DERP(fra) in 20ms" +:+ newline);
     ip_api := fun _ => Some "Example ISP" |}.

Definition row_alpha : PingResult :=
  {| ip := "100.64.0.1"; hostname := "alpha"; user := "bob@"; os := "linux";
     externalIP := "203.0.113.5"; port := "41641"; pings := ["17"];
     group := "A (1)"; isp := "Example ISP" |}.

Definition row_beta : PingResult :=
  {| ip := "100.64.0.2"; hostname := "beta"; user := "bob@"; os := "linux";
     externalIP := ""; port := ""; pings := ["20"]; group := ""; isp := "" |}.

Lemma main_two_peers :
  main noIPv6 insertionSort world_two_peers = Report [row_beta; row_alpha].
Proof. vm_compute. reflexivity. Qed.

(** C1, as stated, fails: the peer without a group is reported first. *)
Lemma ungrouped_peer_reported_first :
  ~ (forall sortSlice w rows,
       SortSliceContract sortSlice ->
       main noIPv6 sortSlice w = Report rows ->
       ungrouped_sort_last noIPv6 rows).
Proof.
  intros H.
  pose proof (H insertionSort world_two_peers _ insertionSort_contract main_two_peers
                0%nat 1%nat row_beta row_alpha eq_refl eq_refl) as H'.
  assert (Hb : grouped noIPv6 row_beta = false) by (vm_compute; reflexivity).
  assert (Ha : grouped noIPv6 row_alpha = true) by (vm_compute; reflexivity).
  specialize (H' Hb Ha). lia.
Qed.

(** C1, amended.  In the report of [main] (for any [sort.Slice] that meets
    its contract): the rows are the grouped records, all of them; for a row
    [a] standing before a row [b], the label of [b] is not byte-wise below
    that of [a]; if [b] has no group then neither has [a], so peers without a
    group come first; among grouped peers the identifiers ascend (while they
    do not exceed 55231, where the labels leave the valid code points);
    within one label the mean of [b] is not below the mean of [a]; and a peer
    without samples has mean 0, so no row before it in its group has a mean
    above 0. *)
Theorem final_report_order (parseIPv6 : string -> option Z)
    (sortSlice : forall A, (A -> A -> bool) -> list A -> list A)
    (w : World) (rs rows : list PingResult) :
  SortSliceContract sortSlice ->
  getTailscaleStatus w = Some rs ->
  Z.of_nat (length rs) < 2 ^ 63 ->
  main parseIPv6 sortSlice w = Report rows ->
  let probed := probeAll w rs in
  let groupMap := groupMap_of parseIPv6 probed in
  Permutation (assignGroups parseIPv6 probed) rows /\
  calculateAverage [] = S754_zero false /\
  forall i j a b,
    (i < j)%nat -> rows !! i = Some a -> rows !! j = Some b ->
    String.ltb (group b) (group a) = false /\
    (grouped parseIPv6 b = false -> grouped parseIPv6 a = false) /\
    (forall na nb,
       groupMap !! externalIP a = Some na -> groupMap !! externalIP b = Some nb ->
       na <= 55231 -> nb <= 55231 -> na <= nb) /\
    (group a = group b ->
     fltb (calculateAverage (pings b)) (calculateAverage (pings a)) = false) /\
    (group a = group b -> pings b = [] ->
     fltb (S754_zero false) (calculateAverage (pings a)) = false).
Proof.
  intros Hc Hst Hlen Hmain probed groupMap.
  assert (Hrows : rows = rank parseIPv6 sortSlice probed).
  { unfold main in Hmain. rewrite Hst in Hmain.
    destruct (negb (checkTailscale w)); [discriminate|].
    destruct (Nat.eqb (length rs) 0); [discriminate|]. by injection Hmain as <-. }
  assert (Hlenp : Z.of_nat (length probed) < 2 ^ 63).
  { unfold probed, probeAll. by rewrite length_map. }
  pose proof (probeAll_group w rs Hst) as Hgrp. fold probed in Hgrp.
  rewrite Forall_forall in Hgrp.
  destruct (groupMap_facts parseIPv6 probed Hlenp) as (Hids & _ & _ & Hpub & _).
  fold groupMap in Hids, Hpub.
  split; [rewrite Hrows; by apply rank_perm|]. split; [reflexivity|].
  intros i j a b Hij Ha Hb. rewrite Hrows in Ha, Hb.
  pose proof (rank_sorted parseIPv6 sortSlice Hc probed i j a b Hij Ha Hb) as Hless.
  apply less_false_iff in Hless as [Hlab Hkey].
  destruct (rank_row parseIPv6 sortSlice Hc probed a Hlenp) as (ra & Hra & Ea);
    [by eapply list_elem_of_lookup_2|].
  destruct (rank_row parseIPv6 sortSlice Hc probed b Hlenp) as (rb & Hrb & Eb);
    [by eapply list_elem_of_lookup_2|].
  fold groupMap in Ea, Eb.
  (* the label of a grouped row *)
  assert (Hlabel : forall x rx n,
            x = labelled parseIPv6 groupMap probed rx ->
            groupMap !! externalIP x = Some n ->
            1 <= n /\
            group x = numberToLetterWithCount n (sharing parseIPv6 probed (externalIP rx))).
  { intros x rx n -> Hn. rewrite labelled_externalIP in Hn.
    destruct (Hpub (externalIP rx)) as [Hne Hp]; [by eexists|].
    split; [by apply Hids in Hn as [_ ?]|].
    unfold labelled, grouped. apply String.eqb_neq in Hne. rewrite Hne, Hp. cbn.
    unfold map_get. by rewrite Hn. }
  assert (Hmean : group a = group b ->
            fltb (calculateAverage (pings b)) (calculateAverage (pings a)) = false).
  { intros E. specialize (Hkey (eq_sym E)).
    destruct (fltb _ _) eqn:Hf; [|done]. destruct Hkey.
    apply fltb_key; [apply calculateAverage_not_nan..|done]. }
  split; [done|]. split; [|split; [|split; [done|]]].
  - (* peers without a group come first *)
    rewrite Ea, Eb, !labelled_grouped. intros Hgb.
    destruct (grouped parseIPv6 ra) eqn:Hga; [|done].
    assert (Egb : group b = "").
    { rewrite Eb. unfold labelled. rewrite Hgb. by apply Hgrp. }
    rewrite Egb in Hlab. apply string_ltb_empty in Hlab.
    destruct (grouped_has_id parseIPv6 probed ra Hlenp Hra Hga) as [n Hn].
    fold groupMap in Hn.
    destruct (Hlabel a ra n Ea) as [Hn1 Hl]; [by rewrite Ea, labelled_externalIP|].
    rewrite Hl in Hlab. destruct (label_nonempty _ _ Hn1 Hlab).
  - (* identifiers ascend *)
    intros na nb Hna Hnb Ha55 Hb55.
    destruct (Hlabel a ra na Ea Hna) as [Hna1 Hla].
    destruct (Hlabel b rb nb Eb Hnb) as [Hnb1 Hlb].
    destruct (Z.le_gt_cases na nb) as [|Hgt]; [done|].
    rewrite Hla, Hlb, label_order in Hlab by lia. discriminate.
  - intros E Hp. specialize (Hmean E). by rewrite Hp in Hmean.
Qed.

Lemma final_report_order_witness :
  exists rs rows,
    getTailscaleStatus world_two_peers = Some rs /\
    main noIPv6 insertionSort world_two_peers = Report rows /\
    Permutation (assignGroups noIPv6 (probeAll world_two_peers rs)) rows.
Proof.
  eexists. eexists.
  split; [reflexivity|]. split; [reflexivity|].
  apply (final_report_order noIPv6 insertionSort world_two_peers _ _
           insertionSort_contract eq_refl).
  - simpl. lia.
  - reflexivity.
Defined.

(** * The fan-out *)

(** On every path [pingIP] adds one to the counter, once. *)
Lemma pingIP_counter w r c : (pingIP w r c).1.2 = atomic_AddInt32 c 1.
Proof.
  unfold pingIP. destruct (supportedOS (GOOS w)); [|done].
  destruct (tailscale_ping w (ip r)); [|done]. by destruct (fold_left _ _ _).
Qed.

(** What [pingIP] writes to its record does not depend on the counter. *)
Lemma pingIP_result w r c c' : (pingIP w r c).1.1 = (pingIP w r c').1.1.
Proof.
  unfold pingIP. destruct (supportedOS (GOOS w)); [|done].
  destruct (tailscale_ping w (ip r)); [|done]. by destruct (fold_left _ _ _).
Qed.

Definition done_count (st : Sched) : nat :=
  length (filter (fun s => is_pending s = false) (slots st)).

Lemma wrap32_add_l a b : wrap32 (wrap32 a + b) = wrap32 (a + b).
Proof.
  unfold wrap32.
  replace ((a + 2 ^ 31) mod 2 ^ 32 - 2 ^ 31 + b + 2 ^ 31)
    with ((a + 2 ^ 31) mod 2 ^ 32 + b) by lia.
  rewrite Zplus_mod_idemp_l. f_equal. f_equal. lia.
Qed.

Lemma wrap32_small z : - 2 ^ 31 <= z < 2 ^ 31 -> wrap32 z = z.
Proof. intros H. unfold wrap32. rewrite Z.mod_small; lia. Qed.

Lemma filter_insert_pending (l : list Slot) i r s' :
  l !! i = Some (Pending r) -> is_pending s' = false ->
  length (filter (fun s => is_pending s = false) (<[i := s']> l)) =
  S (length (filter (fun s => is_pending s = false) l)).
Proof.
  revert i. induction l as [|x l IH]; intros i Hi Hs'; [done|].
  destruct i as [|i]; simpl in *.
  - injection Hi as ->. rewrite !filter_cons. rewrite decide_True by done.
    rewrite decide_False by done. done.
  - rewrite !filter_cons. destruct (decide (is_pending x = false)); simpl; rewrite IH; done.
Qed.

Lemma filter_all {A} (P : A -> Prop) `{forall x, Decision (P x)} (l : list A) :
  Forall P l -> filter P l = l.
Proof.
  induction 1 as [|x l Hx _ IH]; [done|]. by rewrite filter_cons, decide_True, IH.
Qed.

(** The state of any schedule, in terms of the dispatched list. *)
Record SchedInv (w : World) (rs : list PingResult) (st : Sched) : Prop := {
  sched_counter : completed st = wrap32 (Z.of_nat (done_count st));
  sched_slots : forall i,
    slots st !! i = (fun r => Pending r) <$> rs !! i \/
    slots st !! i = (fun r => Done (pingIP w r 0).1.1) <$> rs !! i
}.

Lemma dispatch_inv w rs : SchedInv w rs (dispatch rs).
Proof.
  split.
  - unfold done_count, dispatch. cbn [slots completed].
    assert (H : filter (fun s => is_pending s = false) (map Pending rs) = []).
    { induction rs as [|r rs IH]; [done|]. cbn [map]. rewrite filter_cons.
      by rewrite decide_False. }
    by rewrite H.
  - intros i. left. unfold dispatch. cbn [slots]. apply list_lookup_fmap.
Qed.

Lemma step_inv w rs st st' : SchedInv w rs st -> step w st st' -> SchedInv w rs st'.
Proof.
  intros [Hc Hs] Hstep. destruct Hstep as [st i r Hi]. split; cbn [slots completed].
  - rewrite pingIP_counter. unfold atomic_AddInt32, done_count. cbn [slots].
    rewrite (filter_insert_pending _ i r) by done.
    rewrite Hc, wrap32_add_l. unfold done_count. f_equal. lia.
  - intros j. destruct (decide (i = j)) as [<-|Hne].
    + right. rewrite list_lookup_insert_eq by (by eapply lookup_lt_Some).
      destruct (Hs i) as [H|H]; rewrite Hi in H.
      * destruct (rs !! i) as [r0|]; [|done]. injection H as ->.
        cbn. by rewrite (pingIP_result w r0 (completed st) 0).
      * destruct (rs !! i); done.
    + rewrite list_lookup_insert_ne by done. apply Hs.
Qed.

Lemma steps_inv w rs st st' : SchedInv w rs st -> steps w st st' -> SchedInv w rs st'.
Proof. intros Hinv Hsteps. induction Hsteps; eauto using step_inv. Qed.

Lemma all_done_spec st :
  all_done st = true <-> forall i s, slots st !! i = Some s -> is_pending s = false.
Proof.
  unfold all_done. rewrite forallb_forall. split.
  - intros H i s Hi. specialize (H s). rewrite negb_true_iff in H. apply H.
    by eapply list_elem_of_In, list_elem_of_lookup_2.
  - intros H s [i Hi]%list_elem_of_In%list_elem_of_lookup_1. rewrite negb_true_iff. eauto.
Qed.

Lemma inv_length w rs st : SchedInv w rs st -> length (slots st) = length rs.
Proof.
  intros [_ Hs]. apply Nat.le_antisymm.
  - destruct (Nat.le_gt_cases (length (slots st)) (length rs)) as [|Hlt]; [done|].
    destruct (lookup_lt_is_Some_2 (slots st) (length rs) Hlt) as [s E].
    destruct (Hs (length rs)) as [H|H]; rewrite E in H;
      rewrite lookup_ge_None_2 in H by done; done.
  - destruct (Nat.le_gt_cases (length rs) (length (slots st))) as [|Hlt]; [done|].
    destruct (lookup_lt_is_Some_2 rs (length (slots st)) Hlt) as [r E].
    destruct (Hs (length (slots st))) as [H|H]; rewrite E in H;
      rewrite lookup_ge_None_2 in H by done; done.
Qed.

(** When [wg.Wait()] returns, every slot holds what [pingIP] makes of the
    dispatched record, whatever the schedule was. *)
Lemma finished_slots w rs st :
  steps w (dispatch rs) st -> all_done st = true ->
  map slot_result (slots st) = probeAll w rs /\
  completed st = wrap32 (Z.of_nat (length rs)).
Proof.
  intros Hsteps Hdone.
  pose proof (steps_inv w rs _ _ (dispatch_inv w rs) Hsteps) as Hinv.
  pose proof (inv_length w rs st Hinv) as Hlen.
  destruct Hinv as [Hc Hs]. rewrite all_done_spec in Hdone.
  assert (Hall : forall i, slots st !! i = (fun r => Done (pingIP w r 0).1.1) <$> rs !! i).
  { intros i. destruct (Hs i) as [H|H]; [|done].
    destruct (rs !! i) as [r|] eqn:E; [|done]. cbn in H.
    by specialize (Hdone i _ H). }
  split.
  - apply list_eq. intros i. unfold probeAll. rewrite !list_lookup_fmap, Hall.
    by destruct (rs !! i).
  - rewrite Hc. unfold done_count. f_equal. f_equal. rewrite <- Hlen. f_equal.
    apply filter_all, Forall_forall. intros s [i Hi]%list_elem_of_lookup_1. eauto.
Qed.

(** A run that takes the goroutines in the given order (indices that are
    not pending are passed over). *)
Definition run_one (w : World) (st : Sched) (i : nat) : Sched :=
  match slots st !! i with
  | Some (Pending r) =>
      {| slots := <[i := Done (pingIP w r (completed st)).1.1]> (slots st);
         completed := (pingIP w r (completed st)).1.2 |}
  | _ => st
  end.

Definition run_schedule (w : World) (st : Sched) (order : list nat) : Sched :=
  fold_left (run_one w) order st.

Lemma steps_trans w st1 st2 st3 : steps w st1 st2 -> steps w st2 st3 -> steps w st1 st3.
Proof. induction 1; eauto using steps_cons. Qed.

Lemma run_schedule_steps w order : forall st, steps w st (run_schedule w st order).
Proof.
  induction order as [|i order IH]; intros st; [apply steps_refl|].
  unfold run_schedule. cbn [fold_left]. eapply steps_trans; [|apply IH].
  unfold run_one. destruct (slots st !! i) as [[r|r]|] eqn:E; try apply steps_refl.
  eapply steps_cons; [by apply step_run|apply steps_refl].
Qed.

(** Taking the goroutines in dispatch order ends with every slot done: the
    fan-out can always finish. *)
Lemma run_in_order w post : forall finished c,
  Forall (fun s => is_pending s = false) finished ->
  exists st,
    steps w {| slots := finished ++ map Pending post; completed := c |} st /\
    all_done st = true.
Proof.
  induction post as [|r post IH]; intros finished c Hf.
  - eexists. split; [apply steps_refl|]. unfold all_done. cbn [slots map].
    rewrite app_nil_r. apply forallb_forall. intros s Hs%list_elem_of_In.
    rewrite Forall_forall in Hf. by rewrite (Hf s Hs).
  - set (st0 := {| slots := finished ++ map Pending (r :: post); completed := c |}).
    destruct (IH (finished ++ [Done (pingIP w r c).1.1]) (pingIP w r c).1.2) as (st & Hst & Hd).
    { apply Forall_app. split; [done|]. by constructor. }
    exists st. split; [|done]. eapply steps_cons; [|exact Hst].
    assert (Hi : slots st0 !! length finished = Some (Pending r)).
    { unfold st0. cbn [slots map]. by rewrite list_lookup_middle. }
    pose proof (step_run w st0 (length finished) r Hi) as Hstep.
    unfold st0 in Hstep at 2 3 4. cbn [slots completed map] in Hstep.
    rewrite insert_app_r_alt, Nat.sub_diag in Hstep by done. cbn [insert list_insert] in Hstep.
    by rewrite <- app_assoc.
Qed.

(** C5.  [pingIP] adds one to the shared counter on every path, once; the
    fan-out can always run to the end; and when every goroutine has
    finished, under whatever schedule, the counter is the number of
    dispatched peers. *)
Theorem completed_counts_every_peer (w : World) (rs : list PingResult) :
  Z.of_nat (length rs) < 2 ^ 31 ->
  (forall r c, (pingIP w r c).1.2 = atomic_AddInt32 c 1) /\
  (exists st, steps w (dispatch rs) st /\ all_done st = true) /\
  (forall st, steps w (dispatch rs) st -> all_done st = true ->
              completed st = Z.of_nat (length rs)).
Proof.
  intros Hlen. split; [apply pingIP_counter|]. split.
  - apply (run_in_order w rs [] 0). constructor.
  - intros st Hsteps Hdone. destruct (finished_slots w rs st Hsteps Hdone) as [_ ->].
    apply wrap32_small. lia.
Qed.

Definition two_peers : list PingResult := scanStatus
  ("100.64.0.1  alpha  bob@  linux  -" +:+ newline +:+
   "100.64.0.2  beta   bob@  linux  -" +:+ newline).

Lemma completed_counts_every_peer_witness :
  Z.of_nat (length two_peers) < 2 ^ 31 /\
  completed (run_schedule world_two_peers (dispatch two_peers) [1%nat; 0%nat]) =
  Z.of_nat (length two_peers).
Proof.
  assert (H : Z.of_nat (length two_peers) < 2 ^ 31) by (vm_compute; reflexivity).
  split; [exact H|].
  apply (completed_counts_every_peer world_two_peers two_peers H).
  - apply run_schedule_steps.
  - vm_compute. reflexivity.
Defined.

(** * Parsing the probe output *)

(** The first latency marker of every line that has one, in line order. *)
Fixpoint lineSamples (lines : list string) : list string :=
  match lines with
  | [] => []
  | line :: rest =>
      match pingPattern line with
      | Some n => n :: lineSamples rest
      | None => lineSamples rest
      end
  end.

(** The first egress marker of every line that has one, in line order. *)
Fixpoint lineEgresses (lines : list string) : list (string * string) :=
  match lines with
  | [] => []
  | line :: rest =>
      match publicIPPattern line with
      | Some m => m :: lineEgresses rest
      | None => lineEgresses rest
      end
  end.

(** Every latency marker of a text, wherever it stands: the reading of the
    claim. *)
Fixpoint everySample (s : string) : list string :=
  match pingPatternAt s with Some n => [n] | None => [] end ++
  match s with
  | EmptyString => []
  | String _ rest => everySample rest
  end.

Fixpoint everyEgress (s : string) : list (string * string) :=
  match publicIPPatternAt s with Some m => [m] | None => [] end ++
  match s with
  | EmptyString => []
  | String _ rest => everyEgress rest
  end.

Definition lookupURL (addr : string) : string := "http://ip-api.com/json/" +:+ addr.

Lemma lineSamples_app l1 l2 : lineSamples (l1 ++ l2) = lineSamples l1 ++ lineSamples l2.
Proof.
  induction l1 as [|l l1 IH]; [done|]. simpl. destruct (pingPattern l); simpl; by rewrite IH.
Qed.

Lemma lineEgresses_app l1 l2 : lineEgresses (l1 ++ l2) = lineEgresses l1 ++ lineEgresses l2.
Proof.
  induction l1 as [|l l1 IH]; [done|]. simpl. destruct (publicIPPattern l); simpl; by rewrite IH.
Qed.

Lemma digits1_nonempty s ds tl : digits1 s = Some (ds, tl) -> ds <> "".
Proof.
  unfold digits1. destruct (spanDigits s) as [[|c d] t]; [discriminate|].
  by intros [= <- _].
Qed.

(** The captured address is never empty, so the guard of [getIPInfo] on the
    empty string is never taken from [pingIP]. *)
Lemma publicIPPatternAt_nonempty s m : publicIPPatternAt s = Some m -> m.1 <> "".
Proof.
  unfold publicIPPatternAt.
  repeat match goal with
         | |- context [match ?x with Some _ => _ | None => _ end] =>
             let E := fresh "E" in destruct x as [[? ?]|] eqn:E || destruct x eqn:E
         end; try discriminate.
  intros [= <-]. cbn [fst].
  match goal with H : digits1 _ = Some (?a, _) |- ?a +:+ _ <> _ =>
    apply digits1_nonempty in H; destruct a; [done|discriminate] end.
Qed.

Lemma findFirst_some {A} (f : string -> option A) (P : A -> Prop) :
  (forall s m, f s = Some m -> P m) -> forall s m, findFirst f s = Some m -> P m.
Proof.
  intros Hf s. induction s as [|c s IH]; intros m; simpl.
  - destruct (f "") eqn:E; [|discriminate]. intros [= <-]. eauto.
  - destruct (f (String c s)) eqn:E; [intros [= <-]; eauto|]. apply IH.
Qed.

Lemma publicIPPattern_nonempty line m : publicIPPattern line = Some m -> m.1 <> "".
Proof.
  exact (findFirst_some publicIPPatternAt (fun m => m.1 <> "") publicIPPatternAt_nonempty line m).
Qed.

(** The scanning loop over the lines, in closed form. *)
Lemma scanLines_spec w lines : forall r reqs,
  let st := fold_left (scanLine w) lines (r, reqs) in
  pings st.1 = pings r ++ lineSamples lines /\
  (externalIP st.1, port st.1) =
    default (externalIP r, port r) (last (lineEgresses lines)) /\
  st.2 = reqs ++ map (fun m => lookupURL m.1) (lineEgresses lines).
Proof.
  induction lines as [|line lines IH] using rev_ind; intros r reqs st.
  - unfold st. simpl. by rewrite !app_nil_r.
  - unfold st. rewrite fold_left_app. cbn [fold_left].
    destruct (IH r reqs) as (Hp & He & Hr).
    destruct (fold_left (scanLine w) lines (r, reqs)) as [r1 q1]. cbn [fst snd] in *.
    rewrite lineSamples_app, lineEgresses_app. cbn [lineSamples lineEgresses].
    unfold scanLine.
    destruct (publicIPPattern line) as [[m1 m2]|] eqn:Ev.
    + pose proof (publicIPPattern_nonempty line _ Ev) as Hne. cbn [fst] in Hne.
      unfold getIPInfo. cbn [set_egress externalIP].
      apply String.eqb_neq in Hne. rewrite Hne.
      rewrite last_snoc, map_app. cbn [map default fst].
      destruct (ip_api w m1); destruct (pingPattern line); cbn;
        rewrite ?Hp, ?Hr, ?app_nil_r, <- ?app_assoc; done.
    + rewrite !app_nil_r.
      destruct (pingPattern line); cbn; rewrite ?Hp, ?app_nil_r, <- ?app_assoc; done.
Qed.

Lemma pingIP_unfold w r c :
  pingIP w r c =
  if supportedOS (GOOS w) then
    match tailscale_ping w (ip r) with
    | None => (r, atomic_AddInt32 c 1, [])
    | Some output =>
        ((fold_left (scanLine w) (Split output "010") (r, [])).1,
         atomic_AddInt32 c 1,
         (fold_left (scanLine w) (Split output "010") (r, [])).2)
    end
  else (r, atomic_AddInt32 c 1, []).
Proof.
  unfold pingIP. destruct (supportedOS (GOOS w)); [|done].
  destruct (tailscale_ping w (ip r)); [|done]. by destruct (fold_left _ _ _).
Qed.

(** The transcript of the specification's example. *)
Definition example_transcript : string :=
  "pong from peer (100.64.0.7) via 203.0.113.5:41641 in 17ms" +:+ newline +:+
  "pong from peer (100.64.0.7) via DERP(fra) in 22ms" +:+ newline +:+
  "pong from peer (100.64.0.7) via DERP(fra) in 19ms" +:+ newline.

Definition example_world (output : string) : World :=
  {| GOOS := "linux"; tailscale_version := true; tailscale_status := None;
     tailscale_ping := fun _ => Some output;
     ip_api := fun _ => Some "Example ISP" |}.

Definition fresh_peer : PingResult :=
  {| ip := "100.64.0.7"; hostname := "peer"; user := "bob@"; os := "linux";
     externalIP := ""; port := ""; pings := []; group := ""; isp := "" |}.

(** C8, as stated: the samples are all latency markers of the output. *)
Definition extracts_every_marker : Prop :=
  forall w r c output,
    supportedOS (GOOS w) = true -> tailscale_ping w (ip r) = Some output ->
    pings (pingIP w r c).1.1 = pings r ++ everySample output.

(** It fails on a line with two markers: only the first is taken. *)
Lemma second_marker_of_a_line_is_dropped : ~ extracts_every_marker.
Proof.
  intros H.
  specialize (H (example_world "pong in 5ms in 6ms") fresh_peer 0 _ eq_refl eq_refl).
  vm_compute in H. discriminate.
Qed.

(** C8, amended.  Parsing takes the output line by line: the samples are the
    first latency marker of every line that has one, in line order, and the
    egress descriptor is the first egress marker of the last line that has
    one (the record keeps what it had when no line has one).  For the
    example transcript this gives egress 203.0.113.5:41641, samples 17, 22,
    19 and a mean between 19.33 and 19.34. *)
Theorem probe_output_parsing (w : World) (r : PingResult) (c : Z) (output : string) :
  supportedOS (GOOS w) = true ->
  tailscale_ping w (ip r) = Some output ->
  let r' := (pingIP w r c).1.1 in
  let lines := Split output "010" in
  (pings r' = pings r ++ lineSamples lines /\
   (externalIP r', port r') = default (externalIP r, port r) (last (lineEgresses lines))) /\
  (lineSamples (Split example_transcript "010") = ["17"; "22"; "19"] /\
   last (lineEgresses (Split example_transcript "010")) = Some ("203.0.113.5", "41641") /\
   (1933 # 100 <= float64_to_Q (calculateAverage ["17"; "22"; "19"]))%Q /\
   (float64_to_Q (calculateAverage ["17"; "22"; "19"]) < 1934 # 100)%Q).
Proof.
  intros Hos Hping r' lines. split.
  - unfold r'. rewrite pingIP_unfold, Hos, Hping. cbn [fst].
    destruct (scanLines_spec w (Split output "010") r []) as (Hp & He & _). done.
  - split; [by vm_compute|]. split; [by vm_compute|]. split; by vm_compute.
Qed.

Lemma probe_output_parsing_witness :
  supportedOS (GOOS (example_world example_transcript)) = true /\
  pings (pingIP (example_world example_transcript) fresh_peer 0).1.1 =
    pings fresh_peer ++ lineSamples (Split example_transcript "010").
Proof.
  split; [reflexivity|].
  apply (probe_output_parsing (example_world example_transcript) fresh_peer 0
           example_transcript eq_refl eq_refl).
Defined.

Example example_transcript_parsed :
  (pingIP (example_world example_transcript) fresh_peer 0).1.1 =
  {| ip := "100.64.0.7"; hostname := "peer"; user := "bob@"; os := "linux";
     externalIP := "203.0.113.5"; port := "41641"; pings := ["17"; "22"; "19"];
     group := ""; isp := "Example ISP" |}.
Proof. vm_compute. reflexivity. Qed.

(** C9, as stated: a peer that ends with no egress address or with one that
    is not public has caused no lookup. *)
Definition lookup_only_for_public (parseIPv6 : string -> option Z) : Prop :=
  forall w r c,
    externalIP (pingIP w r c).1.1 = "" \/
    isPublicIP parseIPv6 (externalIP (pingIP w r c).1.1) = false ->
    (pingIP w r c).2 = [].

(** It fails for a peer reached through a private-range address. *)
Lemma private_egress_is_looked_up : ~ lookup_only_for_public noIPv6.
Proof.
  intros H.
  specialize (H (example_world "pong from peer (100.64.0.7) via 192.168.1.7:41641 in 3ms")
                fresh_peer 0).
  assert (Hp : isPublicIP noIPv6 "192.168.1.7" = false) by (vm_compute; reflexivity).
  assert (He : externalIP (pingIP (example_world
                 "pong from peer (100.64.0.7) via 192.168.1.7:41641 in 3ms") fresh_peer 0).1.1
               = "192.168.1.7") by (vm_compute; reflexivity).
  rewrite He in H. specialize (H (or_intror Hp)).
  vm_compute in H. discriminate.
Qed.

Lemma lineEgresses_nonempty lines m : m ∈ lineEgresses lines -> m.1 <> "".
Proof.
  induction lines as [|l lines IH]; simpl; [by intros ?%elem_of_nil|].
  destruct (publicIPPattern l) as [m'|] eqn:E; [|done].
  intros [->|?]%elem_of_cons; [|by apply IH]. by eapply publicIPPattern_nonempty.
Qed.

(** C9, amended.  [pingIP] requests the lookup once for every output line
    that carries an egress marker, for the address of that marker, whether
    public or not; it requests none when the probe fails or the platform is
    unsupported, and a peer that had no egress address and ends with none
    has caused no request. *)
Theorem lookup_requests (w : World) (r : PingResult) (c : Z) :
  (pingIP w r c).2 =
    (if supportedOS (GOOS w) then
       match tailscale_ping w (ip r) with
       | Some output =>
           map (fun m => lookupURL m.1) (lineEgresses (Split output "010"))
       | None => []
       end
     else []) /\
  (externalIP r = "" -> externalIP (pingIP w r c).1.1 = "" -> (pingIP w r c).2 = []).
Proof.
  rewrite pingIP_unfold.
  destruct (supportedOS (GOOS w)); [|done].
  destruct (tailscale_ping w (ip r)) as [output|]; [|done]. cbn [fst snd].
  destruct (scanLines_spec w (Split output "010") r []) as (_ & He & Hr).
  split; [done|]. intros Hr0 Hr1. rewrite Hr. 
  destruct (last (lineEgresses (Split output "010"))) as [m|] eqn:El.
  - cbn [default] in He. destruct m as [e p]. injection He as He _.
    destruct (lineEgresses_nonempty (Split output "010") (e, p)); [|cbn [fst]; congruence].
    apply last_Some in El as [l' ->]. apply elem_of_app. right. by apply list_elem_of_singleton.
  - apply last_None in El. by rewrite El.
Qed.

(** * The directory reader *)

(** No byte of the string is a letter of "Self". *)
Fixpoint noSelf (s : string) : bool :=
  match s with
  | EmptyString => true
  | String c rest =>
      negb (Ascii.eqb c "S" || Ascii.eqb c "e" || Ascii.eqb c "l" || Ascii.eqb c "f")
      && noSelf rest
  end.

Lemma append_cons x (a b : string) : String x a +:+ b = String x (a +:+ b).
Proof. reflexivity. Qed.

Lemma append_assoc (a b c : string) : (a +:+ b) +:+ c = a +:+ (b +:+ c).
Proof. induction a as [|x a IH]; [done|]. by rewrite !append_cons, IH. Qed.

Lemma append_nil_r (a : string) : a +:+ "" = a.
Proof. induction a as [|x a IH]; [done|]. by rewrite append_cons, IH. Qed.

Lemma rev_app_append a : forall c, String.rev_app a c = String.rev_app a "" +:+ c.
Proof.
  induction a as [|x a IH]; intros c; [done|]. simpl.
  rewrite (IH (String x c)), (IH (String x "")), append_assoc. done.
Qed.

Lemma rev_append a b : String.rev (a +:+ b) = String.rev b +:+ String.rev a.
Proof.
  unfold String.rev. revert b. induction a as [|x a IH]; intros b.
  - simpl. by rewrite append_nil_r.
  - simpl. rewrite (rev_app_append (a +:+ b)), IH, (rev_app_append a (String x "")).
    by rewrite append_assoc.
Qed.

Lemma rev_cons x s : String.rev (String x s) = String.rev s +:+ String x "".
Proof. unfold String.rev. simpl. apply rev_app_append. Qed.

Lemma rev_involutive s : String.rev (String.rev s) = s.
Proof.
  induction s as [|x s IH]; [done|]. by rewrite rev_cons, rev_append, IH.
Qed.

Lemma noSelf_append a b : noSelf (a +:+ b) = noSelf a && noSelf b.
Proof. induction a as [|x a IH]; [done|]. simpl. by rewrite IH, andb_assoc. Qed.

Lemma noSelf_rev s : noSelf (String.rev s) = noSelf s.
Proof.
  induction s as [|x s IH]; [done|]. rewrite rev_cons, noSelf_append, IH. simpl.
  rewrite andb_true_r. apply andb_comm.
Qed.

(** A white-space byte is no letter. *)
Lemma asciiSpace_noSelf a : asciiSpace a = true -> noSelf (String a "") = true.
Proof.
  intros H. simpl. rewrite andb_true_r.
  destruct (Ascii.eqb_spec a "S") as [->|]; [discriminate|].
  destruct (Ascii.eqb_spec a "e") as [->|]; [discriminate|].
  destruct (Ascii.eqb_spec a "l") as [->|]; [discriminate|].
  destruct (Ascii.eqb_spec a "f") as [->|]; [discriminate|]. done.
Qed.

Lemma high_byte_noSelf a : (128 <=? byte_of a) = true -> noSelf (String a "") = true.
Proof.
  intros H. simpl. rewrite andb_true_r.
  destruct (Ascii.eqb_spec a "S") as [->|]; [discriminate|].
  destruct (Ascii.eqb_spec a "e") as [->|]; [discriminate|].
  destruct (Ascii.eqb_spec a "l") as [->|]; [discriminate|].
  destruct (Ascii.eqb_spec a "f") as [->|]; [discriminate|]. done.
Qed.

Lemma space2_noSelf a b : space2 a b = true ->
  noSelf (String a (String b "")) = true.
Proof.
  unfold space2. intros H.
  change (String a (String b "")) with (String a "" +:+ String b "").
  rewrite noSelf_append, !high_byte_noSelf by lia. done.
Qed.

Lemma space3_noSelf a b c : space3 a b c = true ->
  noSelf (String a (String b (String c ""))) = true.
Proof.
  unfold space3. intros H.
  change (String a (String b (String c "")))
    with (String a "" +:+ (String b "" +:+ String c "")).
  rewrite !noSelf_append, !high_byte_noSelf by lia. done.
Qed.

(** [trimLeft] removes a prefix without letters of "Self". *)
Lemma trimLeft_split n : forall s, (String.length s <= n)%nat ->
  exists pre, s = pre +:+ trimLeft s /\ noSelf pre = true.
Proof.
  induction n as [|n IH]; intros s Hn.
  - destruct s; [|simpl in Hn; lia]. by exists "".
  - destruct s as [|a r1]; [by exists ""|]. simpl in Hn. cbn [trimLeft].
    destruct (asciiSpace a) eqn:Ha.
    { destruct (IH r1 ltac:(lia)) as (pre & E & Hp). exists (String a pre). split.
      - by rewrite !append_cons, <- E.
      - change (String a pre) with (String a "" +:+ pre).
        by rewrite noSelf_append, asciiSpace_noSelf, Hp. }
    destruct r1 as [|b r2]; [by exists ""|]. simpl in Hn.
    destruct (space2 a b) eqn:Hab.
    { destruct (IH r2 ltac:(lia)) as (pre & E & Hp). exists (String a (String b pre)). split.
      - by rewrite !append_cons, <- E.
      - change (String a (String b pre)) with (String a (String b "") +:+ pre).
        by rewrite noSelf_append, space2_noSelf, Hp. }
    destruct r2 as [|c r3]; [by exists ""|]. simpl in Hn.
    destruct (space3 a b c) eqn:Habc; [|by exists ""].
    destruct (IH r3 ltac:(lia)) as (pre & E & Hp).
    exists (String a (String b (String c pre))). split.
    + by rewrite !append_cons, <- E.
    + change (String a (String b (String c pre)))
        with (String a (String b (String c "")) +:+ pre).
      by rewrite noSelf_append, space3_noSelf, Hp.
Qed.

Lemma trimLeftRev_split n : forall s, (String.length s <= n)%nat ->
  exists pre, s = pre +:+ trimLeftRev s /\ noSelf pre = true.
Proof.
  induction n as [|n IH]; intros s Hn.
  - destruct s; [|simpl in Hn; lia]. by exists "".
  - destruct s as [|a r1]; [by exists ""|]. simpl in Hn. cbn [trimLeftRev].
    destruct (asciiSpace a) eqn:Ha.
    { destruct (IH r1 ltac:(lia)) as (pre & E & Hp). exists (String a pre). split.
      - by rewrite !append_cons, <- E.
      - change (String a pre) with (String a "" +:+ pre).
        by rewrite noSelf_append, asciiSpace_noSelf, Hp. }
    destruct r1 as [|b r2]; [by exists ""|]. simpl in Hn.
    destruct (space2 b a) eqn:Hab.
    { destruct (IH r2 ltac:(lia)) as (pre & E & Hp). exists (String a (String b pre)). split.
      - by rewrite !append_cons, <- E.
      - change (String a (String b pre)) with (String a "" +:+ (String b "" +:+ pre)).
        apply space2_noSelf in Hab.
        change (String b (String a "")) with (String b "" +:+ String a "") in Hab.
        rewrite noSelf_append in Hab. apply andb_prop in Hab as [Hb Ha'].
        by rewrite !noSelf_append, Ha', Hb, Hp. }
    destruct r2 as [|c r3]; [by exists ""|]. simpl in Hn.
    destruct (space3 c b a) eqn:Habc; [|by exists ""].
    destruct (IH r3 ltac:(lia)) as (pre & E & Hp).
    exists (String a (String b (String c pre))). split.
    + by rewrite !append_cons, <- E.
    + change (String a (String b (String c pre)))
        with (String a "" +:+ (String b "" +:+ (String c "" +:+ pre))).
      apply space3_noSelf in Habc.
      change (String c (String b (String a "")))
        with (String c "" +:+ (String b "" +:+ String a "")) in Habc.
      rewrite !noSelf_append in Habc.
      apply andb_prop in Habc as [Hc Hba]. apply andb_prop in Hba as [Hb Ha'].
      by rewrite !noSelf_append, Ha', Hb, Hc, Hp.
Qed.

(** [TrimSpace] keeps a middle part and drops two parts without letters of
    "Self". *)
Lemma TrimSpace_split s :
  exists pre post, s = pre +:+ TrimSpace s +:+ post /\
                   noSelf pre = true /\ noSelf post = true.
Proof.
  destruct (trimLeft_split _ s (Nat.le_refl _)) as (pre & E1 & Hpre).
  destruct (trimLeftRev_split _ (String.rev (trimLeft s)) (Nat.le_refl _)) as (q & E2 & Hq).
  exists pre, (String.rev q). split; [|split; [done|by rewrite noSelf_rev]].
  unfold TrimSpace, trimRight. rewrite <- rev_append, <- E2, rev_involutive. exact E1.
Qed.

(** A string without letters of "Self" does not contain it, and dropping
    such a string at either end changes nothing. *)
Lemma noSelf_Contains p m : noSelf p = true ->
  Contains (p +:+ m) "Self" = Contains m "Self".
Proof.
  induction p as [|a p IH]; [done|]. intros H. rewrite append_cons.
  cbn [noSelf] in H. apply andb_prop in H as [Ha Hp].
  cbn [Contains HasPrefix]. rewrite (IH Hp).
  destruct (Ascii.eqb a "S"); [discriminate|]. done.
Qed.

Lemma noSelf_HasPrefix m q : noSelf q = true ->
  HasPrefix (m +:+ q) "Self" = HasPrefix m "Self".
Proof.
  intros Hq.
  assert (Hhd : forall t, HasPrefix q (String "S" t) = false
                          /\ HasPrefix q (String "e" t) = false
                          /\ HasPrefix q (String "l" t) = false
                          /\ HasPrefix q (String "f" t) = false).
  { intros t. destruct q as [|x q]; [done|]. cbn [noSelf] in Hq.
    apply andb_prop in Hq as [Hx _]. cbn [HasPrefix].
    destruct (Ascii.eqb x "S"), (Ascii.eqb x "e"), (Ascii.eqb x "l"),
      (Ascii.eqb x "f"); done. }
  destruct m as [|a [|b [|c [|d m]]]]; rewrite ?append_cons;
    change ("" +:+ q) with q; cbn [HasPrefix].
  - apply Hhd.
  - destruct (Ascii.eqb a "S"); [|done]. apply Hhd.
  - destruct (Ascii.eqb a "S"); [|done]. destruct (Ascii.eqb b "e"); [|done]. apply Hhd.
  - destruct (Ascii.eqb a "S"); [|done]. destruct (Ascii.eqb b "e"); [|done].
    destruct (Ascii.eqb c "l"); [|done]. apply Hhd.
  - assert (Hnil : forall t, HasPrefix t "" = true) by (by intros [|]).
    by rewrite !Hnil.
Qed.

Lemma Contains_noSelf q : noSelf q = true -> Contains q "Self" = false.
Proof.
  intros H. rewrite <- (append_nil_r q). by rewrite noSelf_Contains.
Qed.

Lemma Contains_noSelf_r m q : noSelf q = true ->
  Contains (m +:+ q) "Self" = Contains m "Self".
Proof.
  intros Hq. induction m as [|a m IH].
  - change ("" +:+ q) with q. by rewrite Contains_noSelf.
  - rewrite append_cons.
    change (Contains (String a (m +:+ q)) "Self")
      with (HasPrefix (String a (m +:+ q)) "Self" || Contains (m +:+ q) "Self").
    change (Contains (String a m) "Self")
      with (HasPrefix (String a m) "Self" || Contains m "Self").
    rewrite IH, <- append_cons, noSelf_HasPrefix; done.
Qed.

(** Trimming neither creates nor destroys an occurrence of "Self". *)
Lemma Contains_TrimSpace s : Contains (TrimSpace s) "Self" = Contains s "Self".
Proof.
  destruct (TrimSpace_split s) as (pre & post & E & Hpre & Hpost).
  rewrite E at 2. by rewrite noSelf_Contains, Contains_noSelf_r.
Qed.

(** The scanning loop as a map over the lines. *)
Definition lineRecords (lines : list string) : list PingResult :=
  flat_map (fun text => option_list (statusLine text)) lines.

Lemma scanStatus_lineRecords output :
  scanStatus output = lineRecords (scanLines output).
Proof.
  unfold scanStatus, lineRecords.
  generalize (scanLines output). intros lines.
  induction lines as [|text lines IH] using rev_ind; [done|].
  rewrite fold_left_app, flat_map_app, IH. cbn [fold_left flat_map].
  destruct (statusLine text); cbn [option_list]; by rewrite ?app_nil_r.
Qed.

Lemma statusLine_Self text : Contains text "Self" = true -> statusLine text = None.
Proof.
  intros H. unfold statusLine. cbv zeta. rewrite Contains_TrimSpace, H.
  by rewrite !orb_true_r.
Qed.

Lemma lineRecords_without_Self lines :
  lineRecords lines =
  lineRecords (List.filter (fun text => negb (Contains text "Self")) lines).
Proof.
  induction lines as [|text lines IH]; [done|]. cbn [List.filter lineRecords flat_map].
  destruct (Contains text "Self") eqn:E; cbn [negb].
  - rewrite (statusLine_Self _ E). exact IH.
  - cbn [lineRecords flat_map]. f_equal. exact IH.
Qed.

(** A status listing in which two of three remote peers carry "Self" in the
    host name or in the owner. *)
Definition status_with_Self : string :=
  "100.64.0.1   laptop       alice@       linux   -" +:+ newline +:+
  "100.64.0.2   MySelfie     bob@         linux   active; direct 198.51.100.7:41641" +:+ newline +:+
  "100.64.0.3   nas          Selfridge@   linux   idle" +:+ newline.

(** C10.  A line of the status listing that contains "Self" anywhere, before
    or after trimming, contributes no record: the peer list is the one the
    listing without such lines yields, and no record of the list comes from
    such a line.  In the example listing the peers named MySelfie and owned
    by Selfridge@ are dropped although they are remote nodes, and only the
    laptop remains. *)
Theorem lines_with_Self_are_excluded :
  (forall text, Contains text "Self" = true -> statusLine text = None) /\
  (forall output,
     scanStatus output =
     lineRecords (List.filter (fun text => negb (Contains text "Self")) (scanLines output))) /\
  (forall output r, r ∈ scanStatus output ->
     exists text, text ∈ scanLines output /\ Contains text "Self" = false /\
                  statusLine text = Some r) /\
  map hostname (scanStatus status_with_Self) = ["laptop"].
Proof.
  split; [exact statusLine_Self|]. split; [|split].
  - intros output. rewrite scanStatus_lineRecords. apply lineRecords_without_Self.
  - intros output r. rewrite scanStatus_lineRecords. unfold lineRecords.
    intros Hr. apply list_elem_of_In, in_flat_map in Hr as (text & Hin & Hr).
    exists text. split; [by apply list_elem_of_In|].
    destruct (statusLine text) as [r'|] eqn:Es; [|by destruct Hr].
    destruct Hr as [->|[]]. split; [|done].
    destruct (Contains text "Self") eqn:E; [|done].
    by rewrite (statusLine_Self _ E) in Es.
  - by vm_compute.
Qed.

(** The same through [getTailscaleStatus], and the two peers are listed once
    "Self" is taken out of their names. *)
Lemma getTailscaleStatus_drops_Self :
  let w := {| GOOS := "linux"; tailscale_version := true;
              tailscale_status := Some status_with_Self;
              tailscale_ping := fun _ => None; ip_api := fun _ => None |} in
  option_map (map hostname) (getTailscaleStatus w) = Some ["laptop"] /\
  map hostname (scanStatus
    ("100.64.0.1   laptop       alice@       linux   -" +:+ newline +:+
     "100.64.0.2   Myelfie      bob@         linux   active; direct 198.51.100.7:41641" +:+ newline +:+
     "100.64.0.3   nas          elfridge@    linux   idle" +:+ newline))
  = ["laptop"; "Myelfie"; "nas"].
Proof. split; by vm_compute. Qed.

(** * Further properties of the report's ordering and labels *)

(** X1.  [calculateAverage] never yields NaN, whatever the sample strings
    are (unparsable, negative, overflowing the sum): the divisor is the
    positive length of the list, and for the empty list the function
    returns 0 before dividing. *)
Theorem calculateAverage_is_never_NaN (pings : list string) :
  calculateAverage pings <> S754_nan /\ calculateAverage [] = S754_zero false.
Proof. split; [apply calculateAverage_not_nan | reflexivity]. Qed.

(** X2.  The comparison [main] hands to [sort.Slice] is a strict weak
    ordering on all records: irreflexive, transitive, and with transitive
    incomparability.  So [sort.Slice] is used within its contract, whatever
    the probes returned. *)
Theorem report_comparison_is_strict_weak : StrictWeak less.
Proof. exact less_strict_weak. Qed.

Lemma append_cancel_l (p a b : string) : p +:+ a = p +:+ b -> a = b.
Proof. induction p as [|x p IH]; [done|]. intros H. injection H as H. auto. Qed.

Lemma append_snoc_cancel (a b : string) (x : ascii) :
  a +:+ String x "" = b +:+ String x "" -> a = b.
Proof.
  revert b. induction a as [|y a IH]; intros [|z b] H.
  - done.
  - injection H as _ H. by destruct b.
  - injection H as _ H. by destruct a.
  - injection H as -> H. f_equal. auto.
Qed.

Lemma Itoa_inj (c1 c2 : Z) : Itoa c1 = Itoa c2 -> c1 = c2.
Proof.
  unfold Itoa. intros H.
  assert (Hnn : forall n, Z.to_int n <> Decimal.Pos Decimal.Nil /\
                          Z.to_int n <> Decimal.Neg Decimal.Nil).
  { intros [|p|p]; cbn; (split; [|try discriminate]); try discriminate;
      intros E; injection E as E; by apply DecimalPos.Unsigned.to_uint_nonnil in E. }
  assert (E : Some (Z.to_int c1) = Some (Z.to_int c2)).
  { rewrite <- (NilZero.isi (Z.to_int c1)), <- (NilZero.isi (Z.to_int c2)) by apply Hnn.
    by rewrite H. }
  injection E as E. rewrite <- (DecimalZ.of_to c1), <- (DecimalZ.of_to c2). by rewrite E.
Qed.

(** X3.  For identifiers 1 to 63 the label is the single ASCII character
    with code 64 + n followed by the count in parentheses: the capital
    letters A to Z for 1 to 26, and after Z the characters that follow it in
    ASCII (27 gives an opening square bracket), not a second letter. *)
Theorem label_is_one_ascii_character (n count : Z) :
  1 <= n <= 63 ->
  numberToLetterWithCount n count =
  String (ascii_of_N (Z.to_N (64 + n))) (" (" +:+ Itoa count +:+ ")").
Proof.
  intros Hn. unfold numberToLetterWithCount.
  destruct (Z.leb_spec n 0); [lia|].
  rewrite (wrap64_small (n - 1)), (wrap64_small (65 + (n - 1))), wrap32_small by lia.
  unfold string_of_rune. rewrite utf8_bytes_value by lia.
  destruct (Z.ltb_spec (65 + (n - 1)) 128); [|lia].
  cbn [byte_string fold_right]. by replace (65 + (n - 1)) with (64 + n) by lia.
Qed.

Lemma label_is_one_ascii_character_witness :
  numberToLetterWithCount 1 3 = "A (3)" /\ numberToLetterWithCount 26 1 = "Z (1)" /\
  numberToLetterWithCount 27 2 = "[ (2)".
Proof.
  split; [|split].
  - rewrite (label_is_one_ascii_character 1 3) by lia. reflexivity.
  - rewrite (label_is_one_ascii_character 26 1) by lia. reflexivity.
  - rewrite (label_is_one_ascii_character 27 2) by lia. reflexivity.
Defined.

(** X4.  A label determines the identifier and the count it was made from,
    for identifiers up to 55231: distinct groups never get the same label
    text. *)
Theorem label_determines_group (n1 n2 c1 c2 : Z) :
  1 <= n1 <= 55231 -> 1 <= n2 <= 55231 ->
  numberToLetterWithCount n1 c1 = numberToLetterWithCount n2 c2 ->
  n1 = n2 /\ c1 = c2.
Proof.
  intros H1 H2 E.
  assert (Hn : n1 = n2).
  { destruct (Z.lt_trichotomy n1 n2) as [Hlt | [-> | Hgt]]; [|done|].
    - pose proof (label_order n1 n2 c1 c2 ltac:(lia) Hlt ltac:(lia)) as Hl.
      rewrite E, string_ltb_irrefl in Hl. discriminate.
    - pose proof (label_order n2 n1 c2 c1 ltac:(lia) ltac:(lia) ltac:(lia)) as Hl.
      rewrite E, string_ltb_irrefl in Hl. discriminate. }
  split; [done|]. subst n2. unfold numberToLetterWithCount in E.
  destruct (Z.leb_spec n1 0); [lia|].
  apply append_cancel_l, append_cancel_l in E.
  by apply append_snoc_cancel, Itoa_inj in E.
Qed.

Lemma label_determines_group_witness :
  numberToLetterWithCount 2 4 = "B (4)" /\ (2 = 2 /\ 4 = 4).
Proof.
  split; [by vm_compute|].
  apply (label_determines_group 2 2 4 4); [lia | lia | reflexivity].
Defined.

(** X5.  Beyond 55231 the labels stop being distinct: for identifiers
    55232 to 57279 the character 'A' + (n - 1) is a surrogate code point,
    the conversion to a string yields the replacement character U+FFFD
    (bytes EF BF BD), and all these groups get the same label text up to
    the count. *)
Theorem label_of_surrogate_identifier (n count : Z) :
  55232 <= n <= 57279 ->
  numberToLetterWithCount n count =
  String "239" (String "191" (String "189" (" (" +:+ Itoa count +:+ ")"))).
Proof.
  intros Hn. unfold numberToLetterWithCount.
  destruct (Z.leb_spec n 0); [lia|].
  rewrite (wrap64_small (n - 1)), (wrap64_small (65 + (n - 1))), wrap32_small by lia.
  unfold string_of_rune, utf8_bytes.
  destruct (Z.ltb_spec (65 + (n - 1)) 0); [lia|].
  destruct (Z.ltb_spec 1114111 (65 + (n - 1))); [lia|].
  destruct (Z.leb_spec 55296 (65 + (n - 1))); [|lia].
  destruct (Z.leb_spec (65 + (n - 1)) 57343); [|lia].
  reflexivity.
Qed.

Lemma label_of_surrogate_identifier_witness :
  numberToLetterWithCount 55232 2 = numberToLetterWithCount 57279 2.
Proof.
  rewrite (label_of_surrogate_identifier 55232 2) by lia.
  rewrite (label_of_surrogate_identifier 57279 2) by lia. reflexivity.
Defined.

(** * Further properties of the probe executor *)

Fixpoint allDigits (s : string) : bool :=
  match s with
  | EmptyString => true
  | String c rest => isDigit c && allDigits rest
  end.

(** A non-empty run of decimal digits. *)
Definition digitRun (s : string) : Prop := s <> "" /\ allDigits s = true.

Lemma spanDigits_digits s : allDigits (spanDigits s).1 = true.
Proof.
  induction s as [|c s IH]; [done|]. cbn [spanDigits].
  destruct (isDigit c) eqn:Hc; [|done].
  destruct (spanDigits s) as [ds tl]. cbn [fst allDigits] in *. by rewrite Hc, IH.
Qed.

Lemma digits1_digitRun s ds tl : digits1 s = Some (ds, tl) -> digitRun ds.
Proof.
  intros H. split; [by eapply digits1_nonempty|].
  unfold digits1 in H. pose proof (spanDigits_digits s) as Hd.
  destruct (spanDigits s) as [[|c d] t]; [discriminate|]. by injection H as <- _.
Qed.

Lemma pingPattern_digitRun line n : pingPattern line = Some n -> digitRun n.
Proof.
  apply (findFirst_some pingPatternAt digitRun). clear. intros s m.
  unfold pingPatternAt.
  destruct (expect "in " s) as [s1|]; [|discriminate].
  destruct (digits1 s1) as [[n s2]|] eqn:E; [|discriminate].
  destruct (expect "ms" s2); [|discriminate].
  intros [= <-]. by eapply digits1_digitRun.
Qed.

(** The shape of a captured egress: four digit runs joined by dots. *)
Definition dottedRuns (e : string) : Prop :=
  exists a b c d, digitRun a /\ digitRun b /\ digitRun c /\ digitRun d /\
                  e = a +:+ "." +:+ b +:+ "." +:+ c +:+ "." +:+ d.

Lemma publicIPPattern_shape line m :
  publicIPPattern line = Some m -> dottedRuns m.1 /\ digitRun m.2.
Proof.
  apply (findFirst_some publicIPPatternAt (fun m => dottedRuns m.1 /\ digitRun m.2)).
  clear. intros s m. unfold publicIPPatternAt.
  destruct (expect "via " s) as [s0|]; [|discriminate].
  destruct (digits1 s0) as [[a s1]|] eqn:Ea; [|discriminate].
  destruct (expect "." s1) as [s1'|]; [|discriminate].
  destruct (digits1 s1') as [[b s2]|] eqn:Eb; [|discriminate].
  destruct (expect "." s2) as [s2'|]; [|discriminate].
  destruct (digits1 s2') as [[c s3]|] eqn:Ec; [|discriminate].
  destruct (expect "." s3) as [s3'|]; [|discriminate].
  destruct (digits1 s3') as [[d s4]|] eqn:Ed; [|discriminate].
  destruct (expect ":" s4) as [s4'|]; [|discriminate].
  destruct (digits1 s4') as [[prt s5]|] eqn:Ep; [|discriminate].
  intros [= <-]. cbn [fst snd]. split; [|by eapply digits1_digitRun].
  exists a, b, c, d. eauto 10 using digits1_digitRun.
Qed.

Lemma digitsValue_digits s : forall acc, allDigits s = true -> 0 <= acc ->
  exists v, digitsValue s acc = Some v /\ acc <= v.
Proof.
  induction s as [|c s IH]; intros acc Hs Hacc; cbn [digitsValue].
  - exists acc. split; [done|lia].
  - cbn [allDigits] in Hs. apply andb_prop in Hs as [Hc Hs]. rewrite Hc.
    pose proof (isDigit_digitVal c Hc).
    destruct (IH (acc * 10 + digitVal c) Hs ltac:(lia)) as (v & Hv & Hle).
    exists v. split; [done|lia].
Qed.

(** [strconv.Atoi] on a digit run: the value, or a range error from 2^63
    on. *)
Lemma Atoi_digitRun p : digitRun p ->
  exists v, digitsValue p 0 = Some v /\ 0 <= v /\
            Atoi p = if 2 ^ 63 <=? v then (maxInt64, false) else (v, true).
Proof.
  intros [Hne Hd].
  destruct (digitsValue_digits p 0 Hd ltac:(lia)) as (v & Hv & Hle).
  exists v. split; [done|]. split; [done|].
  destruct p as [|c p]; [done|]. unfold Atoi.
  cbn [allDigits] in Hd. apply andb_prop in Hd as [Hc _].
  destruct (Ascii.eqb_spec c "-") as [->|]; [discriminate|].
  destruct (Ascii.eqb_spec c "+") as [->|]; [discriminate|].
  by rewrite Hv.
Qed.

Lemma lineSamples_digitRun lines : Forall digitRun (lineSamples lines).
Proof.
  induction lines as [|l lines IH]; [constructor|]. cbn [lineSamples].
  destruct (pingPattern l) eqn:E; [|done]. constructor; [|done].
  by eapply pingPattern_digitRun.
Qed.

(** X6.  Every latency sample that [pingIP] records is a non-empty run of
    decimal digits.  So when [calculateAverage] later converts it with
    [strconv.Atoi], the conversion fails only by range: a recorded sample
    is rejected exactly when its value is 2^63 or more, and otherwise
    converts to its (non-negative) value. *)
Theorem recorded_samples_parse_unless_out_of_range (w : World) (r : PingResult) (c : Z) :
  Forall digitRun (pings r) ->
  Forall (fun p =>
            digitRun p /\
            exists v, digitsValue p 0 = Some v /\ 0 <= v /\
                      Atoi p = if 2 ^ 63 <=? v then (maxInt64, false) else (v, true))
         (pings (pingIP w r c).1.1).
Proof.
  intros Hr.
  assert (H : Forall digitRun (pings (pingIP w r c).1.1)).
  { rewrite pingIP_unfold.
    destruct (supportedOS (GOOS w)); [|done].
    destruct (tailscale_ping w (ip r)) as [output|]; [|done]. cbn [fst].
    destruct (scanLines_spec w (Split output "010") r []) as (-> & _ & _).
    apply Forall_app. split; [done|]. apply lineSamples_digitRun. }
  eapply Forall_impl; [exact H|]. intros p Hp. split; [done|]. by apply Atoi_digitRun.
Qed.

Lemma recorded_samples_parse_unless_out_of_range_witness :
  Forall (fun p =>
            digitRun p /\
            exists v, digitsValue p 0 = Some v /\ 0 <= v /\
                      Atoi p = if 2 ^ 63 <=? v then (maxInt64, false) else (v, true))
         (pings (pingIP (example_world "pong in 5ms") fresh_peer 0).1.1).
Proof.
  apply (recorded_samples_parse_unless_out_of_range
           (example_world "pong in 5ms") fresh_peer 0).
  simpl. constructor.
Defined.

Lemma scanLine_identity w st line :
  let r' := (scanLine w st line).1 in
  ip r' = ip st.1 /\ hostname r' = hostname st.1 /\ user r' = user st.1 /\
  os r' = os st.1 /\ group r' = group st.1.
Proof.
  unfold scanLine. destruct st as [r reqs]. cbn [fst].
  destruct (publicIPPattern line) as [[m1 m2]|];
    [destruct (getIPInfo w _) as [[i [|]] q]|];
    destruct (pingPattern line); cbn; auto.
Qed.

Lemma scanLines_identity w lines : forall st,
  let r' := (fold_left (scanLine w) lines st).1 in
  ip r' = ip st.1 /\ hostname r' = hostname st.1 /\ user r' = user st.1 /\
  os r' = os st.1 /\ group r' = group st.1.
Proof.
  induction lines as [|l lines IH]; intros st; [done|]. cbn [fold_left].
  destruct (IH (scanLine w st l)) as (H1 & H2 & H3 & H4 & H5).
  destruct (scanLine_identity w st l) as (G1 & G2 & G3 & G4 & G5).
  cbv zeta. rewrite H1, H2, H3, H4, H5. auto.
Qed.

(** X7.  [pingIP] writes only the probe attributes of its record: the mesh
    address, host name, owner, platform and group are never changed, and
    when the platform is unsupported or the probe command fails the whole
    record is left as it was. *)
Theorem pingIP_keeps_the_peer_identity (w : World) (r : PingResult) (c : Z) :
  let r' := (pingIP w r c).1.1 in
  (ip r' = ip r /\ hostname r' = hostname r /\ user r' = user r /\
   os r' = os r /\ group r' = group r) /\
  (supportedOS (GOOS w) = false \/ tailscale_ping w (ip r) = None -> r' = r).
Proof.
  cbv zeta. rewrite pingIP_unfold. split.
  - destruct (supportedOS (GOOS w)); [|done].
    destruct (tailscale_ping w (ip r)) as [output|]; [|done]. cbn [fst].
    apply (scanLines_identity w (Split output "010") (r, [])).
  - intros [-> | H]; [done|]. rewrite H. by destruct (supportedOS (GOOS w)).
Qed.

(** The ISP answers of the successful lookups, in request order. *)
Fixpoint lineISPs (w : World) (ms : list (string * string)) : list string :=
  match ms with
  | [] => []
  | m :: rest =>
      match ip_api w m.1 with
      | Some i => i :: lineISPs w rest
      | None => lineISPs w rest
      end
  end.

Lemma lineISPs_app w l1 l2 : lineISPs w (l1 ++ l2) = lineISPs w l1 ++ lineISPs w l2.
Proof.
  induction l1 as [|m l1 IH]; [done|]. simpl. destruct (ip_api w m.1); simpl; by rewrite IH.
Qed.

Lemma scanLines_isp w lines : forall r reqs,
  isp (fold_left (scanLine w) lines (r, reqs)).1 =
  default (isp r) (last (lineISPs w (lineEgresses lines))).
Proof.
  induction lines as [|l lines IH] using rev_ind; intros r reqs; [done|].
  rewrite fold_left_app, lineEgresses_app, lineISPs_app. cbn [fold_left].
  specialize (IH r reqs).
  destruct (fold_left (scanLine w) lines (r, reqs)) as [r1 q1]. cbn [fst] in IH.
  unfold scanLine. cbn [lineEgresses].
  destruct (publicIPPattern l) as [[m1 m2]|] eqn:Em.
  - assert (Hne : m1 <> "") by (by apply (publicIPPattern_nonempty l (m1, m2))).
    unfold getIPInfo. cbn [set_egress externalIP].
    destruct (String.eqb_spec m1 ""); [done|].
    cbn [lineISPs fst]. destruct (ip_api w m1) as [i|].
    + rewrite last_snoc. by destruct (pingPattern l).
    + rewrite app_nil_r. by destruct (pingPattern l).
  - cbn [lineISPs]. rewrite app_nil_r. by destruct (pingPattern l).
Qed.

(** X8.  After [pingIP] the ISP of a record is the answer of the last
    lookup that succeeded (the record's previous ISP when none did), while
    the egress address is that of the last egress marker.  A failed lookup
    does not clear the ISP: when the probe output names two egress
    addresses and only the lookup of the first succeeds, the record ends
    with the second address and the ISP of the first. *)
Theorem isp_is_the_last_successful_lookup (w : World) (r : PingResult) (c : Z) (output : string) :
  supportedOS (GOOS w) = true ->
  tailscale_ping w (ip r) = Some output ->
  let r' := (pingIP w r c).1.1 in
  let egresses := lineEgresses (Split output "010") in
  isp r' = default (isp r) (last (lineISPs w egresses)) /\
  (forall e1 p1 e2 p2 i1,
     egresses = [(e1, p1); (e2, p2)] ->
     ip_api w e1 = Some i1 -> ip_api w e2 = None ->
     externalIP r' = e2 /\ isp r' = i1).
Proof.
  intros Hos Hping r' egresses.
  assert (Hisp : isp r' = default (isp r) (last (lineISPs w egresses))).
  { unfold r'. rewrite pingIP_unfold, Hos, Hping. cbn [fst]. apply scanLines_isp. }
  split; [done|]. intros e1 p1 e2 p2 i1 He H1 H2. split.
  - unfold r'. rewrite pingIP_unfold, Hos, Hping. cbn [fst].
    destruct (scanLines_spec w (Split output "010") r []) as (_ & Hegress & _).
    fold egresses in Hegress. rewrite He in Hegress. cbn in Hegress. congruence.
  - rewrite Hisp, He. cbn [lineISPs fst]. by rewrite H1, H2.
Qed.

Definition roaming_world : World :=
  {| GOOS := "linux"; tailscale_version := true; tailscale_status := None;
     tailscale_ping := fun _ =>
       Some ("pong from peer (100.64.0.7) via 203.0.113.5:41641 in 17ms" +:+ newline +:+
             "pong from peer (100.64.0.7) via 198.51.100.9:41641 in 22ms");
     ip_api := fun e => if String.eqb e "203.0.113.5" then Some "First ISP" else None |}.

Lemma isp_is_the_last_successful_lookup_witness :
  externalIP (pingIP roaming_world fresh_peer 0).1.1 = "198.51.100.9" /\
  isp (pingIP roaming_world fresh_peer 0).1.1 = "First ISP".
Proof.
  refine (proj2 (isp_is_the_last_successful_lookup roaming_world fresh_peer 0 _ eq_refl eq_refl)
            "203.0.113.5" "41641" "198.51.100.9" "41641" "First ISP" _ eq_refl eq_refl).
  vm_compute. reflexivity.
Defined.

(** * Classification of dotted-decimal text *)

(** The digit branch of [parseIPv4Fields] along one octet. *)
Fixpoint octetDigits (s : string) (prev : option ascii) (val digLen : Z)
    : option (option ascii * Z * Z) :=
  match s with
  | EmptyString => Some (prev, val, digLen)
  | String c rest =>
      if (digLen =? 1) && (val =? 0) then None
      else
        let val' := val * 10 + digitVal c in
        if 255 <? val' then None
        else octetDigits rest (Some c) val' (digLen + 1)
  end.

Lemma parseIPv4Fields_digits s : forall rest prev fields val digLen,
  allDigits s = true ->
  parseIPv4Fields (s +:+ rest) prev fields val digLen =
  match octetDigits s prev val digLen with
  | Some (prev', val', digLen') => parseIPv4Fields rest prev' fields val' digLen'
  | None => None
  end.
Proof.
  induction s as [|c s IH]; intros rest prev fields val digLen Hs; [done|].
  cbn [allDigits] in Hs. apply andb_prop in Hs as [Hc Hs].
  change (String c s +:+ rest) with (String c (s +:+ rest)).
  cbn [parseIPv4Fields octetDigits]. rewrite Hc.
  destruct ((digLen =? 1) && (val =? 0)); [done|].
  cbv zeta. destruct (255 <? val * 10 + digitVal c); [done|]. by apply IH.
Qed.

Lemma parseDispatch_digits (parseIPv6 : string -> option Z) whole s rest :
  allDigits s = true ->
  parseDispatch parseIPv6 whole (s +:+ String "." rest) = parseIPv4 whole.
Proof.
  intros Hs. induction s as [|c s IH]; [done|].
  cbn [allDigits] in Hs. apply andb_prop in Hs as [Hc Hs].
  change (String c s +:+ String "." rest) with (String c (s +:+ String "." rest)).
  cbn [parseDispatch].
  destruct (Ascii.eqb_spec c ".") as [->|]; [discriminate|].
  destruct (Ascii.eqb_spec c ":") as [->|]; [discriminate|].
  destruct (Ascii.eqb_spec c "%") as [->|]; [discriminate|]. by apply IH.
Qed.

(** What the decimal text of an octet does to the parser, checked on all
    256 octets. *)
Definition octetText_ok (a : Z) : bool :=
  match Itoa a with
  | EmptyString => false
  | String _ _ as s =>
      allDigits s &&
      match octetDigits s None 0 0 with
      | Some (Some p, v, _) => (v =? a) && negb (Ascii.eqb p ".")
      | _ => false
      end
  end.

Lemma octetText_all : forallb octetText_ok (map Z.of_nat (seq 0 256)) = true.
Proof. vm_compute. reflexivity. Qed.

Lemma octetText_spec a : is_byte a ->
  allDigits (Itoa a) = true /\
  (exists c s, Itoa a = String c s) /\
  forall prev, exists p k,
    octetDigits (Itoa a) prev 0 0 = Some (Some p, a, k) /\ Ascii.eqb p "." = false.
Proof.
  intros Ha. pose proof (byte_cases octetText_ok octetText_all a Ha) as H.
  unfold octetText_ok in H. destruct (Itoa a) as [|c s] eqn:E; [discriminate|].
  apply andb_prop in H as [Hd H]. split; [done|]. split; [by eauto|].
  intros prev.
  assert (Hp : octetDigits (String c s) prev 0 0 = octetDigits (String c s) None 0 0) by done.
  rewrite Hp. destruct (octetDigits (String c s) None 0 0) as [[[[p|] v] k]|]; try discriminate.
  apply andb_prop in H as [Hv Hp']. apply Z.eqb_eq in Hv as ->.
  exists p, k. split; [done|]. by destruct (Ascii.eqb p ".").
Qed.

(** The usual text of an IPv4 address. *)
Definition dotted (a b c d : Z) : string :=
  Itoa a +:+ "." +:+ Itoa b +:+ "." +:+ Itoa c +:+ "." +:+ Itoa d.

Lemma parseIPv4Fields_octet_dot a rest prev fields :
  is_byte a -> (length fields < 3)%nat -> rest <> "" ->
  parseIPv4Fields (Itoa a +:+ String "." rest) prev fields 0 0 =
  parseIPv4Fields rest (Some "."%char) (fields ++ [a]) 0 0.
Proof.
  intros Ha Hf Hrest. destruct (octetText_spec a Ha) as (Hd & _ & Ho).
  rewrite parseIPv4Fields_digits by done.
  destruct (Ho prev) as (p & k & E & Hp). rewrite E.
  destruct rest as [|c0 rest]; [done|].
  cbn [parseIPv4Fields]. change (isDigit ".") with false. cbv iota.
  change (Ascii.eqb "." ".") with true. cbv iota. rewrite Hp.
  destruct (Z.eqb_spec (Z.of_nat (length fields)) 3); [lia|]. done.
Qed.

Lemma Itoa_octet_nonempty a rest : is_byte a -> Itoa a +:+ rest <> "".
Proof.
  intros Ha. destruct (octetText_spec a Ha) as (_ & (c & s & ->) & _). discriminate.
Qed.

Lemma dotted_unfold a b c d :
  dotted a b c d =
  Itoa a +:+ String "." (Itoa b +:+ String "." (Itoa c +:+ String "." (Itoa d))).
Proof. reflexivity. Qed.

Lemma ParseIP_dotted (parseIPv6 : string -> option Z) a b c d :
  is_byte a -> is_byte b -> is_byte c -> is_byte d ->
  ParseIP parseIPv6 (dotted a b c d) = Some (v4InV6Prefix ++ [a; b; c; d]).
Proof.
  intros Ha Hb Hc Hd. unfold ParseIP.
  destruct (octetText_spec a Ha) as (Hda & _ & _).
  destruct (octetText_spec d Hd) as (Hdd & _ & Hod).
  rewrite dotted_unfold at 2.
  rewrite parseDispatch_digits by done.
  unfold parseIPv4. rewrite dotted_unfold.
  rewrite parseIPv4Fields_octet_dot by (done || (simpl; lia) || by apply Itoa_octet_nonempty).
  rewrite parseIPv4Fields_octet_dot by (done || (simpl; lia) || by apply Itoa_octet_nonempty).
  rewrite parseIPv4Fields_octet_dot
    by (done || (simpl; lia) || (rewrite <- (append_nil_r (Itoa d)); by apply Itoa_octet_nonempty)).
  rewrite <- (append_nil_r (Itoa d)), parseIPv4Fields_digits by done.
  destruct (Hod (Some "."%char)) as (p & k & -> & _). reflexivity.
Qed.

(** The six reserved ranges, read on the first two octets. *)
Definition reservedOctets (a b : Z) : bool :=
  (a =? 10) || (a =? 127) || ((a =? 172) && (16 <=? b) && (b <=? 31)) ||
  ((a =? 192) && (b =? 168)) || ((a =? 169) && (b =? 254)) ||
  ((a =? 100) && (64 <=? b) && (b <=? 127)).

Lemma second_octet_masks b : is_byte b ->
  (16 =? 16 * (b / 16)) = (16 <=? b) && (b <=? 31) /\
  (64 =? 64 * (b / 64)) = (64 <=? b) && (b <=? 127).
Proof.
  intros Hb.
  pose proof (byte_cases
    (fun b => Bool.eqb (16 =? 16 * (b / 16)) ((16 <=? b) && (b <=? 31)) &&
              Bool.eqb (64 =? 64 * (b / 64)) ((64 <=? b) && (b <=? 127)))
    eq_refl b Hb) as H.
  cbv beta in H. apply andb_prop in H as [H1 H2].
  split; by apply Bool.eqb_prop.
Qed.

(** X9.  On the usual decimal text a.b.c.d of any IPv4 address (octets
    0 to 255, no leading zeros) [isPublicIP] answers by the first two octets
    alone: the address is public unless a is 10 or 127, or a.b is 172.16 to
    172.31, 192.168, 169.254, or 100.64 to 100.127.  In particular every
    such text parses, and the answer does not involve the IPv6 parser. *)
Theorem isPublicIP_of_dotted_quad (parseIPv6 : string -> option Z) (a b c d : Z) :
  0 <= a < 256 -> 0 <= b < 256 -> 0 <= c < 256 -> 0 <= d < 256 ->
  isPublicIP parseIPv6 (dotted a b c d) = negb (reservedOctets a b).
Proof.
  intros Ha Hb Hc Hd.
  rewrite isPublicIP_unfold, ParseIP_dotted by done.
  unfold privateNets. cbn [existsb]. rewrite !Contains_v4 by reflexivity.
  change (To4 (v4InV6Prefix ++ [a; b; c; d])) with (Some [a; b; c; d]).
  cbn [sameNetwork].
  destruct (byte_masks a Ha) as (Ea & _ & _ & Za).
  destruct (byte_masks b Hb) as (Eb & Eb16 & Eb64 & Zb).
  destruct (byte_masks c Hc) as (_ & _ & _ & Zc).
  destruct (byte_masks d Hd) as (_ & _ & _ & Zd).
  rewrite ?Ea, ?Eb, ?Eb16, ?Eb64, ?Za, ?Zb, ?Zc, ?Zd.
  repeat match goal with
         | |- context [Z.land ?x ?y] =>
             let v := eval vm_compute in (Z.land x y) in
             change (Z.land x y) with v
         end.
  destruct (second_octet_masks b Hb) as [-> ->].
  change (0 =? 0) with true. cbn [negb].
  unfold reservedOctets.
  rewrite (Z.eqb_sym 10 a), (Z.eqb_sym 127 a), (Z.eqb_sym 172 a), (Z.eqb_sym 192 a),
    (Z.eqb_sym 169 a), (Z.eqb_sym 100 a), (Z.eqb_sym 168 b), (Z.eqb_sym 254 b).
  destruct (a =? 10), (a =? 127), (a =? 172), (a =? 192), (a =? 169), (a =? 100),
    (b =? 168), (b =? 254), (16 <=? b), (b <=? 31), (64 <=? b), (b <=? 127); reflexivity.
Qed.

Lemma isPublicIP_of_dotted_quad_witness :
  isPublicIP noIPv6 "172.31.255.1" = false /\ isPublicIP noIPv6 "172.32.0.1" = true.
Proof.
  split.
  - exact (isPublicIP_of_dotted_quad noIPv6 172 31 255 1
             ltac:(lia) ltac:(lia) ltac:(lia) ltac:(lia)).
  - exact (isPublicIP_of_dotted_quad noIPv6 172 32 0 1
             ltac:(lia) ltac:(lia) ltac:(lia) ltac:(lia)).
Defined.

(** X10.  An egress address captured from the probe output consists of
    digits and dots, so [net.ParseIP] hands it to the IPv4 parser: whether
    the peer counts as public, and with it the grouping, does not depend on
    how IPv6 text would be parsed. *)
Theorem captured_egress_is_read_as_IPv4 (pv6 pv6' : string -> option Z)
    (line : string) (m : string * string) :
  publicIPPattern line = Some m ->
  ParseIP pv6 m.1 = parseIPv4 m.1 /\ isPublicIP pv6 m.1 = isPublicIP pv6' m.1.
Proof.
  intros Hm. apply publicIPPattern_shape in Hm as [(a & b & c & d & [_ Ha] & _ & _ & _ & E) _].
  assert (Hp : forall p, ParseIP p m.1 = parseIPv4 m.1).
  { intros p. unfold ParseIP. rewrite E at 2.
    change ("." +:+ ?x) with (String "." x). by apply parseDispatch_digits. }
  split; [apply Hp|]. by rewrite !isPublicIP_unfold, !Hp.
Qed.

Lemma captured_egress_is_read_as_IPv4_witness :
  isPublicIP noIPv6 "203.0.113.5" = isPublicIP (fun _ => Some 1) "203.0.113.5".
Proof.
  exact (proj2 (captured_egress_is_read_as_IPv4 noIPv6 (fun _ => Some 1)
                  "pong from peer (100.64.0.7) via 203.0.113.5:41641 in 17ms"
                  ("203.0.113.5", "41641") eq_refl)).
Defined.

(** * The iteration with a result channel: what the [select] reports *)

(** The outcome an executor sends for an address, if it sends one. *)
Definition outcome (w : World) (addr : string) : option Collector.PingResult :=
  match (Collector.pingIP w addr 0).1 with
  | Collector.Sent r => Some r
  | _ => None
  end.

(** An executor that has passed its [atomic.AddInt32]. *)
Definition pastCounter (e : Collector.Exec) : bool :=
  match e with Collector.Running => false | _ => true end.

Definition counted_execs (execs : list Collector.Exec) : nat :=
  length (List.filter pastCounter execs).

(** What an executor in a given position has put on the channel. *)
Definition contribution (w : World) (addr : string) (e : Collector.Exec)
    : list Collector.PingResult :=
  match e with
  | Collector.Returned => option_list (outcome w addr)
  | _ => []
  end.

Fixpoint delivered (w : World) (ips : list string) (execs : list Collector.Exec)
    : list Collector.PingResult :=
  match ips, execs with
  | addr :: ips', e :: execs' => contribution w addr e ++ delivered w ips' execs'
  | _, _ => []
  end.

Lemma Collector_pingIP_exit w addr c :
  supportedOS (GOOS w) = true ->
  (Collector.pingIP w addr c).1 = (Collector.pingIP w addr 0).1 /\
  (Collector.pingIP w addr c).1 <> Collector.Crashed /\
  (Collector.pingIP w addr c).2 = atomic_AddInt32 c 1.
Proof.
  intros Hos. unfold Collector.pingIP. rewrite Hos.
  destruct (tailscale_ping w addr); cbn [fst snd]; done.
Qed.

Lemma counted_insert (l : list Collector.Exec) i x y :
  l !! i = Some x ->
  (counted_execs (<[i := y]> l) + (if pastCounter x then 1 else 0) =
   counted_execs l + (if pastCounter y then 1 else 0))%nat.
Proof.
  unfold counted_execs. revert i. induction l as [|e l IH]; intros [|i] H; try done.
  - injection H as ->. simpl.
    destruct (pastCounter x), (pastCounter y); simpl; lia.
  - simpl. specialize (IH i H).
    destruct (pastCounter e); simpl; lia.
Qed.


Lemma delivered_insert w ips : forall execs i addr e e',
  ips !! i = Some addr -> execs !! i = Some e -> contribution w addr e = [] ->
  Permutation (delivered w ips (<[i := e']> execs))
              (contribution w addr e' ++ delivered w ips execs).
Proof.
  induction ips as [|a ips IH]; intros [|x execs] [|i] addr e e' Hi He Hc; try done.
  - injection Hi as ->. injection He as ->.
    cbn [insert list_insert delivered]. by rewrite Hc.
  - cbn [insert list_insert delivered].
    change (list_insert i e' execs) with (<[i := e']> execs).
    rewrite (IH execs i addr e e' Hi He Hc).
    rewrite !app_assoc. apply Permutation_app_tail, Permutation_app_comm.
Qed.

(** What holds in every state of a run on a supported platform. *)
Record CollInv (w : World) (ips : list string) (st : Collector.State) : Prop := {
  coll_crashed : Collector.crashed st = false;
  coll_length : length (Collector.execs st) = length ips;
  coll_counter :
    Collector.completed st = wrap32 (Z.of_nat (counted_execs (Collector.execs st)));
  coll_sending : forall i r,
    Collector.execs st !! i = Some (Collector.Sending r) ->
    exists addr, ips !! i = Some addr /\ outcome w addr = Some r;
  coll_results :
    Permutation (Collector.resultsList st ++ Collector.chan st)
                (delivered w ips (Collector.execs st));
  coll_closed :
    Collector.closed st = true ->
    forallb Collector.isReturned (Collector.execs st) = true;
  coll_done :
    Collector.resultsDone st = true ->
    Collector.closed st = true /\ Collector.chan st = []
}.

Lemma delivered_running w ips : delivered w ips (map (fun _ => Collector.Running) ips) = [].
Proof. induction ips as [|a ips IH]; [done|]. exact IH. Qed.

Lemma counted_running (ips : list string) :
  counted_execs (map (fun _ => Collector.Running) ips) = 0%nat.
Proof. unfold counted_execs. induction ips as [|a ips IH]; [done|]. exact IH. Qed.

Lemma start_inv w ips : CollInv w ips (Collector.start ips).
Proof.
  split; cbn [Collector.start Collector.crashed Collector.execs Collector.completed
              Collector.resultsList Collector.chan Collector.closed Collector.resultsDone];
    try done.
  - by rewrite length_map.
  - by rewrite counted_running.
  - intros i r H. apply list_lookup_fmap_Some in H as (? & ? & ?). discriminate.
  - by rewrite delivered_running.
Qed.

Lemma forallb_lookup {A} (f : A -> bool) l i x :
  forallb f l = true -> l !! i = Some x -> f x = true.
Proof.
  intros H Hi. rewrite forallb_forall in H. apply H.
  apply list_elem_of_In. by eapply list_elem_of_lookup_2.
Qed.

Lemma step_inv_coll w ips st st' :
  supportedOS (GOOS w) = true ->
  CollInv w ips st -> Collector.step w ips st st' -> CollInv w ips st'.
Proof.
  intros Hos [Hcr Hlen Hcnt Hsend Hres Hcl Hdn] Hstep.
  destruct Hstep as [st i addr _ Hi Haddr | st i r _ Hi | st r q _ Hq | st _ Hall Hc | st _ Hc Hq].
  - (* an executor passes the counter *)
    destruct (Collector_pingIP_exit w addr (Collector.completed st) Hos) as (He & Hnc & Hc2).
    assert (Hnotclosed : Collector.closed st = false).
    { destruct (Collector.closed st) eqn:E; [|done].
      pose proof (forallb_lookup _ _ _ _ (Hcl eq_refl) Hi). discriminate. }
    assert (Hnd : Collector.resultsDone st = false).
    { destruct (Collector.resultsDone st) eqn:E; [|done]. destruct (Hdn eq_refl). congruence. }
    destruct (Collector.pingIP w addr (Collector.completed st)) as [ex c] eqn:Ep.
    cbn [fst snd] in He, Hnc, Hc2.
    assert (Hc' : c = wrap32 (Z.of_nat (S (counted_execs (Collector.execs st))))).
    { rewrite Hc2, Hcnt. unfold atomic_AddInt32. rewrite wrap32_add_l. f_equal. lia. }
    destruct ex as [r| |]; [| |done]; unfold Collector.counted;
      split; cbn [Collector.crashed Collector.execs Collector.completed Collector.resultsList
                  Collector.chan Collector.closed Collector.resultsDone];
      try done; try (intros; congruence); try (by rewrite length_insert).
    + rewrite Hc'. do 2 f_equal.
      pose proof (counted_insert _ i _ (Collector.Sending r) Hi) as H. cbn in H. lia.
    + intros j r' Hj. destruct (decide (i = j)) as [<-|Hne].
      * rewrite list_lookup_insert_eq in Hj by (by eapply lookup_lt_Some).
        injection Hj as <-. exists addr. split; [done|]. unfold outcome. by rewrite <- He.
      * rewrite list_lookup_insert_ne in Hj by done. by apply Hsend.
    + rewrite Hres. symmetry.
      apply (delivered_insert w ips _ i addr Collector.Running (Collector.Sending r)); done.
    + rewrite Hc'. do 2 f_equal.
      pose proof (counted_insert _ i _ Collector.Returned Hi) as H. cbn in H. lia.
    + intros j r' Hj. destruct (decide (i = j)) as [<-|Hne].
      * rewrite list_lookup_insert_eq in Hj by (by eapply lookup_lt_Some). discriminate.
      * rewrite list_lookup_insert_ne in Hj by done. by apply Hsend.
    + rewrite Hres. symmetry.
      rewrite (delivered_insert w ips _ i addr Collector.Running Collector.Returned) by done.
      unfold contribution, outcome. rewrite <- He. done.
  - (* an executor sends and returns *)
    assert (Hnotclosed : Collector.closed st = false).
    { destruct (Collector.closed st) eqn:E; [|done].
      pose proof (forallb_lookup _ _ _ _ (Hcl eq_refl) Hi). discriminate. }
    assert (Hnd : Collector.resultsDone st = false).
    { destruct (Collector.resultsDone st) eqn:E; [|done]. destruct (Hdn eq_refl). congruence. }
    destruct (Hsend i r Hi) as (addr & Haddr & Hout).
    split; cbn [Collector.crashed Collector.execs Collector.completed Collector.resultsList
                Collector.chan Collector.closed Collector.resultsDone];
      try done; try (intros; congruence); try (by rewrite length_insert).
    + rewrite Hcnt. do 2 f_equal.
      pose proof (counted_insert _ i _ Collector.Returned Hi) as H. cbn in H. lia.
    + intros j r' Hj. destruct (decide (i = j)) as [<-|Hne].
      * rewrite list_lookup_insert_eq in Hj by (by eapply lookup_lt_Some). discriminate.
      * rewrite list_lookup_insert_ne in Hj by done. by apply Hsend.
    + rewrite (delivered_insert w ips _ i addr (Collector.Sending r) Collector.Returned) by done.
      cbn [contribution]. rewrite Hout. cbn [option_list].
      rewrite app_assoc, <- Hres. rewrite <- Permutation_cons_append. done.
  - (* the collector receives *)
    split; cbn [Collector.crashed Collector.execs Collector.completed Collector.resultsList
                Collector.chan Collector.closed Collector.resultsDone];
      try done; try (intros; congruence); try (by rewrite length_insert).
    + rewrite <- Hres, Hq, <- app_assoc. done.
    + intros Hd. destruct (Hdn Hd) as [_ Hnil]. congruence.
  - (* the waiter closes the channel *)
    split; cbn [Collector.crashed Collector.execs Collector.completed Collector.resultsList
                Collector.chan Collector.closed Collector.resultsDone];
      try done; try (intros; congruence); try (by rewrite length_insert).
    intros Hd. destruct (Hdn Hd). congruence.
  - (* the collector stands ready to signal *)
    split; cbn [Collector.crashed Collector.execs Collector.completed Collector.resultsList
                Collector.chan Collector.closed Collector.resultsDone]; done.
Qed.

Lemma reachable_inv w ips st :
  supportedOS (GOOS w) = true -> Collector.reachable w ips st -> CollInv w ips st.
Proof.
  intros Hos H. induction H; [apply start_inv | by eapply step_inv_coll].
Qed.



Definition running_execs (execs : list Collector.Exec) : nat :=
  length (List.filter (fun e => negb (pastCounter e)) execs).

(** Every state a schedule leads to is reachable; a move that is not
    enabled ends the schedule. *)
Fixpoint state_after (w : World) (ips : list string) (st : Collector.State)
    (ms : list Collector.Move) : Collector.State :=
  match ms with
  | [] => st
  | m :: ms' =>
      match Collector.move w ips st m with
      | Some st' => state_after w ips st' ms'
      | None => st
      end
  end.

Lemma move_step w ips st m st' :
  Collector.move w ips st m = Some st' -> Collector.step w ips st st'.
Proof.
  unfold Collector.move. set (cr := Collector.crashed st) at 1.
  assert (Hc : cr = Collector.crashed st) by reflexivity. clearbody cr.
  destruct cr; [discriminate|]. symmetry in Hc.
  destruct m as [i|i| | |].
  - destruct (Collector.execs st !! i) as [[|r|]|] eqn:Hi; try discriminate.
    destruct (ips !! i) as [addr|] eqn:Ha; [|discriminate].
    intros [= <-]. by constructor.
  - destruct (Collector.execs st !! i) as [[|r|]|] eqn:Hi; try discriminate.
    intros [= <-]. by constructor.
  - destruct (Collector.chan st) as [|r q] eqn:Hq; [discriminate|].
    intros [= <-]. by econstructor.
  - destruct (forallb Collector.isReturned (Collector.execs st)) eqn:Ha; [|discriminate].
    destruct (Collector.closed st) eqn:Hcl; [discriminate|].
    intros [= <-]. by constructor.
  - set (cl := Collector.closed st) at 1. set (q := Collector.chan st) at 1.
    assert (Hcl : cl = Collector.closed st) by reflexivity.
    assert (Hq : q = Collector.chan st) by reflexivity. clearbody cl q.
    destruct cl; [|discriminate]. destruct q; [|discriminate].
    intros [= <-]. by constructor.
Qed.

Lemma state_after_reachable w ips ms : forall st,
  Collector.reachable w ips st -> Collector.reachable w ips (state_after w ips st ms).
Proof.
  induction ms as [|m ms IH]; intros st Hst; [done|]. cbn [state_after].
  destruct (Collector.move w ips st m) as [st'|] eqn:E; [|done].
  apply IH. econstructor; [exact Hst|]. by eapply move_step.
Qed.




(** Ten peers that all answer, of which the last three never return. *)
Definition ten_peers : list string :=
  ["h0"; "h1"; "h2"; "h3"; "h4"; "h5"; "h6"; "h7"; "h8"; "h9"].

Definition answering_world : World :=
  {| GOOS := "linux"; tailscale_version := true; tailscale_status := None;
     tailscale_ping := fun _ => Some "pong from peer via 203.0.113.5:41641 in 17ms";
     ip_api := fun _ => None |}.

Definition seven_returned : Collector.State :=
  state_after answering_world ten_peers (Collector.start ten_peers)
    (flat_map (fun i => [Collector.Count i; Collector.Send i; Collector.Receive])
              (seq 0 7)).


(** The run of the example when the three executors never return, so that
    nothing moves after the timeout: seven rows, a count of 7/10, three
    executors still running. *)
Lemma seven_of_ten :
  let s := Collector.after_timeout (@insertionSort) ten_peers seven_returned seven_returned in
  Collector.message s = "Timeout reached. Collected 7/10 results." /\
  map Collector.host (Collector.rows s) = ["h0"; "h1"; "h2"; "h3"; "h4"; "h5"; "h6"] /\
  Collector.total s - Collector.collected s = 3 /\
  running_execs (Collector.execs seven_returned) = 3%nat.
Proof. vm_compute. repeat split; reflexivity. Qed.

(** The same timeout when the eighth executor does return before [main]
    sorts: the line still says 7/10 and the table has eight rows. *)
Definition eighth_arrives : Collector.State :=
  state_after answering_world ten_peers seven_returned
    [Collector.Count 7%nat; Collector.Send 7%nat; Collector.Receive].

Lemma state_after_later w ips ms : forall st,
  Collector.later w ips st (state_after w ips st ms).
Proof.
  induction ms as [|m ms IH]; intros st; [constructor|]. cbn [state_after].
  destruct (Collector.move w ips st m) as [st'|] eqn:E; [|constructor].
  econstructor; [by eapply move_step | apply IH].
Qed.

Lemma more_rows_than_the_printed_count :
  let s := Collector.after_timeout (@insertionSort) ten_peers seven_returned eighth_arrives in
  Collector.decides (@insertionSort) answering_world ten_peers seven_returned s /\
  Collector.message s = "Timeout reached. Collected 7/10 results." /\
  length (Collector.rows s) = 8%nat.
Proof.
  split; [|by vm_compute]. constructor; [by vm_compute | | by vm_compute].
  apply state_after_later.
Qed.

(** The outcomes of all executors that send one, in dispatch order. *)
Definition all_outcomes (w : World) (ips : list string) : list Collector.PingResult :=
  flat_map (fun addr => option_list (outcome w addr)) ips.

Lemma delivered_all_returned w ips : forall execs,
  length execs = length ips ->
  forallb Collector.isReturned execs = true ->
  delivered w ips execs = all_outcomes w ips /\ counted_execs execs = length ips.
Proof.
  unfold all_outcomes, counted_execs.
  induction ips as [|a ips IH]; intros [|e execs] Hl Hall; try done.
  cbn [forallb] in Hall. apply andb_prop in Hall as [He Hall].
  destruct e; try discriminate. simpl in Hl.
  destruct (IH execs ltac:(lia) Hall) as [IH1 IH2]. simpl. rewrite IH1, IH2. done.
Qed.

(** X12.  The other case of the [select]: when the collector signals, every
    executor has returned and the channel is drained, so "All results
    collected successfully." is printed only when the rows are the outcomes
    of all the probes that produced one (none missing, none twice) and the
    counter equals the number of peers dispatched. *)
Theorem collector_signal_means_all_collected
    (sortSlice : forall A, (A -> A -> bool) -> list A -> list A)
    (w : World) (ips : list string) (st : Collector.State) :
  SortSliceContract sortSlice ->
  supportedOS (GOOS w) = true ->
  Z.of_nat (length ips) < 2 ^ 31 ->
  Collector.reachable w ips st ->
  Collector.resultsDone st = true ->
  let s := Collector.after_done sortSlice ips st in
  Collector.decides sortSlice w ips st s /\
  forallb Collector.isReturned (Collector.execs st) = true /\
  Collector.collected s = Collector.total s /\
  Permutation (Collector.rows s) (all_outcomes w ips).
Proof.
  intros Hsort Hos Hlen Hreach Hdone s.
  destruct (reachable_inv w ips st Hos Hreach) as [Hcr Hl Hcnt Hsend Hres Hcl Hdn].
  destruct (Hdn Hdone) as [Hclosed Hempty].
  pose proof (Hcl Hclosed) as Hall.
  destruct (delivered_all_returned w ips _ Hl Hall) as [Hdel Hc].
  split; [by constructor|]. split; [done|]. split.
  - unfold s, Collector.after_done. cbn [Collector.collected Collector.total].
    by rewrite Hcnt, Hc.
  - unfold s, Collector.after_done. cbn [Collector.rows].
    rewrite <- (proj1 (Hsort _ _ _)). by rewrite <- Hdel, <- Hres, Hempty, app_nil_r.
Qed.

Definition two_hosts : list string := ["h0"; "h1"].

Definition both_collected : Collector.State :=
  state_after answering_world two_hosts (Collector.start two_hosts)
    [Collector.Count 1; Collector.Count 0; Collector.Send 0; Collector.Send 1;
     Collector.Receive; Collector.Close; Collector.Receive; Collector.Signal].

Lemma collector_signal_means_all_collected_witness :
  let s := Collector.after_done (@insertionSort) two_hosts both_collected in
  Collector.decides (@insertionSort) answering_world two_hosts both_collected s /\
  forallb Collector.isReturned (Collector.execs both_collected) = true /\
  Collector.collected s = Collector.total s /\
  Permutation (Collector.rows s) (all_outcomes answering_world two_hosts).
Proof.
  apply (collector_signal_means_all_collected (@insertionSort) answering_world two_hosts
           both_collected insertionSort_contract eq_refl).
  - vm_compute. reflexivity.
  - apply state_after_reachable. constructor.
  - vm_compute. reflexivity.
Defined.

Lemma Collector_scanLine_host r line :
  Collector.host (Collector.scanLine r line) = Collector.host r.
Proof.
  unfold Collector.scanLine.
  destruct (Collector.publicIPPattern line) as [[m1 m2]|];
    destruct (pingPattern line); reflexivity.
Qed.

Lemma Collector_scanLines_host lines : forall r,
  Collector.host (fold_left Collector.scanLine lines r) = Collector.host r.
Proof.
  induction lines as [|l lines IH]; intros r; [done|].
  cbn [fold_left]. by rewrite IH, Collector_scanLine_host.
Qed.

Lemma Collector_scanLines_no_egress lines : forall r,
  Forall (fun line => Collector.publicIPPattern line = None) lines ->
  Collector.externalIP (fold_left Collector.scanLine lines r) = Collector.externalIP r /\
  Collector.port (fold_left Collector.scanLine lines r) = Collector.port r.
Proof.
  induction lines as [|l lines IH]; intros r Hl; [done|].
  apply Forall_cons in Hl as [Hl Hls]. cbn [fold_left].
  destruct (IH (Collector.scanLine r l) Hls) as [-> ->].
  unfold Collector.scanLine. rewrite Hl. by destruct (pingPattern l).
Qed.

(** X13.  A result that the channel iteration's [pingIP] sends always names
    the probed host and never has an empty External IP or Port: where no
    line of the probe output has an egress marker both read "N/A".  A probe
    whose command fails is counted but sends nothing, and on an unsupported
    platform the executor dereferences the nil command. *)
Theorem sent_result_has_no_empty_column (w : World) (addr : string) (c : Z) :
  match (Collector.pingIP w addr c).1 with
  | Collector.Sent r =>
      Collector.host r = addr /\ Collector.externalIP r <> "" /\ Collector.port r <> "" /\
      exists output,
        tailscale_ping w addr = Some output /\
        (Forall (fun line => Collector.publicIPPattern line = None) (Split output "010") ->
         Collector.externalIP r = "N/A" /\ Collector.port r = "N/A")
  | Collector.Failed =>
      tailscale_ping w addr = None /\
      (Collector.pingIP w addr c).2 = atomic_AddInt32 c 1
  | Collector.Crashed => supportedOS (GOOS w) = false
  end.
Proof.
  unfold Collector.pingIP. destruct (supportedOS (GOOS w)); [|done].
  destruct (tailscale_ping w addr) as [output|]; [|done]. cbn [fst].
  set (r0 := fold_left Collector.scanLine _ _).
  assert (Hh : Collector.host r0 = addr) by apply Collector_scanLines_host.
  assert (Hn : Forall (fun line => Collector.publicIPPattern line = None) (Split output "010") ->
               Collector.externalIP r0 = "" /\ Collector.port r0 = "").
  { intros H. unfold r0.
    by destruct (Collector_scanLines_no_egress (Split output "010")
                   {| Collector.host := addr; Collector.externalIP := "";
                      Collector.port := ""; Collector.pings := [] |} H) as [-> ->]. }
  destruct (String.eqb_spec (Collector.externalIP r0) "") as [He|He];
    cbn [Collector.port Collector.externalIP Collector.host];
    destruct (String.eqb_spec (Collector.port r0) "") as [Hp|Hp];
    cbn [Collector.port Collector.externalIP Collector.host];
    (split; [done|]; split; [done|]; split; [done|]; exists output; split; [done|]);
    intros H; destruct (Hn H); done.
Qed.

(** Three outcomes: means 1 and 2, and one without samples. *)
Definition mean_one : Collector.PingResult :=
  {| Collector.host := "a"; Collector.externalIP := "N/A"; Collector.port := "N/A";
     Collector.pings := ["1"] |}.
Definition no_samples : Collector.PingResult :=
  {| Collector.host := "b"; Collector.externalIP := "N/A"; Collector.port := "N/A";
     Collector.pings := [] |}.
Definition mean_two : Collector.PingResult :=
  {| Collector.host := "c"; Collector.externalIP := "N/A"; Collector.port := "N/A";
     Collector.pings := ["2"] |}.

(** X14.  In the channel iteration [calculateAverage] divides by the length
    without a guard, so the mean of an empty sample list is 0/0 = NaN, and
    a result without samples compares as neither before nor after any
    other result.  The comparison handed to [sort.Slice] is therefore not a
    strict weak ordering: incomparability is not transitive. *)
Theorem channel_comparison_is_not_strict_weak :
  Collector.calculateAverage [] = S754_nan /\
  (forall r, Collector.pings r = [] ->
     forall r', Collector.less r r' = false /\ Collector.less r' r = false) /\
  ~ StrictWeak Collector.less.
Proof.
  split; [by vm_compute|]. split.
  - intros r Hr r'. unfold Collector.less. rewrite Hr.
    change (Collector.calculateAverage []) with S754_nan.
    unfold fltb, SFltb. cbn [SFcompare].
    by destruct (Collector.calculateAverage (Collector.pings r')) as [[|]|[|]| |[|] ? ?].
  - intros [_ _ Hinc].
    destruct (Hinc mean_one no_samples mean_two) as [H _];
      [by vm_compute | by vm_compute | by vm_compute | by vm_compute |].
    vm_compute in H. discriminate.
Qed.

Lemma listedLine_panics line :
  Collector.listedLine line = None <->
  Contains line "offline" = false /\
  exists f, Fields line = [f] /\ Contains f "." = true.
Proof.
  unfold Collector.listedLine.
  destruct (Contains line "offline"); [split; [discriminate|by intros [? _]]|].
  destruct (Fields line) as [|f0 [|f1 rest]].
  - split; [discriminate|]. by intros [_ (f & ? & _)].
  - destruct (Contains f0 ".") eqn:E.
    + split; [eauto|done].
    + split; [discriminate|]. intros [_ (f & [= <-] & ?)]. congruence.
  - destruct (Contains f0 "."); (split; [discriminate|]); by intros [_ (f & ? & _)].
Qed.

Lemma listedLine_entry line more ip :
  Collector.listedLine line = Some more -> ip ∈ more ->
  Contains line "offline" = false /\
  exists f0 rest, Fields line = f0 :: ip :: rest /\ Contains f0 "." = true.
Proof.
  unfold Collector.listedLine.
  destruct (Contains line "offline"); [by intros [= <-] ?%elem_of_nil|].
  destruct (Fields line) as [|f0 [|f1 rest]].
  - by intros [= <-] ?%elem_of_nil.
  - destruct (Contains f0 "."); [discriminate|]. by intros [= <-] ?%elem_of_nil.
  - destruct (Contains f0 ".") eqn:E; [|by intros [= <-] ?%elem_of_nil].
    intros [= <-] ->%list_elem_of_singleton. eauto.
Qed.

Lemma listLines_spec lines :
  match Collector.listLines lines with
  | None => exists line, line ∈ lines /\ Collector.listedLine line = None
  | Some ips =>
      (forall line, line ∈ lines -> Collector.listedLine line <> None) /\
      forall ip, ip ∈ ips ->
        exists line more, line ∈ lines /\ Collector.listedLine line = Some more /\ ip ∈ more
  end.
Proof.
  unfold Collector.listLines.
  induction lines as [|l lines IH] using rev_ind.
  - cbn. split; [by intros ? ?%elem_of_nil | by intros ? ?%elem_of_nil].
  - rewrite fold_left_app. cbn [fold_left].
    destruct (fold_left _ lines (Some [])) as [ips|].
    + destruct IH as [Hok Hin]. destruct (Collector.listedLine l) as [more|] eqn:El.
      * split.
        -- intros line [?| ->%list_elem_of_singleton]%elem_of_app; [by apply Hok|congruence].
        -- intros ip [Hip|Hip]%elem_of_app.
           ++ destruct (Hin ip Hip) as (line & m & ? & ? & ?).
              exists line, m. split; [apply elem_of_app; by left|done].
           ++ exists l, more. split; [apply elem_of_app; right; by apply list_elem_of_singleton|done].
      * exists l. split; [apply elem_of_app; right; by apply list_elem_of_singleton|done].
    + destruct IH as (line & ? & ?). exists line. split; [apply elem_of_app; by left|done].
Qed.

(** X15.  [getTailscaleIPs] of the channel iteration indexes [fields[1]]
    after testing only that the first field exists and contains a dot.  On
    a supported platform whose status command succeeds it therefore panics
    exactly when some line without "offline" consists of a single field
    containing a dot; otherwise every entry it returns is the second field
    of a line without "offline" whose first field contains a dot. *)
Theorem getTailscaleIPs_panics_on_a_lone_dotted_field (w : World) (output : string) :
  supportedOS (GOOS w) = true ->
  tailscale_status w = Some output ->
  (Collector.getTailscaleIPs w = Collector.Panics <->
   exists line f, line ∈ scanLines output /\ Contains line "offline" = false /\
                  Fields line = [f] /\ Contains f "." = true) /\
  (forall ips ip, Collector.getTailscaleIPs w = Collector.Listed ips -> ip ∈ ips ->
   exists line f0 rest, line ∈ scanLines output /\ Contains line "offline" = false /\
                        Fields line = f0 :: ip :: rest /\ Contains f0 "." = true).
Proof.
  intros Hos Hst. unfold Collector.getTailscaleIPs. rewrite Hos, Hst.
  pose proof (listLines_spec (scanLines output)) as H.
  destruct (Collector.listLines (scanLines output)) as [ips|].
  - destruct H as [Hok Hin]. split.
    + split; [discriminate|]. intros (line & f & Hl & Hoff & Hf & Hdot).
      destruct (Hok line Hl). apply listedLine_panics. eauto.
    + intros ips' ip [= <-] Hip. destruct (Hin ip Hip) as (line & more & Hl & Hm & Hi).
      destruct (listedLine_entry line more ip Hm Hi) as (Hoff & f0 & rest & Hf & Hdot).
      exists line, f0, rest. done.
  - destruct H as (line & Hl & Hp). split; [|discriminate].
    split; [|done]. intros _. apply listedLine_panics in Hp as (Hoff & f & Hf & Hdot).
    exists line, f. done.
Qed.

Definition lone_field_world : World :=
  {| GOOS := "linux"; tailscale_version := true;
     tailscale_status := Some ("100.64.0.1 laptop bob@ linux -" +:+ newline +:+
                               "100.64.0.2" +:+ newline);
     tailscale_ping := fun _ => None; ip_api := fun _ => None |}.

Lemma getTailscaleIPs_panics_on_a_lone_dotted_field_witness :
  Collector.getTailscaleIPs lone_field_world = Collector.Panics.
Proof.
  apply (proj1 (getTailscaleIPs_panics_on_a_lone_dotted_field lone_field_world _
                  eq_refl eq_refl)).
  exists "100.64.0.2", "100.64.0.2". split; [|by vm_compute].
  vm_compute. apply list_elem_of_In. right. left. reflexivity.
Defined.

(** * The shape of the report *)

(** What identifies a peer in the status listing. *)
Definition ident (r : PingResult) : string * string * string * string :=
  (ip r, hostname r, user r, os r).

Lemma pingIP_ident w r c : ident (pingIP w r c).1.1 = ident r.
Proof.
  unfold ident. rewrite pingIP_unfold.
  destruct (supportedOS (GOOS w)); [|done].
  destruct (tailscale_ping w (ip r)) as [output|]; [|done]. cbn [fst].
  destruct (scanLines_identity w (Split output "010") (r, [])) as (-> & -> & -> & -> & _).
  done.
Qed.

Lemma probeAll_ident w rs : map ident (probeAll w rs) = map ident rs.
Proof.
  unfold probeAll. rewrite map_map. apply map_ext. intros r. apply pingIP_ident.
Qed.

Lemma assignGroups_ident pv6 rs : map ident (assignGroups pv6 rs) = map ident rs.
Proof.
  unfold assignGroups, assignPass. generalize (countPass pv6 rs). intros gc.
  assert (H : forall st,
    map ident (fold_left (assignStep pv6 gc) rs st).2 = map ident st.2 ++ map ident rs).
  { induction rs as [|r rs IH]; intros st; [by rewrite app_nil_r|].
    cbn [fold_left]. rewrite IH. destruct st as [[gm n] visited].
    unfold assignStep. destruct (negb (grouped pv6 r)).
    - cbn [snd]. by rewrite map_app, <- app_assoc.
    - destruct (gm !! externalIP r); cbn [snd]; by rewrite map_app, <- app_assoc. }
  apply (H (∅, 1, [])).
Qed.

(** X17.  What [main] does with the peer list: it stops with an error when
    the availability check or the status command fails, it announces that
    there are no peers when the reader returns none, and otherwise the
    report has exactly one row for every peer the reader returned (same
    address, host name, owner and platform), whether or not its probe
    succeeded. *)
Theorem report_has_one_row_per_listed_peer (parseIPv6 : string -> option Z)
    (sortSlice : forall A, (A -> A -> bool) -> list A -> list A) (w : World) :
  SortSliceContract sortSlice ->
  match main parseIPv6 sortSlice w with
  | Fatal _ => checkTailscale w = false \/ getTailscaleStatus w = None
  | NoPeers => checkTailscale w = true /\ getTailscaleStatus w = Some []
  | Report rows =>
      checkTailscale w = true /\
      exists peers, getTailscaleStatus w = Some peers /\ peers <> [] /\
                    Permutation (map ident rows) (map ident peers)
  end.
Proof.
  intros Hsort. unfold main.
  destruct (checkTailscale w); cbn [negb]; [|by left].
  destruct (getTailscaleStatus w) as [peers|]; [|by right].
  destruct peers as [|p peers]; cbn [length Nat.eqb]; [done|].
  split; [done|]. exists (p :: peers). split; [done|]. split; [done|].
  unfold rank. rewrite <- (proj1 (Hsort _ _ _)).
  by rewrite assignGroups_ident, probeAll_ident.
Qed.

Lemma report_has_one_row_per_listed_peer_witness :
  match main noIPv6 (@insertionSort) world_two_peers with
  | Fatal _ => checkTailscale world_two_peers = false \/
               getTailscaleStatus world_two_peers = None
  | NoPeers => checkTailscale world_two_peers = true /\
               getTailscaleStatus world_two_peers = Some []
  | Report rows =>
      checkTailscale world_two_peers = true /\
      exists peers, getTailscaleStatus world_two_peers = Some peers /\ peers <> [] /\
                    Permutation (map ident rows) (map ident peers)
  end.
Proof.
  exact (report_has_one_row_per_listed_peer noIPv6 (@insertionSort) world_two_peers
           insertionSort_contract).
Defined.

(** * Further properties of the directory reader *)

Fixpoint noAsciiSpace (s : string) : bool :=
  match s with
  | EmptyString => true
  | String c rest => negb (asciiSpace c) && noAsciiSpace rest
  end.

Lemma noAsciiSpace_snoc s c :
  noAsciiSpace (s +:+ String c "") = noAsciiSpace s && negb (asciiSpace c).
Proof.
  induction s as [|x s IH].
  { change ("" +:+ String c "") with (String c ""). cbn [noAsciiSpace andb].
    by rewrite andb_true_r. }
  rewrite append_cons. cbn [noAsciiSpace]. by rewrite IH, andb_assoc.
Qed.

Lemma spaceWidth_zero c rest : spaceWidth (String c rest) = 0%nat -> asciiSpace c = false.
Proof. cbn [spaceWidth]. by destruct (asciiSpace c). Qed.

(** A field is what [strings.Fields] returns: not empty and free of ASCII
    white space. *)
Definition cleanField (f : string) : Prop := f <> "" /\ noAsciiSpace f = true.

Lemma flushField_clean cur : noAsciiSpace cur = true -> Forall cleanField (flushField cur).
Proof.
  intros H. destruct cur as [|c cur]; [constructor|].
  constructor; [|constructor]. by split.
Qed.

Lemma Fields_go_clean s : forall skip cur,
  noAsciiSpace cur = true -> Forall cleanField (Fields_go s skip cur).
Proof.
  induction s as [|c s IH]; intros skip cur Hcur; cbn [Fields_go].
  - by apply flushField_clean.
  - destruct skip as [|k]; [|by apply IH].
    destruct (spaceWidth (String c s)) as [|k] eqn:E.
    + apply IH. rewrite noAsciiSpace_snoc, Hcur. by rewrite (spaceWidth_zero c s E).
    + apply Forall_app. split; [by apply flushField_clean | by apply IH].
Qed.

Lemma Fields_clean s : Forall cleanField (Fields s).
Proof. by apply Fields_go_clean. Qed.

Lemma nth_clean (fields : list string) i :
  Forall cleanField fields -> (i < length fields)%nat -> cleanField (nth i fields "").
Proof.
  intros H Hi. rewrite List.Forall_forall in H. apply H. by apply nth_In.
Qed.

(** X18.  Every peer [getTailscaleStatus] returns comes from a line with at
    least four fields: its address, host name, owner and platform are not
    empty and contain no ASCII white space, and its probe attributes
    (egress address, port, samples, group, ISP) start out empty. *)
Theorem listed_peer_has_four_clean_fields (w : World) (peers : list PingResult)
    (r : PingResult) :
  getTailscaleStatus w = Some peers -> r ∈ peers ->
  (cleanField (ip r) /\ cleanField (hostname r) /\ cleanField (user r) /\
   cleanField (os r)) /\
  externalIP r = "" /\ port r = "" /\ pings r = [] /\ group r = "" /\ isp r = "".
Proof.
  unfold getTailscaleStatus. destruct (supportedOS (GOOS w)); [|discriminate].
  destruct (tailscale_status w) as [output|]; [|discriminate].
  intros [= <-]. rewrite scanStatus_lineRecords. unfold lineRecords.
  intros Hr. apply list_elem_of_In, in_flat_map in Hr as (text & _ & Hr).
  destruct (statusLine text) as [r'|] eqn:Es; [|by destruct Hr].
  destruct Hr as [->|[]]. unfold statusLine in Es. cbv zeta in Es.
  destruct (_ || _ || _); [discriminate|].
  pose proof (Fields_clean (TrimSpace text)) as Hc.
  destruct (Nat.ltb_spec (length (Fields (TrimSpace text))) 4); [discriminate|].
  destruct (Contains _ "offline"); [discriminate|].
  injection Es as <-. cbn [ip hostname user os externalIP port pings group isp].
  split; [|done]. repeat split; (apply nth_clean; [done|lia]).
Qed.

Lemma listed_peer_has_four_clean_fields_witness :
  (cleanField "100.64.0.1" /\ cleanField "alpha" /\ cleanField "bob@" /\
   cleanField "linux") /\
  "" = "" /\ "" = "" /\ @nil string = [] /\ "" = "" /\ "" = "".
Proof.
  exact (listed_peer_has_four_clean_fields world_two_peers two_peers
           {| ip := "100.64.0.1"; hostname := "alpha"; user := "bob@"; os := "linux";
              externalIP := ""; port := ""; pings := []; group := ""; isp := "" |}
           eq_refl ltac:(vm_compute; apply list_elem_of_In; left; reflexivity)).
Defined.

(** Printable ASCII other than the space. *)
Definition visible (c : ascii) : bool := (33 <=? byte_of c) && (byte_of c <=? 126).

Fixpoint allVisible (s : string) : bool :=
  match s with
  | EmptyString => true
  | String c rest => visible c && allVisible rest
  end.

(** A column of the status listing as the tool prints it. *)
Definition token (t : string) : Prop := t <> "" /\ allVisible t = true.

Lemma visible_no_space c : visible c = true ->
  asciiSpace c = false /\
  (forall b, space2 c b = false /\ space2 b c = false) /\
  (forall a b, space3 c a b = false /\ space3 a b c = false).
Proof.
  unfold visible, asciiSpace, space2, space3. intros H.
  apply andb_prop in H as [H1 H2]. split; [lia|]. split; intros; split; lia.
Qed.

Lemma spaceWidth_visible c rest : visible c = true -> spaceWidth (String c rest) = 0%nat.
Proof.
  intros (Ha & H2 & H3)%visible_no_space. cbn [spaceWidth]. rewrite Ha.
  destruct rest as [|b [|d r]]; [done| |].
  - by rewrite (proj1 (H2 b)).
  - by rewrite (proj1 (H2 b)), (proj1 (H3 b d)).
Qed.

Lemma Fields_go_token t : forall rest cur,
  allVisible t = true ->
  Fields_go (t +:+ rest) 0 cur = Fields_go rest 0 (cur +:+ t).
Proof.
  induction t as [|c t IH]; intros rest cur Ht.
  - by rewrite append_nil_r.
  - cbn [allVisible] in Ht. apply andb_prop in Ht as [Hc Ht].
    rewrite append_cons. cbn [Fields_go].
    rewrite (spaceWidth_visible c (t +:+ rest) Hc), IH by done.
    by rewrite append_assoc.
Qed.

Lemma Fields_go_space rest cur :
  Fields_go (String " " rest) 0 cur = flushField cur ++ Fields_go rest 0 "".
Proof. reflexivity. Qed.

Lemma Fields_Join t ts :
  token t -> Forall token ts -> Fields (Join (t :: ts) " ") = t :: ts.
Proof.
  unfold Fields. revert t. induction ts as [|t' ts IH]; intros t [Hne Hv] Hts.
  - cbn [Join]. rewrite <- (append_nil_r t) at 1. rewrite Fields_go_token by done.
    cbn [Fields_go]. by destruct t.
  - apply Forall_cons in Hts as [Ht' Hts].
    change (Join (t :: t' :: ts) " ") with (t +:+ String " " (Join (t' :: ts) " ")).
    rewrite Fields_go_token, Fields_go_space by done. cbn [append].
    rewrite (IH t' Ht' Hts). by destruct t.
Qed.

Lemma trimLeft_visible c s : visible c = true -> trimLeft (String c s) = String c s.
Proof.
  intros (Ha & H2 & H3)%visible_no_space. cbn [trimLeft]. rewrite Ha.
  destruct s as [|b [|d r]]; [done| |].
  - by rewrite (proj1 (H2 b)).
  - by rewrite (proj1 (H2 b)), (proj1 (H3 b d)).
Qed.

Lemma trimLeftRev_visible c s : visible c = true -> trimLeftRev (String c s) = String c s.
Proof.
  intros (Ha & H2 & H3)%visible_no_space. cbn [trimLeftRev]. rewrite Ha.
  destruct s as [|b [|d r]]; [done| |].
  - by rewrite (proj2 (H2 b)).
  - by rewrite (proj2 (H2 b)), (proj2 (H3 d b)).
Qed.

(** The last byte is visible. *)
Fixpoint endsVisible (s : string) : bool :=
  match s with
  | EmptyString => false
  | String c EmptyString => visible c
  | String _ rest => endsVisible rest
  end.

Lemma endsVisible_rev s : endsVisible s = true ->
  exists c r, String.rev s = String c r /\ visible c = true.
Proof.
  induction s as [|x s IH]; [done|]. intros H. rewrite rev_cons.
  destruct s as [|y s].
  - exists x, "". by split.
  - destruct (IH H) as (c & r & -> & Hc). exists c, (r +:+ String x ""). by split.
Qed.

Lemma endsVisible_append a b : b <> "" -> endsVisible (a +:+ b) = endsVisible b.
Proof.
  intros Hb. induction a as [|x a IH]; [done|]. rewrite append_cons.
  cbn [endsVisible]. destruct (a +:+ b) eqn:E; [|done].
  destruct a; [|discriminate]. by destruct b.
Qed.

Lemma endsVisible_token t : token t -> endsVisible t = true.
Proof.
  intros [Hne Hv]. induction t as [|c t IH]; [done|].
  cbn [allVisible] in Hv. apply andb_prop in Hv as [Hc Hv].
  destruct t as [|d t]; [done|]. apply IH; done.
Qed.

Lemma Join_nonempty t ts : t <> "" -> Join (t :: ts) " " <> "".
Proof. intros Ht. destruct ts; cbn [Join]; by destruct t. Qed.

Lemma endsVisible_Join t ts :
  token t -> Forall token ts -> endsVisible (Join (t :: ts) " ") = true.
Proof.
  revert t. induction ts as [|t' ts IH]; intros t Ht Hts.
  - by apply endsVisible_token.
  - apply Forall_cons in Hts as [Ht' Hts].
    change (Join (t :: t' :: ts) " ") with (t +:+ String " " (Join (t' :: ts) " ")).
    rewrite endsVisible_append by done.
    cbn [endsVisible]. pose proof (Join_nonempty t' ts (proj1 Ht')) as Hne.
    destruct (Join (t' :: ts) " ") eqn:E; [done|]. rewrite <- E. by apply IH.
Qed.

Lemma TrimSpace_Join t ts :
  token t -> Forall token ts -> TrimSpace (Join (t :: ts) " ") = Join (t :: ts) " ".
Proof.
  intros Ht Hts. unfold TrimSpace, trimRight.
  assert (Hl : trimLeft (Join (t :: ts) " ") = Join (t :: ts) " ").
  { destruct Ht as [Hne Hv]. destruct t as [|c t]; [done|].
    cbn [allVisible] in Hv. apply andb_prop in Hv as [Hc _].
    destruct ts; [by apply trimLeft_visible|].
    change (Join (String c t :: s :: ts) " ")
      with (String c (t +:+ String " " (Join (s :: ts) " "))).
    by apply trimLeft_visible. }
  rewrite Hl.
  destruct (endsVisible_rev _ (endsVisible_Join t ts Ht Hts)) as (c & r & E & Hc).
  rewrite E, trimLeftRev_visible, <- E by done. apply rev_involutive.
Qed.

(** X19.  A status line as the tool prints it, four or more columns of
    printable characters separated by single spaces, is read back column by
    column: unless it starts with '#' or contains "Self", the reader drops
    it exactly when "offline" occurs in the columns after the fourth
    (joined by spaces), and otherwise returns the peer made of the first
    four columns.  "offline" inside the host name or the owner does not
    drop the peer. *)
Theorem status_line_round_trip (a h u o : string) (status : list string) :
  Forall token (a :: h :: u :: o :: status) ->
  HasPrefix a "#" = false ->
  Contains (Join (a :: h :: u :: o :: status) " ") "Self" = false ->
  statusLine (Join (a :: h :: u :: o :: status) " ") =
  if Contains (Join status " ") "offline" then None
  else Some {| ip := a; hostname := h; user := u; os := o;
               externalIP := ""; port := ""; pings := []; group := ""; isp := "" |}.
Proof.
  intros Htok Hhash Hself.
  pose proof Htok as Htok'. apply Forall_cons in Htok' as [Ha Hrest].
  unfold statusLine. cbv zeta.
  rewrite (TrimSpace_Join a _ Ha Hrest), (Fields_Join a _ Ha Hrest), Hself.
  assert (Hne : String.eqb (Join (a :: h :: u :: o :: status) " ") "" = false).
  { apply String.eqb_neq. apply Join_nonempty, Ha. }
  assert (Hp : HasPrefix (Join (a :: h :: u :: o :: status) " ") "#" = false).
  { destruct Ha as [Hane _]. destruct a as [|c a]; [done|].
    change (Join (String c a :: h :: u :: o :: status) " ")
      with (String c (a +:+ String " " (Join (h :: u :: o :: status) " "))).
    assert (Hnil : forall t, HasPrefix t "" = true) by (by intros [|]).
    cbn [HasPrefix] in *. rewrite Hnil in *. done. }
  rewrite Hne, Hp. cbn [orb length Nat.ltb Nat.leb skipn nth].
  reflexivity.
Qed.

Lemma status_line_round_trip_witness :
  statusLine "100.64.0.9 offline-box bob@ linux active; direct" =
  Some {| ip := "100.64.0.9"; hostname := "offline-box"; user := "bob@"; os := "linux";
          externalIP := ""; port := ""; pings := []; group := ""; isp := "" |}.
Proof.
  apply (status_line_round_trip "100.64.0.9" "offline-box" "bob@" "linux"
           ["active;"; "direct"]).
  - repeat constructor; done.
  - reflexivity.
  - vm_compute. reflexivity.
Defined.

(** * Labels and egress addresses; the capacity of the channel; the first reader *)

Lemma label_id_inj n1 n2 c1 c2 :
  1 <= n1 <= 55231 -> 1 <= n2 <= 55231 ->
  numberToLetterWithCount n1 c1 = numberToLetterWithCount n2 c2 -> n1 = n2.
Proof.
  intros H1 H2 E. destruct (Z.lt_trichotomy n1 n2) as [Hlt | [-> | Hgt]]; [|done|].
  - pose proof (label_order n1 n2 c1 c2 ltac:(lia) Hlt ltac:(lia)) as Hl.
    rewrite E, string_ltb_irrefl in Hl. discriminate.
  - pose proof (label_order n2 n1 c2 c1 ltac:(lia) ltac:(lia) ltac:(lia)) as Hl.
    rewrite E, string_ltb_irrefl in Hl. discriminate.
Qed.

Lemma grouped_id_bound pv6 rs e n : Z.of_nat (length rs) < 2 ^ 63 ->
  groupMap_of pv6 rs !! e = Some n -> 1 <= n <= Z.of_nat (length rs).
Proof.
  intros Hlen Hn. apply (groupMap_ids pv6 rs Hlen) in Hn as [Hi Hn].
  apply lookup_lt_Some in Hi.
  pose proof (firstSeen_length (publicIPs pv6 rs)).
  pose proof (publicIPs_length pv6 rs). lia.
Qed.

(** X20.  After the grouping passes, two peers with public egress
    addresses show the same group label exactly when their egress addresses
    are equal, and that label is not empty (for lists of up to 55231
    peers). *)
Theorem same_label_iff_same_egress (parseIPv6 : string -> option Z)
    (rs : list PingResult) (i j : nat) (ri rj ai aj : PingResult) :
  Z.of_nat (length rs) <= 55231 ->
  rs !! i = Some ri -> rs !! j = Some rj ->
  grouped parseIPv6 ri = true -> grouped parseIPv6 rj = true ->
  assignGroups parseIPv6 rs !! i = Some ai ->
  assignGroups parseIPv6 rs !! j = Some aj ->
  (group ai = group aj <-> externalIP ri = externalIP rj) /\ group ai <> "".
Proof.
  intros Hlen Hi Hj Hgi Hgj Hai Haj.
  assert (Hlen' : Z.of_nat (length rs) < 2 ^ 63) by lia.
  rewrite (assignGroups_map parseIPv6 rs Hlen'), list_lookup_fmap in Hai, Haj.
  rewrite Hi in Hai. rewrite Hj in Haj. cbn in Hai, Haj.
  injection Hai as <-. injection Haj as <-.
  unfold labelled. rewrite Hgi, Hgj. cbn [set_group group].
  destruct (grouped_has_id parseIPv6 rs ri Hlen') as [ni Hni];
    [by eapply list_elem_of_lookup_2 | done |].
  destruct (grouped_has_id parseIPv6 rs rj Hlen') as [nj Hnj];
    [by eapply list_elem_of_lookup_2 | done |].
  pose proof (grouped_id_bound _ _ _ _ Hlen' Hni) as Hbi.
  pose proof (grouped_id_bound _ _ _ _ Hlen' Hnj) as Hbj.
  unfold map_get. rewrite Hni, Hnj. cbn [default]. unfold id. split; [split|].
  - intros E. apply label_id_inj in E; [|lia|lia]. subst nj.
    apply (groupMap_ids parseIPv6 rs Hlen') in Hni as [Hni _].
    apply (groupMap_ids parseIPv6 rs Hlen') in Hnj as [Hnj _]. congruence.
  - intros E. rewrite E in Hni. rewrite Hni in Hnj. injection Hnj as <-. by rewrite E.
  - apply label_nonempty. lia.
Qed.

Lemma same_label_iff_same_egress_witness :
  let a0 := default fresh_peer (assignGroups noIPv6 sample_probed !! 0%nat) in
  let a4 := default fresh_peer (assignGroups noIPv6 sample_probed !! 4%nat) in
  (group a0 = group a4 <-> "203.0.113.5" = "203.0.113.5") /\ group a0 <> "".
Proof.
  apply (same_label_iff_same_egress noIPv6 sample_probed 0 4
           (probed "100.64.0.1" "203.0.113.5" ["17"; "22"; "19"])
           (probed "100.64.0.5" "203.0.113.5" ["9"]));
    vm_compute; done.
Defined.

Definition returned_execs (execs : list Collector.Exec) : nat :=
  length (List.filter Collector.isReturned execs).

Lemma delivered_returned w ips : forall execs,
  (length (delivered w ips execs) <= returned_execs execs)%nat.
Proof.
  unfold returned_execs.
  induction ips as [|a ips IH]; intros [|e execs]; simpl; try lia.
  rewrite length_app. specialize (IH execs).
  destruct e; simpl; try lia. destruct (outcome w a); simpl; lia.
Qed.

Lemma returned_lt (execs : list Collector.Exec) i e :
  execs !! i = Some e -> Collector.isReturned e = false ->
  (returned_execs execs < length execs)%nat.
Proof.
  unfold returned_execs. revert i. induction execs as [|x l IH]; intros [|i] H He; try done.
  - injection H as ->. simpl. rewrite He.
    pose proof (List.filter_length_le Collector.isReturned l). lia.
  - simpl in H. specialize (IH i H He). simpl.
    destruct (Collector.isReturned x); simpl; lia.
Qed.

(** X21.  The result channel of the channel iteration never holds more
    outcomes than it has room for: what is in the channel and what the
    collector has appended together never exceed the number of executors
    that have returned, and whenever an executor is about to send there is
    a free place, so no send ever waits. *)
Theorem channel_never_exceeds_its_capacity (w : World) (ips : list string)
    (st : Collector.State) :
  supportedOS (GOOS w) = true ->
  Collector.reachable w ips st ->
  (length (Collector.chan st) + length (Collector.resultsList st)
     <= returned_execs (Collector.execs st) <= length ips)%nat /\
  (forall i r, Collector.execs st !! i = Some (Collector.Sending r) ->
     (length (Collector.chan st) < length ips)%nat).
Proof.
  intros Hos Hreach.
  destruct (reachable_inv w ips st Hos Hreach) as [Hcr Hl Hcnt Hsend Hres Hcl Hdn].
  pose proof (delivered_returned w ips (Collector.execs st)) as Hd.
  rewrite <- (Permutation_length Hres), length_app in Hd.
  assert (Hle : (returned_execs (Collector.execs st) <= length ips)%nat).
  { rewrite <- Hl. apply List.filter_length_le. }
  split; [lia|]. intros i r Hi.
  pose proof (returned_lt _ i _ Hi eq_refl). lia.
Qed.

Lemma channel_never_exceeds_its_capacity_witness :
  (length (Collector.chan seven_returned) + length (Collector.resultsList seven_returned)
     <= returned_execs (Collector.execs seven_returned) <= length ten_peers)%nat /\
  (forall i r, Collector.execs seven_returned !! i = Some (Collector.Sending r) ->
     (length (Collector.chan seven_returned) < length ten_peers)%nat).
Proof.
  apply (channel_never_exceeds_its_capacity answering_world ten_peers seven_returned eq_refl).
  apply state_after_reachable. constructor.
Defined.

Lemma First_listedLine_entry line ip :
  ip ∈ First.listedLine line ->
  Contains ip "." = true /\ Contains line "offline" = false /\
  exists f0 rest, Fields line = f0 :: ip :: rest.
Proof.
  unfold First.listedLine.
  destruct (Contains line "offline"); [by intros ?%elem_of_nil|].
  destruct (Fields line) as [|f0 [|f1 rest]]; try by intros ?%elem_of_nil.
  destruct (Contains f1 ".") eqn:E; [|by intros ?%elem_of_nil].
  intros ->%list_elem_of_singleton. eauto.
Qed.

(** X22.  The reader of the first iteration returns only second fields
    that contain a dot, each from a line without "offline"; a listing in
    which no second column contains a dot (host names such as "alpha")
    yields no peer at all, whatever its first column holds. *)
Theorem first_reader_lists_only_dotted_second_fields (w : World) (output : string)
    (ips : list string) :
  tailscale_status w = Some output ->
  First.getTailscaleIPs w = Some ips ->
  (forall ip, ip ∈ ips ->
     Contains ip "." = true /\
     exists line f0 rest, line ∈ scanLines output /\ Contains line "offline" = false /\
                          Fields line = f0 :: ip :: rest) /\
  ((forall line, line ∈ scanLines output -> Contains (nth 1 (Fields line) "") "." = false) ->
   ips = []).
Proof.
  intros Hst. unfold First.getTailscaleIPs. rewrite Hst. intros [= <-].
  assert (H : forall lines acc ip,
            ip ∈ fold_left (fun ips line => ips ++ First.listedLine line) lines acc ->
            ip ∈ acc \/ exists line, line ∈ lines /\ ip ∈ First.listedLine line).
  { induction lines as [|l lines IH]; intros acc ip Hip; [by left|].
    cbn [fold_left] in Hip. destruct (IH _ _ Hip) as [[?|?]%elem_of_app | (line & ? & ?)].
    - by left.
    - right. exists l. split; [left|done].
    - right. exists line. split; [by right|done]. }
  assert (Hin : forall ip,
            ip ∈ fold_left (fun ips line => ips ++ First.listedLine line) (scanLines output) [] ->
            exists line, line ∈ scanLines output /\ ip ∈ First.listedLine line).
  { intros ip Hip. destruct (H _ _ _ Hip) as [?%elem_of_nil|?]; done. }
  split.
  - intros ip Hip. destruct (Hin ip Hip) as (line & Hl & He).
    destruct (First_listedLine_entry line ip He) as (Hdot & Hoff & f0 & rest & Hf).
    split; [done|]. exists line, f0, rest. done.
  - intros Hno.
    destruct (fold_left _ (scanLines output) []) as [|ip ips'] eqn:E; [done|].
    destruct (Hin ip) as (line & Hl & He); [left|].
    destruct (First_listedLine_entry line ip He) as (Hdot & _ & f0 & rest & Hf).
    specialize (Hno line Hl). rewrite Hf in Hno. cbn [nth] in Hno. congruence.
Qed.

Lemma first_reader_lists_only_dotted_second_fields_witness :
  default ["?"] (First.getTailscaleIPs world_two_peers) = [].
Proof.
  refine (proj2 (first_reader_lists_only_dotted_second_fields world_two_peers _ _
                   eq_refl _) _).
  - vm_compute. reflexivity.
  - intros line Hl. apply list_elem_of_In in Hl. vm_compute in Hl.
    destruct Hl as [<-|[<-|[]]]; vm_compute; reflexivity.
Defined.

(** * The mean latency in closed form *)

Lemma parsedSamples_perm p1 p2 :
  Permutation p1 p2 -> Permutation (parsedSamples p1) (parsedSamples p2).
Proof.
  induction 1 as [|x l l' _ IH|x y l|l l' l'' _ IH1 _ IH2]; cbn [parsedSamples].
  - done.
  - destruct (Atoi x) as [v [|]]; [by constructor|done].
  - destruct (Atoi x) as [vx [|]], (Atoi y) as [vy [|]]; try done. apply perm_swap.
  - by etransitivity.
Qed.

Lemma sumZ_perm v1 v2 : Permutation v1 v2 -> sumZ v1 = sumZ v2.
Proof.
  unfold sumZ. induction 1 as [|x l l' _ IH|x y l|l l' l'' _ IH1 _ IH2]; cbn [fold_right]; lia.
Qed.

(** X23.  [calculateAverage] in closed form: 0 for no samples, and otherwise
    the binary64 quotient of the sum of the samples that parse, wrapped to
    64 bits as Go's [int] addition does, by the number of all samples.  So
    the result does not depend on the order of the samples, and when every
    sample parses and the sum fits an [int] it is the mean of the samples
    (rounded as the conversions and the division round). *)
Theorem calculateAverage_closed_form (pings : list string) :
  calculateAverage pings =
    (if Nat.eqb (length pings) 0 then S754_zero false
     else fdiv (float64_of_int (wrap64 (sumZ (parsedSamples pings))))
               (float64_of_int (Z.of_nat (length pings)))) /\
  (forall pings', Permutation pings pings' ->
     calculateAverage pings = calculateAverage pings') /\
  (Forall (fun p => (Atoi p).2 = true) pings ->
   - 2 ^ 63 <= sumZ (parsedSamples pings) < 2 ^ 63 ->
   calculateAverage pings = specMean pings).
Proof.
  split; [apply calculateAverage_value|]. split.
  - intros pings' Hp. rewrite !calculateAverage_value.
    rewrite (Permutation_length Hp), (sumZ_perm _ _ (parsedSamples_perm _ _ Hp)). done.
  - apply calculateAverage_specMean.
Qed.

(** * Arrival order and the report *)

(** C7, as stated, for the iteration that has a collector: two complete
    runs of the same peers with the same probe outcomes render the same
    rows in the same order. *)
Definition arrival_order_never_shows
    (sortSlice : forall A, (A -> A -> bool) -> list A -> list A) : Prop :=
  forall w ips st1 st2,
    supportedOS (GOOS w) = true ->
    Collector.reachable w ips st1 -> Collector.resultsDone st1 = true ->
    Collector.reachable w ips st2 -> Collector.resultsDone st2 = true ->
    Collector.rows (Collector.after_done sortSlice ips st1) =
    Collector.rows (Collector.after_done sortSlice ips st2).

(** Two hosts with the same probe output, hence the same mean; the first
    run receives h0 before h1, the second h1 before h0. *)
Definition h0_first : Collector.State :=
  state_after answering_world two_hosts (Collector.start two_hosts)
    [Collector.Count 0%nat; Collector.Send 0%nat; Collector.Count 1%nat; Collector.Send 1%nat;
     Collector.Receive; Collector.Receive; Collector.Close; Collector.Signal].

Definition h1_first : Collector.State :=
  state_after answering_world two_hosts (Collector.start two_hosts)
    [Collector.Count 1%nat; Collector.Send 1%nat; Collector.Count 0%nat; Collector.Send 0%nat;
     Collector.Receive; Collector.Receive; Collector.Close; Collector.Signal].

(** It fails there: the collector appends in arrival order, the comparison
    looks at the mean only, and on a slice of two [sort.Slice] runs the
    insertion sort, which leaves rows of equal mean where they are. *)
Lemma arrival_order_shows_in_the_channel_report :
  ~ arrival_order_never_shows (@insertionSort).
Proof.
  intros H.
  specialize (H answering_world two_hosts h0_first h1_first eq_refl).
  assert (Hr : forall ms, Collector.reachable answering_world two_hosts
                 (state_after answering_world two_hosts (Collector.start two_hosts) ms)).
  { intros ms. apply state_after_reachable. constructor. }
  specialize (H (Hr _) ltac:(vm_compute; reflexivity) (Hr _) ltac:(vm_compute; reflexivity)).
  vm_compute in H. discriminate.
Qed.

(** C7, amended.  In [src/main.go] every goroutine writes its own element
    of [resultsList], so two complete runs that differ in the order in
    which the goroutines finish leave the same list and the ranked report
    is the same: the one computed from the slots in dispatch order.  In the
    channel iteration the collector appends in arrival order: two runs in
    which the collector signals render the same rows, the outcomes of all
    probes that produced one, each once, but in an order that is fixed only
    up to what the sort does with that arrival order. *)
Theorem report_order_and_arrival_order (parseIPv6 : string -> option Z)
    (sortSlice : forall A, (A -> A -> bool) -> list A -> list A) (w : World) :
  SortSliceContract sortSlice ->
  (forall rs st1 st2,
     steps w (dispatch rs) st1 -> all_done st1 = true ->
     steps w (dispatch rs) st2 -> all_done st2 = true ->
     map slot_result (slots st1) = map slot_result (slots st2) /\
     rank parseIPv6 sortSlice (map slot_result (slots st1)) =
     rank parseIPv6 sortSlice (map slot_result (slots st2)) /\
     rank parseIPv6 sortSlice (map slot_result (slots st1)) =
     rank parseIPv6 sortSlice (probeAll w rs)) /\
  (supportedOS (GOOS w) = true ->
   forall ips st1 st2,
     Collector.reachable w ips st1 -> Collector.resultsDone st1 = true ->
     Collector.reachable w ips st2 -> Collector.resultsDone st2 = true ->
     Permutation (Collector.rows (Collector.after_done sortSlice ips st1))
                 (Collector.rows (Collector.after_done sortSlice ips st2)) /\
     Permutation (Collector.rows (Collector.after_done sortSlice ips st1))
                 (all_outcomes w ips)).
Proof.
  intros Hsort. split.
  - intros rs st1 st2 H1 D1 H2 D2.
    destruct (finished_slots w rs st1 H1 D1) as [E1 _].
    destruct (finished_slots w rs st2 H2 D2) as [E2 _].
    by rewrite E1, E2.
  - intros Hos ips st1 st2 R1 D1 R2 D2.
    assert (H : forall st, Collector.reachable w ips st -> Collector.resultsDone st = true ->
                Permutation (Collector.rows (Collector.after_done sortSlice ips st))
                            (all_outcomes w ips)).
    { intros st Hreach Hdone.
      destruct (reachable_inv w ips st Hos Hreach) as [Hcr Hl Hcnt Hsend Hres Hcl Hdn].
      destruct (Hdn Hdone) as [Hclosed Hempty].
      destruct (delivered_all_returned w ips _ Hl (Hcl Hclosed)) as [Hdel _].
      unfold Collector.after_done. cbn [Collector.rows].
      rewrite <- (proj1 (Hsort _ _ _)). by rewrite <- Hdel, <- Hres, Hempty, app_nil_r. }
    split; [|by apply H]. rewrite (H st1 R1 D1). symmetry. by apply H.
Qed.

Lemma report_order_and_arrival_order_witness :
  rank noIPv6 insertionSort
    (map slot_result (slots (run_schedule world_two_peers (dispatch two_peers) [0%nat; 1%nat]))) =
  rank noIPv6 insertionSort
    (map slot_result (slots (run_schedule world_two_peers (dispatch two_peers) [1%nat; 0%nat])))
  /\
  Permutation (Collector.rows (Collector.after_done (@insertionSort) two_hosts h0_first))
              (Collector.rows (Collector.after_done (@insertionSort) two_hosts h1_first)).
Proof.
  split.
  - apply (proj1 (report_order_and_arrival_order noIPv6 insertionSort world_two_peers
                    insertionSort_contract) two_peers).
    + apply run_schedule_steps.
    + vm_compute. reflexivity.
    + apply run_schedule_steps.
    + vm_compute. reflexivity.
  - apply (proj2 (report_order_and_arrival_order noIPv6 insertionSort answering_world
                    insertionSort_contract) eq_refl two_hosts).
    + apply state_after_reachable. constructor.
    + vm_compute. reflexivity.
    + apply state_after_reachable. constructor.
    + vm_compute. reflexivity.
Defined.

(** * Group labels on the peers *)




(** The same pass with numbered groups. *)
Section NumberedFacts.

Variable parseIPv6 : string -> option Z.









End NumberedFacts.




















(** * The timeout and the executors that have not returned *)


















